(** * Riposte execution pipeline: interpreter, trace recorder, scheduler
      and tile-register assignment, embedded from the C++ sources.

    Sources embedded here:
      - src/interpreter.cpp      (operand fetch, trigger, jc, branch, ret,
                                  assign, mov, the loop, eval)
      - jit.cpp (unnamed part)   (SpecializeLength, SpecializeValue,
                                  MergeShapes, cast, rep, the emitters, load,
                                  store, BuildExit, schedule)
      - src/trace_interpret.cpp  (Allocator, instruction selection, register
                                  allocation pass)

    Conventions.  Pointers into the bytecode are addresses in units of
    one Instruction ([Z]); pointers to environments are arena indices
    ([Z], 0 being the null pointer); interned strings are their ids. *)

From Stdlib Require Import ZArith Lia Bool String.
From stdpp Require Import base tactics option list gmap.

Local Open Scope Z_scope.
Local Set Warnings "-register-all".

(* ===================================================================== *)
(** ** Types and values (value.h is not part of the sources at hand) *)

Module Type_.
Inductive Enum :=
| Nil | Promise | Default | Null | Logical | Integer | Double
| Character | List | Function | Environment | Object.

#[global] Instance Enum_eq_dec : EqDecision Enum.
Proof. solve_decision. Defined.
End Type_.

(** A Value is a tagged union.  Vectors carry their elements: logical
    elements are bytes, integers are 64-bit signed numbers, doubles are
    kept as their binary64 bit pattern, characters are interned ids.
    Function, Promise and Default all hold a prototype and an
    environment pointer ([Function f( *a)] reads both). *)
Inductive Value :=
| VNil
| VNull
| VLogical (c : list Z)
| VInteger (i : list Z)
| VDouble (d : list Z)
| VCharacter (s : list Z)
| VList (l : list Value)
| VFunction (prototype environment : Z)
| VPromise (prototype environment : Z)
| VDefault (prototype environment : Z)
| VEnvironment (e : Z)
| VObject (base : Value).

Definition len {A} (l : list A) : Z := Z.of_nat (List.length l).

Definition Value_type (v : Value) : Type_.Enum :=
  match v with
  | VNil => Type_.Nil
  | VNull => Type_.Null
  | VLogical _ => Type_.Logical
  | VInteger _ => Type_.Integer
  | VDouble _ => Type_.Double
  | VCharacter _ => Type_.Character
  | VList _ => Type_.List
  | VFunction _ _ => Type_.Function
  | VPromise _ _ => Type_.Promise
  | VDefault _ _ => Type_.Default
  | VEnvironment _ => Type_.Environment
  | VObject _ => Type_.Object
  end.

(** The header's length field; only read by the sources on vectors. *)
Definition Value_length (v : Value) : Z :=
  match v with
  | VLogical l | VInteger l | VDouble l | VCharacter l => len l
  | VList l => len l
  | _ => 0
  end.

Definition isNull (v : Value) : bool :=
  match v with VNull => true | _ => false end.
Definition isVector (v : Value) : bool :=
  match v with
  | VLogical _ | VInteger _ | VDouble _ | VCharacter _ | VList _ => true
  | _ => false
  end.
Definition isObject (v : Value) : bool :=
  match v with VObject _ => true | _ => false end.
Definition isPromise (v : Value) : bool :=
  match v with VPromise _ _ => true | _ => false end.
Definition isDefault (v : Value) : bool :=
  match v with VDefault _ _ => true | _ => false end.
Definition isNil (v : Value) : bool :=
  match v with VNil => true | _ => false end.

(** Modelled from the spec: [isConcrete] (value.h) is false exactly on
    Nil, Promise and Default, the three kinds an environment lookup may
    return without a usable value. *)
Definition isConcrete (v : Value) : bool :=
  match v with
  | VNil | VPromise _ _ | VDefault _ _ => false
  | _ => true
  end.

(* ===================================================================== *)
(** ** The trace recorder and scheduler (jit.cpp) *)

Module TraceOpCode.
(** The opcodes named by the recorder and the scheduler. *)
Inductive Enum :=
| constant | sload | load | slength | elength | olength | alength
| sstore | store | curenv | lenv | denv | cenv | newenv | push | kill
| rep | seq | gather | scatter | gtrue | gfalse | gproto
| loop | phi | jmp | exit | nest | nop | length
| asdouble | asinteger | aslogical | ascharacter
| add | sub | lt | le | gt | land | ifelse.

#[global] Instance Enum_eq_dec : EqDecision Enum.
Proof. solve_decision. Defined.
End TraceOpCode.

Module JIT.

Definition IRRef := Z.

(** [Shape(IRRef length, size_t traceLength)]: [length] is the IR
    reference that produces the run-time length and [traceLength] is
    the length observed while recording.  (The specification calls the
    first "traceLength reference" and the second "concrete length".) *)
Record Shape := mkShape { length : IRRef; traceLength : Z }.

Definition Empty : Shape := mkShape 0 0.
Definition Scalar : Shape := mkShape 1 1.

(** Modelled from the spec: [Shape::operator==] (jit.h) compares the
    IR length reference only ("two shapes are equal iff their
    traceLength references are equal"). *)
Definition Shape_eqb (a b : Shape) : bool := length a =? length b.

Record IR := mkIR {
  op : TraceOpCode.Enum;
  a : IRRef; b : IRRef; c : IRRef;
  type : Type_.Enum;
  in_ : Shape;
  out : Shape
}.

Record Reenter := mkReenter { reenter : Z; inScope : bool }.

(** The recorder's buffers touched by the functions below. *)
Record State := mkState {
  trace : list IR;
  reenters : gmap Z Reenter
}.

(** Declarations of jit.h that the sources use but do not define. *)
Class Params := {
  SPECIALIZE_LENGTH : Z;
  makeConstant : Value -> IR
}.

Definition is_opb (x y : TraceOpCode.Enum) : bool := bool_decide (x = y).

(** [JIT::insert]: push the node, return its index. *)
Definition insert (t : list IR) (o : TraceOpCode.Enum) (x y z : IRRef)
    (ty : Type_.Enum) (i o' : Shape) : IRRef * list IR :=
  let t' := t ++ [mkIR o x y z ty i o'] in
  (len t' - 1, t').

Definition insertS (st : State) (o : TraceOpCode.Enum) (x y z : IRRef)
    (ty : Type_.Enum) (i o' : Shape) : IRRef * State :=
  let '(r, t') := insert (trace st) o x y z ty i o' in
  (r, mkState t' (reenters st)).

Definition set_reenter (st : State) (g : IRRef) (r : Reenter) : State :=
  mkState (trace st) (<[g := r]> (reenters st)).

Section WithParams.
Context `{Params}.

(** [JIT::constant] *)
Definition constant (st : State) (v : Value) : IRRef * State :=
  let t' := trace st ++ [makeConstant v] in
  (len t' - 1, mkState t' (reenters st)).

(** [JIT::SpecializeLength] *)
Definition SpecializeLength (st : State) (length_ : Z) (irlength : IRRef)
    (inst : Z) : Shape * State :=
  if length_ <=? SPECIALIZE_LENGTH then
    let '(s, st') := constant st (VInteger [length_]) in
    (mkShape s length_, st')
  else
    (mkShape irlength length_, st).

(** [JIT::SpecializeValue] *)
Definition SpecializeValue (st : State) (v : Value) (ir : IR) (inst : Z)
    : Shape * State :=
  if isNull v then (Empty, st)
  else if isVector v then
    let st1 := mkState (trace st ++ [ir]) (reenters st) in
    SpecializeLength st1 (Value_length v) (len (trace st1) - 1) inst
  else (Scalar, st).
End WithParams.

(** The forwarding loop of the third case of MergeShapes. *)
Definition forward_shape (o n : IRRef) (s : Shape) : Shape :=
  if length s =? o then mkShape n (traceLength s) else s.

Definition forward_ir (o n : IRRef) (ir : IR) : IR :=
  mkIR (op ir) (a ir) (b ir) (c ir) (type ir)
       (forward_shape o n (in_ ir)) (forward_shape o n (out ir)).

(** The guard emitted when the observed lengths differ: the shorter
    length [s] must lie in (0, longer]. *)
Definition emit_length_guard (st : State) (s l : IRRef) (inst : Z) : State :=
  let '(x, st1) := insertS st TraceOpCode.le s l 0 Type_.Logical Scalar Scalar in
  let '(y, st2) := insertS st1 TraceOpCode.gt s 0 0 Type_.Logical Scalar Scalar in
  let '(z, st3) := insertS st2 TraceOpCode.land x y 0 Type_.Logical Scalar Scalar in
  let '(g, st4) := insertS st3 TraceOpCode.gtrue z 0 0 Type_.Nil Scalar Empty in
  set_reenter st4 g (mkReenter inst true).

(** [JIT::MergeShapes] *)
Definition MergeShapes (st : State) (x y : Shape) (inst : Z) : Shape * State :=
  if Shape_eqb x y then (x, st)
  else if Shape_eqb x Empty || Shape_eqb y Empty then (Empty, st)
  else if traceLength x =? traceLength y then
    let shape := if length x <? length y then x else y in
    let n := Z.min (length x) (length y) in
    let o := Z.max (length x) (length y) in
    (shape, mkState (map (forward_ir o n) (trace st)) (reenters st))
  else if traceLength x <? traceLength y then
    (y, emit_length_guard st (length x) (length y) inst)
  else if traceLength y <? traceLength x then
    (x, emit_length_guard st (length y) (length x) inst)
  else (Empty, st).

(** [JIT::schedule]: the forward pass that marks fusion groups.  The
    loop state is the running group shape, the members seen in the
    group, and the [fusable] vector. *)
Record Groups := mkGroups {
  gSize : Shape;
  gMembers : gset Z;
  fusable : list bool
}.

(** The condition of the [if] in the loop body. *)
Definition boundary (g : Groups) (ir : IR) : bool :=
  negb (Shape_eqb (in_ ir) (gSize g))
  || (is_opb (op ir) TraceOpCode.scatter && bool_decide (c ir ∈ gMembers g))
  || (is_opb (op ir) TraceOpCode.gather && bool_decide (c ir ∈ gMembers g))
  || is_opb (op ir) TraceOpCode.gtrue
  || is_opb (op ir) TraceOpCode.gfalse
  || is_opb (op ir) TraceOpCode.load
  || is_opb (op ir) TraceOpCode.sload.

Definition schedule_step (g : Groups) (i : Z) (ir : IR) : Groups :=
  let g1 :=
    if boundary g ir
    then mkGroups (in_ ir) ∅ (<[Z.to_nat i := false]> (fusable g))
    else g in
  let m1 := {[ i ]} ∪ gMembers g1 in
  let m2 := if is_opb (op ir) TraceOpCode.gather then {[ b ir ]} ∪ m1 else m1 in
  let m3 := if is_opb (op ir) TraceOpCode.scatter then {[ c ir ]} ∪ m2 else m2 in
  mkGroups (gSize g1) m3 (fusable g1).

Fixpoint schedule_loop (g : Groups) (i : Z) (code : list IR) : Groups :=
  match code with
  | [] => g
  | ir :: rest => schedule_loop (schedule_step g i ir) (i + 1) rest
  end.

Definition schedule_init (code : list IR) : Groups :=
  mkGroups (mkShape (-1) (-1)) ∅ (replicate (List.length code) true).

Definition schedule (code : list IR) : list bool :=
  fusable (schedule_loop (schedule_init code) 0 code).

(** The state of the pass when it reaches node [i]. *)
Definition schedule_before (code : list IR) (i : nat) : Groups :=
  schedule_loop (schedule_init code) 0 (take i code).

End JIT.

(* ===================================================================== *)
(** ** The bytecode interpreter (interpreter.cpp) *)

Module ByteCode.
(** The opcodes whose handlers are embedded below; [unary] and [binary]
    stand for the opcodes of the macro lists of ops.h, kept by number. *)
Inductive Enum :=
| jmp | jc | ret | mov | assign | done
| seq | ifelse | split | unary (n : Z) | binary (n : Z).

#[global] Instance Enum_eq_dec : EqDecision Enum.
Proof. solve_decision. Defined.
End ByteCode.

Module Interpreter.

Record Instruction := mkInstruction {
  bc : ByteCode.Enum;
  a : Z; b : Z; c : Z
}.

(** An environment: its bindings (interned name to Value) and its two
    parents ([LexicalScope()], [DynamicScope()]; 0 when absent). *)
Record Environment := mkEnvironment {
  vars : gmap Z Value;
  lexical : Z;
  dynamic : Z
}.

(** A compiled unit, as far as frames need it: how many registers it
    uses and where its instruction stream starts. *)
Record Prototype := mkPrototype {
  registers_needed : Z;
  entry : Z
}.

(** The destination of a frame's result is the register index [i] when
    it is non-positive, and otherwise the name [s] in environment
    [env]. *)
Record StackFrame := mkStackFrame {
  environment : Z;
  ownEnvironment : bool;
  prototype : Z;
  returnpc : Z;
  returnbase : Z;
  i : Z;
  env : Z;
  s : Z
}.

Definition default_frame : StackFrame := mkStackFrame 0 false 0 0 0 0 0 0.

(** The thread: the register file is addressed by index, [base] is the
    moving base pointer; [frame] is the current frame and [stack] the
    saved ones, oldest first. *)
Record Thread := mkThread {
  base : Z;
  registers : gmap Z Value;
  frame : StackFrame;
  stack : list StackFrame;
  environments : list Z;
  heap : gmap Z Environment;
  prototypes : gmap Z Prototype;
  code : gmap Z Instruction;
  jitEnabled : bool
}.

(** What a handler or a run yields: a result with the new thread state,
    an [_error] thrown in some thread state, or behaviour the C++
    leaves undefined (a dangling pointer, fuel exhausted). *)
Inductive Result (A : Type) :=
| Ok (r : A) (th : Thread)
| Error (msg : string) (th : Thread)
| Undefined.
Arguments Ok {A} r th.
Arguments Error {A} msg th.
Arguments Undefined {A}.

(** Declarations of value.h, interpreter.h and the build that the
    sources use but do not define. *)
Class Params := {
  ENABLE_JIT : bool;
  TRACE_VECTOR_WIDTH : Z;
  Logical_isTrue : Z -> bool;
  Logical_isFalse : Z -> bool;
  Logical_isNA : Z -> bool;
  Double_NAelement : Z;
  isClosureSafe : Value -> bool;
  externStr : Z -> string;
  As_Integer : Value -> list Z
}.

(** Modelled from the spec: [Integer::isNA] (value.h); the integer NA
    is INT64_MIN. *)
Definition Integer_isNA (x : Z) : bool := x =? - 2 ^ 63.

(** Modelled from the spec: [Double::isNA] (value.h); NA is one
    specific NaN bit pattern and is recognised by its bits. *)
Definition Double_isNA `{Params} (d : Z) : bool := d =? Double_NAelement.

(** The C++ comparison [d != 0] on a binary64 bit pattern: false
    exactly on +0 and -0 (a NaN compares unequal to everything). *)
Definition Double_ne0 (d : Z) : bool := negb (Z.land d (2 ^ 63 - 1) =? 0).

Definition set_base (th : Thread) (v : Z) : Thread :=
  mkThread v (registers th) (frame th) (stack th) (environments th)
           (heap th) (prototypes th) (code th) (jitEnabled th).
Definition set_registers (th : Thread) (r : gmap Z Value) : Thread :=
  mkThread (base th) r (frame th) (stack th) (environments th)
           (heap th) (prototypes th) (code th) (jitEnabled th).
Definition set_frame (th : Thread) (f : StackFrame) : Thread :=
  mkThread (base th) (registers th) f (stack th) (environments th)
           (heap th) (prototypes th) (code th) (jitEnabled th).
Definition set_stack (th : Thread) (st : list StackFrame) : Thread :=
  mkThread (base th) (registers th) (frame th) st (environments th)
           (heap th) (prototypes th) (code th) (jitEnabled th).
Definition set_environments (th : Thread) (l : list Z) : Thread :=
  mkThread (base th) (registers th) (frame th) (stack th) l
           (heap th) (prototypes th) (code th) (jitEnabled th).
Definition set_heap (th : Thread) (h : gmap Z Environment) : Thread :=
  mkThread (base th) (registers th) (frame th) (stack th) (environments th)
           h (prototypes th) (code th) (jitEnabled th).

(** [REGISTER(i)] is [*(thread.base-(i))]; a slot never written holds
    Nil. *)
Definition REGISTER (th : Thread) (i : Z) : Value :=
  default VNil (registers th !! (base th - i)).
Definition set_REGISTER (th : Thread) (i : Z) (v : Value) : Thread :=
  set_registers th (<[base th - i := v]> (registers th)).

(** Modelled from the spec: [Thread::push] and [Thread::pop]
    (interpreter.h).  The current frame lives beside the stack: push
    saves it on the stack and hands it out for overwriting, pop
    restores the most recently saved one. *)
Definition push (th : Thread) : Thread := set_stack th (stack th ++ [frame th]).
Definition pop (th : Thread) : option Thread :=
  match last (stack th) with
  | Some f => Some (set_frame (set_stack th (removelast (stack th))) f)
  | None => None
  end.

(** [std::vector::resize]: cut down to [n] frames, or pad with
    value-initialised ones. *)
Definition resize (st : list StackFrame) (n : Z) : list StackFrame :=
  take (Z.to_nat n) st ++ replicate (Z.to_nat n - List.length st)%nat default_frame.

(** Modelled from the spec: [Environment::getRecursive] (value.h) walks
    the lexical parents until the name is bound and yields Nil from the
    top.  The fuel bounds the walk; [None] is a dangling pointer or a
    chain longer than the fuel. *)
Fixpoint getRecursive_fuel (n : nat) (h : gmap Z Environment) (e name : Z)
    : option Value :=
  match n with
  | O => None
  | S n' =>
      match h !! e with
      | None => None
      | Some E =>
          match vars E !! name with
          | Some v => if isNil v then
                        (if lexical E =? 0 then Some VNil
                         else getRecursive_fuel n' h (lexical E) name)
                      else Some v
          | None => if lexical E =? 0 then Some VNil
                    else getRecursive_fuel n' h (lexical E) name
          end
      end
  end.

Definition getRecursive (th : Thread) (e name : Z) : option Value :=
  getRecursive_fuel (S (size (heap th))) (heap th) e name.

(** [env->insert(name) = v] *)
Definition env_insert (th : Thread) (e name : Z) (v : Value) : option Thread :=
  match heap th !! e with
  | Some E => Some (set_heap th (<[e := mkEnvironment (<[name := v]> (vars E))
                                          (lexical E) (dynamic E)]> (heap th)))
  | None => None
  end.

(** Modelled from the spec: [buildStackFrame] (call.h), with a register
    destination and with a named destination.  The caller's frame is
    pushed; the new current frame records the environment to evaluate
    in, the ownership flag, the prototype, where to return to and the
    base to restore; the base moves down by the registers the prototype
    needs; the result is the prototype's first instruction. *)
Definition buildStackFrame_common (th : Thread) (environment_ : Z)
    (ownEnvironment_ : bool) (prototype_ : Z) (i_ env_ s_ : Z) (returnpc_ : Z)
    : Result Z :=
  match prototypes th !! prototype_ with
  | None => Undefined
  | Some P =>
      let th1 := push th in
      let f := mkStackFrame environment_ ownEnvironment_ prototype_
                            returnpc_ (base th1) i_ env_ s_ in
      let th2 := set_frame th1 f in
      Ok (entry P) (set_base th2 (base th2 - registers_needed P))
  end.

Definition buildStackFrame (th : Thread) (environment_ : Z)
    (ownEnvironment_ : bool) (prototype_ : Z) (resultSlot : Z) (returnpc_ : Z)
    : Result Z :=
  buildStackFrame_common th environment_ ownEnvironment_ prototype_
                         resultSlot (env (frame th)) (s (frame th)) returnpc_.

Definition buildStackFrame_named (th : Thread) (environment_ : Z)
    (ownEnvironment_ : bool) (prototype_ : Z) (env_ : Z) (s_ : Z) (returnpc_ : Z)
    : Result Z :=
  buildStackFrame_common th environment_ ownEnvironment_ prototype_
                         s_ env_ s_ returnpc_.

Section WithParams.
Context `{Params}.

(** [forceReg]; [inst] is the address of the instruction being run. *)
Definition forceReg (th : Thread) (inst : Z) (v : Value) (name : Z) : Result Z :=
  match v with
  | VPromise p e =>
      match heap th !! e with
      | Some E => buildStackFrame_named th (dynamic E) false p e name inst
      | None => Undefined
      end
  | VDefault p e => buildStackFrame_named th e false p e name inst
  | _ => Error ("Object '" ++ externStr name ++ "' not found") th
  end.

(** The [OPERAND] macro either binds the operand or returns from the
    handler with what [forceReg] yields. *)
Inductive Fetch :=
| Fetched (v : Value)
| Return (r : Result Z).

Definition OPERAND (th : Thread) (inst : Z) (i_ : Z) : Fetch :=
  if i_ <=? 0 then Fetched (REGISTER th i_)
  else
    match getRecursive th (environment (frame th)) i_ with
    | None => Return Undefined
    | Some v => if isConcrete v then Fetched v
                else Return (forceReg th inst v i_)
    end.

(** [UNCHECKED_OPERAND] reads without forcing. *)
Definition UNCHECKED_OPERAND (th : Thread) (i_ : Z) : option Value :=
  if i_ <=? 0 then Some (REGISTER th i_)
  else getRecursive th (environment (frame th)) i_.

(** [CHECK_OPERAND]: [Some r] when the handler returns through
    [forceReg]. *)
Definition CHECK_OPERAND (th : Thread) (inst : Z) (v : Value) (i_ : Z)
    : option (Result Z) :=
  if (0 <? i_) && negb (isConcrete v) then Some (forceReg th inst v i_)
  else None.

(** *** The JIT trigger *)

Definition isRecordableType (t : Type_.Enum) : bool :=
  bool_decide (t = Type_.Double) || bool_decide (t = Type_.Integer)
  || bool_decide (t = Type_.Logical).

(** What [trace] returns: null, or whatever
    [thread.trace.BeginTracing(thread, &inst)] returns. *)
Inductive Trigger :=
| Null
| BeginTracing (inst : Z).

Definition trace (th : Thread) (inst : Z) (t : Type_.Enum) (length_ : Z) : Trigger :=
  if ENABLE_JIT
     && (jitEnabled th && isRecordableType t && (TRACE_VECTOR_WIDTH <=? length_))
  then BeginTracing inst else Null.

Definition trace1 (th : Thread) (inst : Z) (x : Value) : Trigger :=
  trace th inst (Value_type x) (Value_length x).

Definition trace2 (th : Thread) (inst : Z) (x y : Value) : Trigger :=
  if ENABLE_JIT
     && (jitEnabled th && isRecordableType (Value_type x)
         && isRecordableType (Value_type y)
         && ((TRACE_VECTOR_WIDTH <=? Value_length x)
             || (TRACE_VECTOR_WIDTH <=? Value_length y)))
  then BeginTracing inst else Null.

Definition is1 (v : Value) : bool :=
  match v with
  | VDouble [_] | VInteger [_] | VLogical [_] => true
  | _ => false
  end.

(** Where an arithmetic handler goes.  The kernels are not part of the
    sources at hand; the control skeleton of the handlers is.
    [Recorder] is the call of [BeginTracing]; [Interpreted] is the
    handler doing the work itself and stepping to the next
    instruction. *)
Inductive Path :=
| ScalarKernel
| GenericDispatch
| Forcing (r : Result Z)
| Recorder (inst : Z)
| Interpreted
| Raise (msg : string)
| Stuck.

Definition after_trigger (t : Trigger) (otherwise : Path) : Path :=
  match t with
  | BeginTracing inst => Recorder inst
  | Null => otherwise
  end.

(** The handlers generated from [UNARY_FOLD_SCAN_BYTECODES]. *)
Definition unary_op (th : Thread) (inst : Z) (ins : Instruction) : Path :=
  match UNCHECKED_OPERAND th (a ins) with
  | None => Stuck
  | Some x =>
      if is1 x then ScalarKernel
      else if isObject x then GenericDispatch
      else match CHECK_OPERAND th inst x (a ins) with
           | Some r => Forcing r
           | None => after_trigger (trace1 th inst x) Interpreted
           end
  end.

(** The handlers generated from [BINARY_BYTECODES]. *)
Definition binary_op (th : Thread) (inst : Z) (ins : Instruction) : Path :=
  match UNCHECKED_OPERAND th (a ins), UNCHECKED_OPERAND th (b ins) with
  | Some x, Some y =>
      if is1 x && is1 y then ScalarKernel
      else match CHECK_OPERAND th inst x (a ins) with
           | Some r => Forcing r
           | None =>
               match CHECK_OPERAND th inst y (b ins) with
               | Some r => Forcing r
               | None =>
                   if isObject x || isObject y then GenericDispatch
                   else after_trigger (trace2 th inst x y) Interpreted
               end
           end
  | _, _ => Stuck
  end.

(** [ifelse_op] and [split_op] fetch one operand and ask the trigger
    about it. *)
Definition ifelse_op (th : Thread) (inst : Z) (ins : Instruction) : Path :=
  match OPERAND th inst (a ins) with
  | Return r => Forcing r
  | Fetched x =>
      after_trigger (trace1 th inst x) (Raise "ifelse not defined in scalar yet")
  end.

Definition split_op (th : Thread) (inst : Z) (ins : Instruction) : Path :=
  match OPERAND th inst (c ins) with
  | Return r => Forcing r
  | Fetched x =>
      after_trigger (trace1 th inst x) (Raise "split not defined in scalar yet")
  end.

(** [seq_op]: the trigger is asked about an Integer of the requested
    length, [As<Integer>(thread, Len)[0]]. *)
Definition seq_op (th : Thread) (inst : Z) (ins : Instruction) : Path :=
  match OPERAND th inst (a ins) with
  | Return r => Forcing r
  | Fetched Len =>
      match OPERAND th inst (b ins) with
      | Return r => Forcing r
      | Fetched Step =>
          match As_Integer Len, As_Integer Step with
          | len_ :: _, step :: _ =>
              after_trigger (trace th inst Type_.Integer len_) Interpreted
          | _, _ => Stuck
          end
      end
  end.

(** *** Control flow handlers *)

Definition jmp_op (th : Thread) (inst : Z) (ins : Instruction) : Result Z :=
  Ok (inst + a ins) th.

Definition jc_op (th : Thread) (inst : Z) (ins : Instruction) : Result Z :=
  match UNCHECKED_OPERAND th (c ins) with
  | None => Undefined
  | Some v =>
      match v with
      | VLogical [x] =>
          if Logical_isTrue x then Ok (inst + a ins) th
          else if Logical_isFalse x then Ok (inst + b ins) th
          else Error "NA where TRUE/FALSE needed" th
      | VInteger [x] =>
          if Integer_isNA x then Error "NA where TRUE/FALSE needed" th
          else if negb (x =? 0) then Ok (inst + a ins) th
          else Ok (inst + b ins) th
      | VDouble [x] =>
          if Double_isNA x then Error "NA where TRUE/FALSE needed" th
          else if Double_ne0 x then Ok (inst + a ins) th
          else Ok (inst + b ins) th
      | _ =>
          match CHECK_OPERAND th inst v (c ins) with
          | Some r => r
          | None => Error "Need single element logical in conditional jump" th
          end
      end
  end.

Definition ret_op (th : Thread) (inst : Z) (ins : Instruction) : Result Z :=
  match OPERAND th inst (a ins) with
  | Return r => r
  | Fetched result =>
      let th1 :=
        if ownEnvironment (frame th) && isClosureSafe result
        then set_environments th (environments th ++ [environment (frame th)])
        else th in
      let th2 := set_base th1 (returnbase (frame th1)) in
      let written :=
        if i (frame th2) <=? 0
        then Some (set_REGISTER th2 (i (frame th2)) result)
        else env_insert th2 (env (frame th2)) (s (frame th2)) result in
      match written with
      | None => Undefined
      | Some th3 =>
          let returnpc_ := returnpc (frame th3) in
          match pop th3 with
          | Some th4 => Ok returnpc_ th4
          | None => Undefined
          end
      end
  end.

(** *** Memory handlers *)

Definition assign_op (th : Thread) (inst : Z) (ins : Instruction) : Result Z :=
  match OPERAND th inst (c ins) with
  | Return r => r
  | Fetched value =>
      match env_insert th (environment (frame th)) (a ins) value with
      | Some th1 => Ok (inst + 1) th1
      | None => Undefined
      end
  end.

Definition mov_op (th : Thread) (inst : Z) (ins : Instruction) : Result Z :=
  match OPERAND th inst (a ins) with
  | Return r => r
  | Fetched value => Ok (inst + 1) (set_REGISTER th (c ins) value)
  end.

(** *** The interpreter loop (the switch form) *)

(** How far a run can follow an arithmetic handler here: it returns
    through [forceReg] or raises; the kernels and the recorder are not
    part of the sources at hand and a run that needs them is left
    undefined. *)
Definition follow (th : Thread) (p : Path) : Result Z :=
  match p with
  | Forcing r => r
  | Raise msg => Error msg th
  | _ => Undefined
  end.

Definition dispatch (th : Thread) (pc : Z) (ins : Instruction) : Result Z :=
  match bc ins with
  | ByteCode.jmp => jmp_op th pc ins
  | ByteCode.jc => jc_op th pc ins
  | ByteCode.ret => ret_op th pc ins
  | ByteCode.mov => mov_op th pc ins
  | ByteCode.assign => assign_op th pc ins
  | ByteCode.done => Ok 0 th
  | ByteCode.seq => follow th (seq_op th pc ins)
  | ByteCode.ifelse => follow th (ifelse_op th pc ins)
  | ByteCode.split => follow th (split_op th pc ins)
  | ByteCode.unary _ => follow th (unary_op th pc ins)
  | ByteCode.binary _ => follow th (binary_op th pc ins)
  end.

Fixpoint interpret (fuel : nat) (th : Thread) (pc : Z) : Result unit :=
  match fuel with
  | O => Undefined
  | S fuel' =>
      match code th !! pc with
      | None => Undefined
      | Some ins =>
          if bool_decide (bc ins = ByteCode.done) then Ok tt th
          else match dispatch th pc ins with
               | Ok pc' th' => interpret fuel' th' pc'
               | Error msg th' => Error msg th'
               | Undefined => Undefined
               end
      end
  end.

(** The start of [Thread::eval]: the half-hearted frame for the result
    and the reserved result slot. *)
Definition eval_result_frame (th : Thread) : Thread :=
  let th1 := push th in
  let th2 := set_frame th1
               (mkStackFrame 0 (ownEnvironment (frame th1)) 0
                             (returnpc (frame th1)) (base th1)
                             (i (frame th1)) (env (frame th1)) (s (frame th1))) in
  set_base th2 (base th2 - 1).

(** [Thread::eval(prototype, environment)].  [run] is the interpreter
    invocation inside the try block and [done] the address of the
    local done instruction. *)
Definition eval (run : Thread -> Z -> Result unit) (th : Thread)
    (prototype_ environment_ : Z) (done : Z) : Result Value :=
  let old_base := base th in
  let stackSize := len (stack th) in
  let th3 := eval_result_frame th in
  let result := base th3 in
  match buildStackFrame th3 environment_ false prototype_ 0 done with
  | Ok run_pc th4 =>
      match run th4 run_pc with
      | Ok _ th5 =>
          match pop (set_base th5 old_base) with
          | Some th6 => Ok (default VNil (registers th6 !! result)) th6
          | None => Undefined
          end
      | Error msg th5 =>
          Error msg (set_stack (set_base th5 old_base)
                               (resize (stack th5) stackSize))
      | Undefined => Undefined
      end
  | Error msg th4 => Error msg th4
  | Undefined => Undefined
  end.

End WithParams.
End Interpreter.

(* ===================================================================== *)
(** ** The tile interpreter's register allocation (trace_interpret.cpp) *)

Module TraceBC.
(** The casts, [lnot] and [seq] are listed by the source; the arithmetic
    versions come from macro lists of ops.h and are kept by number. *)
Inductive Enum :=
| map_version (n : Z)
| lnot | seq
| casti2d | castd2i | castl2i | castl2d | casti2l | castd2l.

#[global] Instance Enum_eq_dec : EqDecision Enum.
Proof. solve_decision. Defined.
End TraceBC.

Module TraceInterpret.

Definition is_widening_cast (e : TraceBC.Enum) : bool :=
  bool_decide (e = TraceBC.castl2i) || bool_decide (e = TraceBC.castl2d).

(** [enum { REG_R = 1, REG_A = 2, REG_B = 4 }] *)
Definition REG_R : Z := 1.
Definition REG_A : Z := 2.
Definition REG_B : Z := 4.

Definition has_flag (flags f : Z) : bool := negb (Z.land flags f =? 0).

(** A data pointer: null, the start of vector register [r] (that is
    [registers[r]]; the source does not compare [r] with
    TRACE_MAX_VECTOR_REGISTERS), or an address outside the register
    file. *)
Inductive Ptr :=
| NULL
| Reg (r : Z)
| Mem (addr : Z).

#[global] Instance Ptr_eq_dec : EqDecision Ptr.
Proof. solve_decision. Defined.

(** Where an operand's [pp] points: at the result pointer of an
    instruction ([&reference_to_instruction[r]->r.p]) or at the pointer
    of a [loadv] node ([&node.loadv.p]). *)
Inductive Cell :=
| ResultOf (k : nat)
| LoadOf (n : nat).

(** The [Operand] union: a pointer to a pointer cell, or an immediate. *)
Inductive Operand :=
| PP (cell : Cell)
| Imm (v : Z).

Record TraceInst := mkTraceInst {
  bc : TraceBC.Enum;
  flags : Z;
  r : Ptr;
  a : Operand;
  b : Operand
}.

Definition set_r (ins : TraceInst) (p : Ptr) : TraceInst :=
  mkTraceInst (bc ins) (flags ins) p (a ins) (b ins).

(** *** The bit-string allocator *)

Definition wrap32 (x : Z) : Z := x mod 2 ^ 32.

(** [Allocator() : a(~0)] *)
Definition Allocator_init : Z := wrap32 (Z.lnot 0).

(** [ffs]: one plus the index of the least significant set bit, 0 when
    there is none. *)
Fixpoint ffs_from (n : nat) (k : Z) (x : Z) : Z :=
  match n with
  | O => 0
  | S n' => if Z.testbit x k then k + 1 else ffs_from n' (k + 1) x
  end.
Definition ffs (x : Z) : Z := ffs_from 32 0 x.

(** [allocate]: with no bit set [ffs] is 0 and the shift by -1 is
    undefined. *)
Definition allocate (al : Z) : option (Z * Z) :=
  let reg := ffs al - 1 in
  if reg <? 0 then None
  else Some (reg, wrap32 (Z.land al (Z.lnot (Z.shiftl 1 reg)))).

(** [free]: a shift outside 0..31 is undefined. *)
Definition free (al : Z) (reg : Z) : option Z :=
  if (0 <=? reg) && (reg <? 32) then Some (wrap32 (Z.lor al (Z.shiftl 1 reg)))
  else None.

Arguments allocate : simpl never.
Arguments free : simpl never.

(** *** Pass 2 of [compile] *)

Record State := mkState {
  insts : list TraceInst;
  loads : gmap nat Ptr;
  free_reg : Z
}.

Definition read_cell (st : State) (cl : Cell) : option Ptr :=
  match cl with
  | ResultOf k => r <$> (insts st !! k)
  | LoadOf n => loads st !! n
  end.

Definition write_cell (st : State) (cl : Cell) (p : Ptr) : option State :=
  match cl with
  | ResultOf k =>
      match insts st !! k with
      | Some ins => Some (mkState (<[k := set_r ins p]> (insts st))
                                  (loads st) (free_reg st))
      | None => None
      end
  | LoadOf n =>
      match loads st !! n with
      | Some _ => Some (mkState (insts st) (<[n := p]> (loads st)) (free_reg st))
      | None => None
      end
  end.

Definition set_free_reg (st : State) (al : Z) : State :=
  mkState (insts st) (loads st) al.

(** [((double* )inst.r.p - &registers[0][0]) / TRACE_VECTOR_WIDTH]; the
    difference is defined only for a pointer into the register file. *)
Definition reg_of (p : Ptr) : option Z :=
  match p with
  | Reg x => Some x
  | _ => None
  end.

(** The [REG_R] part of the loop body for instruction [k]. *)
Definition step_R (k : nat) (st : State) : option State :=
  ins ← insts st !! k;
  if has_flag (flags ins) REG_R then
    st1 ← (if bool_decide (r ins = NULL) then
             '(reg, al) ← allocate (free_reg st);
             write_cell (set_free_reg st al) (ResultOf k) (Reg reg)
           else Some st);
    ins1 ← insts st1 !! k;
    reg ← reg_of (r ins1);
    al ← free (free_reg st1) reg;
    Some (set_free_reg st1 al)
  else Some st.

(** The [REG_A] part, with the widening-cast check. *)
Definition step_A (k : nat) (st : State) : option State :=
  ins ← insts st !! k;
  if has_flag (flags ins) REG_A then
    match a ins with
    | Imm _ => None
    | PP cl =>
        p ← read_cell st cl;
        if bool_decide (p = NULL) then
          '(reg, al) ← allocate (free_reg st);
          st1 ← write_cell (set_free_reg st al) cl (Reg reg);
          ins1 ← insts st1 !! k;
          p1 ← read_cell st1 cl;
          if is_widening_cast (bc ins1) && bool_decide (r ins1 = p1) then
            '(reg2, al2) ← allocate (free_reg st1);
            st2 ← write_cell (set_free_reg st1 al2) cl (Reg reg2);
            al3 ← free (free_reg st2) reg;
            Some (set_free_reg st2 al3)
          else Some st1
        else Some st
    end
  else Some st.

(** The [REG_B] part. *)
Definition step_B (k : nat) (st : State) : option State :=
  ins ← insts st !! k;
  if has_flag (flags ins) REG_B then
    match b ins with
    | Imm _ => None
    | PP cl =>
        p ← read_cell st cl;
        if bool_decide (p = NULL) then
          '(reg, al) ← allocate (free_reg st);
          write_cell (set_free_reg st al) cl (Reg reg)
        else Some st
    end
  else Some st.

Definition step (k : nat) (st : State) : option State :=
  st1 ← step_R k st; st2 ← step_A k st1; step_B k st2.

(** [for(int i = n_insts; i > 0; i--)] on [insts[i - 1]] *)
Fixpoint allocation_loop (i : nat) (st : State) : option State :=
  match i with
  | O => Some st
  | S k => st1 ← step k st; allocation_loop k st1
  end.

(** Pass 2 of [TraceInterpret::compile] on the instructions [prog]
    selected by pass 1, with a fresh [Allocator]. *)
Definition register_allocation (prog : list TraceInst) (ld : gmap nat Ptr)
    : option State :=
  allocation_loop (List.length prog) (mkState prog ld Allocator_init).

End TraceInterpret.



(* ===================================================================== *)
(** ** The emitters of the recorder (jit.cpp) *)

Module Emit.
Import JIT.

(** What an emitter yields: a reference with the new buffers, an
    [_error], or an access outside the trace vector, which C++ leaves
    undefined. *)
Inductive Emitted (A : Type) :=
| Done (r : A) (st : State)
| Fail (msg : string)
| OutOfTrace.
Arguments Done {A} r st.
Arguments Fail {A} msg.
Arguments OutOfTrace {A}.

Definition bindE {A B} (m : Emitted A) (f : A -> State -> Emitted B) : Emitted B :=
  match m with
  | Done r st => f r st
  | Fail msg => Fail msg
  | OutOfTrace => OutOfTrace
  end.

(** [trace[a]] *)
Definition node (st : State) (a : IRRef) : option IR :=
  if a <? 0 then None else trace st !! Z.to_nat a.

(** [JIT::cast] *)
Definition cast (st : State) (a : IRRef) (ty : Type_.Enum) : Emitted IRRef :=
  match node st a with
  | None => OutOfTrace
  | Some n =>
      if bool_decide (type n = ty) then Done a st
      else
        let s := out n in
        match ty with
        | Type_.Double =>
            let '(r, st') := insertS st TraceOpCode.asdouble a 0 0 ty s s in Done r st'
        | Type_.Integer =>
            let '(r, st') := insertS st TraceOpCode.asinteger a 0 0 ty s s in Done r st'
        | Type_.Logical =>
            let '(r, st') := insertS st TraceOpCode.aslogical a 0 0 ty s s in Done r st'
        | Type_.Character =>
            let '(r, st') := insertS st TraceOpCode.ascharacter a 0 0 ty s s in Done r st'
        | _ => Fail "Unexpected cast"
        end
  end.

Section WithParams.
Context `{Params}.

(** [JIT::rep] *)
Definition rep (st : State) (a : IRRef) (target : Shape) : Emitted IRRef :=
  match node st a with
  | None => OutOfTrace
  | Some n =>
      if negb (Shape_eqb (out n) target) then
        let l := length (out n) in
        let '(e, st1) := constant st (VInteger [1]) in
        match node st1 e with
        | None => OutOfTrace
        | Some en =>
            let '(r, st2) :=
              insertS st1 TraceOpCode.rep l e 0 (type en) target target in
            match node st2 a with
            | None => OutOfTrace
            | Some n2 =>
                let '(g, st3) :=
                  insertS st2 TraceOpCode.gather a r 0 (type n2) target target in
                Done g st3
            end
        end
      else Done a st
  end.

(** [JIT::EmitUnary] and [JIT::EmitFold] (the overloads with explicit
    types) *)
Definition EmitUnary (st : State) (o : TraceOpCode.Enum) (a : IRRef)
    (rty mty : Type_.Enum) : Emitted IRRef :=
  match node st a with
  | None => OutOfTrace
  | Some n =>
      bindE (cast st a mty) (fun ca st1 =>
        let '(r, st2) := insertS st1 o ca 0 0 rty (out n) (out n) in Done r st2)
  end.

Definition EmitFold (st : State) (o : TraceOpCode.Enum) (a : IRRef)
    (rty mty : Type_.Enum) : Emitted IRRef :=
  match node st a with
  | None => OutOfTrace
  | Some n =>
      bindE (cast st a mty) (fun ca st1 =>
        let '(r, st2) := insertS st1 o ca 0 0 rty (out n) Scalar in Done r st2)
  end.

(** [JIT::EmitBinary] (the overload with explicit types).  The two
    operand expressions [rep(cast(a,maty),shape)] and
    [rep(cast(b,mbty),shape)] are arguments of one call, each evaluated
    as a whole; [left_first] says which of them the compiler evaluates
    first. *)
Definition EmitBinary (left_first : bool) (st : State) (o : TraceOpCode.Enum)
    (a b : IRRef) (rty maty mbty : Type_.Enum) (inst : Z) : Emitted IRRef :=
  match node st a, node st b with
  | Some na, Some nb =>
      let '(shape, st0) := MergeShapes st (out na) (out nb) inst in
      if left_first then
        bindE (cast st0 a maty) (fun ca st1 =>
        bindE (rep st1 ca shape) (fun ra st2 =>
        bindE (cast st2 b mbty) (fun cb st3 =>
        bindE (rep st3 cb shape) (fun rb st4 =>
          let '(r, st5) := insertS st4 o ra rb 0 rty shape shape in Done r st5))))
      else
        bindE (cast st0 b mbty) (fun cb st1 =>
        bindE (rep st1 cb shape) (fun rb st2 =>
        bindE (cast st2 a maty) (fun ca st3 =>
        bindE (rep st3 ca shape) (fun ra st4 =>
          let '(r, st5) := insertS st4 o ra rb 0 rty shape shape in Done r st5))))
  | _, _ => OutOfTrace
  end.

End WithParams.
End Emit.

(* ===================================================================== *)
(** ** Loads, stores and exits of the recorder (jit.cpp) *)

Module Recorder.
Import JIT Emit.

(** [Variable]: the environment node ([-1] for the register file) and
    the slot or name. *)
Definition Variable_ := (IRRef * Z)%type.

(** The recorder with its table of forwarded slots. *)
Record Recorder := mkRecorder {
  buffers : State;
  slots : gmap Variable_ IRRef
}.

(** Declarations of interpreter.h and value.h read by [load] and
    [store]: the number of registers below the first frame, and the
    lookup of one environment. *)
Class Layout := {
  DEFAULT_NUM_REGISTERS : Z;
  has : Interpreter.Environment -> Z -> bool;
  get : Interpreter.Environment -> Z -> Value
}.

Section WithParams.
Context `{Params} `{Layout}.

(** [(thread.base+c)-(thread.registers+DEFAULT_NUM_REGISTERS)]; the
    register file starts at index 0. *)
Definition register_slot (th : Interpreter.Thread) (c : Z) : Z :=
  (Interpreter.base th + c) - (0 + DEFAULT_NUM_REGISTERS).

(** [Variable v = { -1, (thread.base+c)-(thread.registers+DEFAULT_NUM_REGISTERS) }] *)
Definition register_variable (th : Interpreter.Thread) (c : Z) : Variable_ :=
  (-1, register_slot th c).

(** [JIT::store]; [None] is a read outside the trace vector. *)
Definition store (rec : Recorder) (th : Interpreter.Thread) (a : IRRef) (c : Z)
    : option (IRRef * Recorder) :=
  if c <=? 0 then
    let v : Variable_ := register_variable th c in
    n ← node (buffers rec) a;
    let '(_, st1) :=
      insertS (buffers rec) TraceOpCode.sstore (-1) (snd v) a (type n) (out n) Empty in
    Some (a, mkRecorder st1 (<[v := a]> (slots rec)))
  else
    let '(cc, st1) := constant (buffers rec) (VCharacter [c]) in
    let '(e, st2) :=
      insertS st1 TraceOpCode.curenv 0 0 0 Type_.Environment Empty Scalar in
    let v : Variable_ := (e, cc) in
    n ← node st2 a;
    let '(_, st3) :=
      insertS st2 TraceOpCode.store (fst v) (snd v) a Type_.Nil (out n) Empty in
    Some (a, mkRecorder st3 (slots rec)).

(** The [while(!env->has(a))] loop of [load]: one guard load and one
    [lenv] per scope left behind.  [None] is a null or dangling
    environment, or a chain longer than the fuel. *)
Fixpoint climb (fuel : nat) (h : gmap Z Interpreter.Environment) (st : State)
    (env : Z) (r aa : IRRef) (name : Z) (reenter_ : Z)
    : option (Z * IRRef * State) :=
  match fuel with
  | O => None
  | S fuel' =>
      E ← h !! env;
      if has E name then Some (env, r, st)
      else
        let '(g, st1) :=
          insertS st TraceOpCode.load r aa 0 Type_.Nil Scalar Scalar in
        let st2 := set_reenter st1 g (mkReenter reenter_ true) in
        let '(r', st3) :=
          insertS st2 TraceOpCode.lenv r 0 0 Type_.Environment Scalar Scalar in
        climb fuel' h st3 (Interpreter.lexical E) r' aa name reenter_
  end.

(** [JIT::load].  [operand] is the value the [OPERAND] macro binds for
    a register; the six-argument [IR] constructor leaves operand [c]
    at 0. *)
Definition load (rec : Recorder) (th : Interpreter.Thread) (operand : Value)
    (a : Z) (reenter_ : Z) : option (IRRef * Recorder) :=
  '(r, rec1) ←
    (if a <=? 0 then
       let v : Variable_ := register_variable th a in
       match slots rec !! v with
       | Some r => Some (r, rec)
       | None =>
           let '(s, st1) :=
             SpecializeValue (buffers rec) operand
               (mkIR TraceOpCode.slength (-1) (snd v) 0 Type_.Integer Empty Scalar)
               reenter_ in
           let '(r, st2) :=
             insertS st1 TraceOpCode.sload (-1) (snd v) 0 (Value_type operand)
                     Empty s in
           Some (r, mkRecorder st2 (<[v := r]> (slots rec)))
       end
     else
       let '(aa, st1) := constant (buffers rec) (VCharacter [a]) in
       let '(r0, st2) :=
         insertS st1 TraceOpCode.curenv 0 0 0 Type_.Environment Empty Scalar in
       '(env, r, st3) ←
         climb (S (size (Interpreter.heap th))) (Interpreter.heap th) st2
               (Interpreter.environment (Interpreter.frame th)) r0 aa a reenter_;
       E ← Interpreter.heap th !! env;
       let operand' := get E a in
       let v : Variable_ := (r, aa) in
       let '(s, st4) :=
         SpecializeValue st3 operand'
           (mkIR TraceOpCode.elength (fst v) (snd v) 0 Type_.Integer Empty Scalar)
           reenter_ in
       let '(r', st5) :=
         insertS st4 TraceOpCode.load (fst v) (snd v) 0 (Value_type operand')
                 Empty s in
       Some (r', mkRecorder st5 (slots rec)));
  Some (r, mkRecorder (set_reenter (buffers rec1) r (mkReenter reenter_ true))
                      (slots rec1)).

(** The [mov] and [fastmov] case of [JIT::EmitIR]:
    [store(thread, load(thread, inst.a, &inst), inst.c)]. *)
Definition EmitIR_mov (rec : Recorder) (th : Interpreter.Thread) (operand : Value)
    (inst : Z) (ins : Interpreter.Instruction) : option Recorder :=
  '(r, rec1) ← load rec th operand (Interpreter.a ins) inst;
  '(_, rec2) ← store rec1 th r (Interpreter.c ins);
  Some rec2.

End WithParams.

(** *** Side exits *)

(** The recorder's picture of an interpreter frame (filled by
    [emitPush]). *)
Record StackFrame := mkStackFrame {
  environment : IRRef;
  prototype : Z;
  returnpc : Z;
  returnbase : Z;
  dest : Z;
  env : IRRef
}.

Record Exit := mkExit {
  live : list IRRef;
  frames : list StackFrame;
  o : gmap Variable_ IRRef;
  reenter : Reenter;
  index : Z
}.

(** The first loop of [BuildExit]. *)
Definition live_environments (fs : list StackFrame) : list IRRef :=
  flat_map (fun f => [environment f; env f]) fs.

(** The test of the second loop on one store: is it kept?  [None] is a
    read outside [code]. *)
Definition store_is_live (code : list IR) (lv : list IRRef) (v : Variable_)
    : option bool :=
  if fst v =? -1 then Some true
  else
    n ← (if fst v <? 0 then None else code !! Z.to_nat (fst v));
    if is_opb (op n) TraceOpCode.curenv then Some true
    else Some (existsb (fun e => e =? fst v) lv).

(** [JIT::BuildExit] on the optimized buffer [code]. *)
Definition BuildExit (code : list IR) (environments : list IRRef)
    (fs : list StackFrame) (stores : gmap Variable_ IRRef) (re : Reenter)
    (idx : Z) : option Exit :=
  let lv := live_environments fs in
  livestores ←
    map_fold (fun v r acc =>
                m ← acc;
                keep ← store_is_live code lv v;
                Some (if keep : bool then <[v := r]> m else m))
             (Some ∅) stores;
  Some (mkExit lv fs livestores re idx).

End Recorder.

(* ===================================================================== *)
(** ** Instruction selection of the tile interpreter
       (trace_interpret.cpp, pass 1 of [compile]) *)

Module Selection.
Import TraceInterpret.

(** [size_for_type] *)
Definition size_for_type (t : Type_.Enum) : Z :=
  if bool_decide (t = Type_.Logical) then 1 else 8.

(** What pass 1 yields: a value, an [_error], or behaviour the C++
    leaves undefined (an index outside [trace->nodes], an entry of
    [reference_to_instruction] that was never set, a failed assert). *)
Inductive Selected (A : Type) :=
| Sel (x : A)
| Err (msg : string)
| Lost.
Arguments Sel {A} x.
Arguments Err {A} msg.
Arguments Lost {A}.

Definition bindS {A B} (m : Selected A) (f : A -> Selected B) : Selected B :=
  match m with
  | Sel x => f x
  | Err msg => Err msg
  | Lost => Lost
  end.

Definition of_option {A} (m : option A) : Selected A :=
  match m with
  | Some x => Sel x
  | None => Lost
  end.

(** The opcode of an IR node.  The arithmetic opcodes come from the
    macro lists of ops.h; each is kept with the tile bytecodes that its
    entry of the list names ([op##isv], [op##ivs], ...) and, for folds
    and scans, with the base values. *)
Inductive IROpCode :=
| binary (oisv oivs oivv odsv odvs odvv : TraceBC.Enum)
| binarym (osv ovs ovv : TraceBC.Enum)
| unary (oi od : TraceBC.Enum)
| fold (oi od : TraceBC.Enum) (basei based : Z)
| lnot | cast | seq | loadc | loadv | storev | storec
| other.

(** An IR node as the pass reads it: [a] and [b] are the operand
    references ([unary.a], [binary.a], [binary.b], [special.a],
    [special.b], [store.a]), [i] is [loadc.i], [p] is [loadv.p], [dst]
    is the address [&store.dst->p] and [dst_p] the address held there.
    Output buffers lie outside the register file. *)
Record IRNode := mkIRNode {
  op : IROpCode;
  type : Type_.Enum;
  a : Z;
  b : Z;
  i : Z;
  p : Z;
  dst : Z;
  dst_p : Z
}.

(** An address as a data pointer. *)
Definition pointer (addr : Z) : Ptr := if addr =? 0 then NULL else Mem addr.

(** The members of [TraceInterpret] that pass 1 fills:
    [insts] (with [n_insts] its length), [reference_to_instruction]
    (node to instruction index) and the two lists of incrementing
    pointers. *)
Record Tables := mkTables {
  insts : list TraceInst;
  reference_to_instruction : gmap nat nat;
  incrementing_pointers_8 : list Cell;
  incrementing_pointers_1 : list Cell
}.

Definition Tables_init : Tables := mkTables [] ∅ [] [].

(** [trace->nodes[r]] *)
Definition node (nodes : list IRNode) (r : Z) : option IRNode :=
  if r <? 0 then None else nodes !! Z.to_nat r.

(** [AddIncrementingPointer] *)
Definition AddIncrementingPointer (tb : Tables) (t : Type_.Enum) (ptr : Cell)
    : Tables :=
  if size_for_type t =? 1 then
    mkTables (insts tb) (reference_to_instruction tb)
             (incrementing_pointers_8 tb) (incrementing_pointers_1 tb ++ [ptr])
  else
    mkTables (insts tb) (reference_to_instruction tb)
             (incrementing_pointers_8 tb ++ [ptr]) (incrementing_pointers_1 tb).

(** [GetOperand]: the operand with [isConstant] and [isRegister]. *)
Definition GetOperand (nodes : list IRNode) (tb : Tables) (r : Z)
    : option (Operand * bool * bool) :=
  n ← node nodes r;
  match op n with
  | loadc => Some (Imm (i n), true, false)
  | loadv => Some (PP (LoadOf (Z.to_nat r)), false, false)
  | _ =>
      k ← reference_to_instruction tb !! Z.to_nat r;
      Some (PP (ResultOf k), false, true)
  end.

(** [insts[n_insts++]] filled with [ins], and
    [reference_to_instruction[node_ref] = &inst]. *)
Definition emit (tb : Tables) (node_ref : nat) (ins : TraceInst) : Tables :=
  mkTables (insts tb ++ [ins])
           (<[node_ref := List.length (insts tb)]> (reference_to_instruction tb))
           (incrementing_pointers_8 tb) (incrementing_pointers_1 tb).

Definition flag_if (c : bool) (f : Z) : Z := if c then f else 0.

(** [EmitBinary] with three bytecodes. *)
Definition EmitBinary3 (nodes : list IRNode) (tb : Tables)
    (osv ovs ovv : TraceBC.Enum) (node_ref : nat) : Selected Tables :=
  bindS (of_option (nodes !! node_ref)) (fun n =>
  bindS (of_option (GetOperand nodes tb (a n))) (fun '(oa, a_is_const, a_is_reg) =>
  bindS (of_option (GetOperand nodes tb (b n))) (fun '(ob, b_is_const, b_is_reg) =>
    let fl := Z.lor (Z.lor REG_R (flag_if a_is_reg REG_A)) (flag_if b_is_reg REG_B) in
    let code := if a_is_const then osv else if b_is_const then ovs else ovv in
    Sel (emit tb node_ref (mkTraceInst code fl NULL oa ob))))).

(** [EmitBinary] with six bytecodes: the type of the first operand
    picks the integer or the double versions. *)
Definition EmitBinary6 (nodes : list IRNode) (tb : Tables)
    (oisv oivs oivv odsv odvs odvv : TraceBC.Enum) (node_ref : nat)
    : Selected Tables :=
  bindS (of_option (nodes !! node_ref)) (fun n =>
  bindS (of_option (node nodes (a n))) (fun na =>
    match type na with
    | Type_.Integer => EmitBinary3 nodes tb oisv oivs oivv node_ref
    | Type_.Double => EmitBinary3 nodes tb odsv odvs odvv node_ref
    | _ => Err "unsupported type"
    end)).

(** [EmitUnary] with one bytecode.  Operand [b] of the instruction is
    not written; it is modelled as the immediate 0. *)
Definition EmitUnary1 (nodes : list IRNode) (tb : Tables) (code : TraceBC.Enum)
    (node_ref : nat) : Selected Tables :=
  bindS (of_option (nodes !! node_ref)) (fun n =>
  bindS (of_option (GetOperand nodes tb (a n))) (fun '(oa, a_is_const, a_is_reg) =>
    if a_is_const then Lost
    else
      let fl := Z.lor REG_R (flag_if a_is_reg REG_A) in
      Sel (emit tb node_ref (mkTraceInst code fl NULL oa (Imm 0))))).

(** [EmitUnary] with two bytecodes. *)
Definition EmitUnary2 (nodes : list IRNode) (tb : Tables) (oi od : TraceBC.Enum)
    (node_ref : nat) : Selected Tables :=
  bindS (of_option (nodes !! node_ref)) (fun n =>
    match type n with
    | Type_.Integer => EmitUnary1 nodes tb oi node_ref
    | Type_.Double => EmitUnary1 nodes tb od node_ref
    | _ => Err "unsupported type"
    end).

(** [EmitFold] *)
Definition EmitFold (nodes : list IRNode) (tb : Tables) (oi od : TraceBC.Enum)
    (basei based : Z) (node_ref : nat) : Selected Tables :=
  bindS (of_option (nodes !! node_ref)) (fun n =>
  bindS (of_option (GetOperand nodes tb (a n))) (fun '(oa, a_is_const, a_is_reg) =>
    if a_is_const then Lost
    else
      let fl := Z.lor REG_R (flag_if a_is_reg REG_A) in
      match type n with
      | Type_.Integer =>
          Sel (emit tb node_ref (mkTraceInst oi fl NULL oa (Imm basei)))
      | Type_.Double =>
          Sel (emit tb node_ref (mkTraceInst od fl NULL oa (Imm based)))
      | _ => Err "unsupported type"
      end)).

(** [EmitSpecial] *)
Definition EmitSpecial (nodes : list IRNode) (tb : Tables) (code : TraceBC.Enum)
    (node_ref : nat) : Selected Tables :=
  bindS (of_option (nodes !! node_ref)) (fun n =>
    Sel (emit tb node_ref (mkTraceInst code REG_R NULL (Imm (a n)) (Imm (b n))))).

(** The bytecode of a cast from [src] to [dst]. *)
Definition select_cast (src dst : Type_.Enum) : Selected TraceBC.Enum :=
  match src with
  | Type_.Logical =>
      match dst with
      | Type_.Integer => Sel TraceBC.castl2i
      | Type_.Double => Sel TraceBC.castl2d
      | _ => Err "unexpected type"
      end
  | Type_.Integer =>
      match dst with
      | Type_.Logical => Sel TraceBC.casti2l
      | Type_.Double => Sel TraceBC.casti2d
      | _ => Err "unexpected type"
      end
  | Type_.Double =>
      match dst with
      | Type_.Logical => Sel TraceBC.castd2l
      | Type_.Integer => Sel TraceBC.castd2i
      | _ => Err "unexpected type"
      end
  | _ => Err "unexpected type"
  end.

(** The instruction that [reference_to_instruction[r]] points at,
    rewritten by [f]. *)
Definition update_referenced (tb : Tables) (r : Z) (f : TraceInst -> TraceInst)
    : option (nat * Tables) :=
  k ← (if r <? 0 then None else reference_to_instruction tb !! Z.to_nat r);
  ins ← insts tb !! k;
  Some (k, mkTables (<[k := f ins]> (insts tb)) (reference_to_instruction tb)
                    (incrementing_pointers_8 tb) (incrementing_pointers_1 tb)).

(** The body of the loop of pass 1 for node [k]. *)
Definition select (nodes : list IRNode) (tb : Tables) (k : nat) : Selected Tables :=
  bindS (of_option (nodes !! k)) (fun n =>
    match op n with
    | binary oisv oivs oivv odsv odvs odvv =>
        EmitBinary6 nodes tb oisv oivs oivv odsv odvs odvv k
    | binarym osv ovs ovv => EmitBinary3 nodes tb osv ovs ovv k
    | unary oi od => EmitUnary2 nodes tb oi od k
    | fold oi od basei based => EmitFold nodes tb oi od basei based k
    | lnot => EmitUnary1 nodes tb TraceBC.lnot k
    | cast =>
        bindS (of_option (node nodes (a n))) (fun na =>
        bindS (select_cast (type na) (type n)) (fun code =>
          EmitUnary1 nodes tb code k))
    | seq => EmitSpecial nodes tb TraceBC.seq k
    | loadc => Sel tb
    | loadv => Sel (AddIncrementingPointer tb (type n) (LoadOf k))
    | storev =>
        bindS (of_option
                 (update_referenced tb (a n) (fun ins =>
                    mkTraceInst (bc ins) (Z.land (flags ins) (Z.lnot REG_R))
                                (pointer (dst_p n))
                                (TraceInterpret.a ins) (TraceInterpret.b ins))))
              (fun '(j, tb1) =>
                 Sel (AddIncrementingPointer tb1 (type n) (ResultOf j)))
    | storec =>
        bindS (of_option
                 (update_referenced tb (a n) (fun ins => set_r ins (pointer (dst n)))))
              (fun '(_, tb1) => Sel tb1)
    | other => Err "unsupported op"
    end).

(** [for(IRef i = 0; i < trace->n_nodes; i++)], from node [k] on. *)
Fixpoint selection_loop (nodes : list IRNode) (tb : Tables) (k : nat) (todo : nat)
    : Selected Tables :=
  match todo with
  | O => Sel tb
  | S todo' =>
      bindS (select nodes tb k) (fun tb1 => selection_loop nodes tb1 (S k) todo')
  end.

Definition instruction_selection (nodes : list IRNode) : Selected Tables :=
  selection_loop nodes Tables_init 0 (List.length nodes).

(** The pointer cells of the [loadv] nodes. *)
Definition load_cells (nodes : list IRNode) : gmap nat Ptr :=
  list_to_map
    (omap (fun '(k, n) => match op n with
                          | loadv => Some (k, pointer (p n))
                          | _ => None
                          end)
          (imap (fun k n => (k, n)) nodes)).

(** [TraceInterpret::compile]: pass 1, then pass 2 on its
    instructions. *)
Definition compile (nodes : list IRNode) : Selected State :=
  bindS (instruction_selection nodes) (fun tb =>
    of_option (register_allocation (insts tb) (load_cells nodes))).

End Selection.
(* ===================================================================== *)
(** ** Properties of the allocation pass *)

Module Allocation.
Import TraceInterpret.

(** What pass 1 hands to pass 2: an operand flagged as a register
    points at the result of an earlier instruction
    ([reference_to_instruction] is filled in node order), and no result
    pointer is a register yet (it is null, or an output buffer set by a
    store). *)
Definition operands_precede (prog : list TraceInst) : Prop :=
  forall k ins, prog !! k = Some ins ->
    (has_flag (flags ins) REG_A = true ->
       exists j, a ins = PP (ResultOf j) /\ (j < k)%nat)
    /\ (has_flag (flags ins) REG_B = true ->
          exists j, b ins = PP (ResultOf j) /\ (j < k)%nat).

(** No result pointer is a register before the pass. *)
Definition no_register_yet (prog : list TraceInst) : Prop :=
  forall k ins x, prog !! k = Some ins -> r ins <> Reg x.

(** Register [x] is taken in the bit string [al]. *)
Definition held (al x : Z) : Prop := 0 <= x < 32 /\ Z.testbit al x = false.

(** The instructions below [i] are still to be visited: the registers
    already promised to their results are taken, and no two of them
    share one. *)
Definition pending_ok (i : nat) (st : State) : Prop :=
  (forall k ins x, (k < i)%nat -> insts st !! k = Some ins ->
     r ins = Reg x -> held (free_reg st) x)
  /\ (forall k1 k2 ins1 ins2 x, (k1 < i)%nat -> (k2 < i)%nat ->
        insts st !! k1 = Some ins1 -> insts st !! k2 = Some ins2 ->
        r ins1 = Reg x -> r ins2 = Reg x -> k1 = k2).

(** The register of instruction [k] is promised to no instruction
    below it. *)
Definition result_unshared (k : nat) (st : State) : Prop :=
  forall insk x m insm, insts st !! k = Some insk -> r insk = Reg x ->
    (m < k)%nat -> insts st !! m = Some insm -> r insm <> Reg x.

(** Instruction [k], if a widening cast with a register operand, has
    its operand assigned and away from its result. *)
Definition cast_done (st : State) (k : nat) : Prop :=
  forall ins, insts st !! k = Some ins ->
    is_widening_cast (bc ins) = true -> has_flag (flags ins) REG_A = true ->
    exists j insj, a ins = PP (ResultOf j) /\ (j < k)%nat
      /\ insts st !! j = Some insj /\ r insj <> NULL
      /\ forall x, r ins = Reg x -> r insj <> Reg x.

Definition same_static (i0 i1 : TraceInst) : Prop :=
  bc i1 = bc i0 /\ flags i1 = flags i0 /\ a i1 = a i0 /\ b i1 = b i0.

(** From [st] to [st'] only result pointers changed, and only null
    ones of instructions below [bound], which became registers. *)
Definition frame_step (bound : nat) (st st' : State) : Prop :=
  forall m,
    match insts st !! m, insts st' !! m with
    | Some i0, Some i1 =>
        same_static i0 i1
        /\ (r i0 <> NULL \/ (bound <= m)%nat -> r i1 = r i0)
        /\ (r i1 = r i0 \/ (r i0 = NULL /\ exists x, r i1 = Reg x))
    | None, None => True
    | _, _ => False
    end.

(** Pass 1 leaves a result pointer null when the result lives in a
    register ([REG_R]) and pointing at an output buffer otherwise. *)
Definition results_unassigned (prog : list TraceInst) : Prop :=
  forall k ins, prog !! k = Some ins ->
    if has_flag (flags ins) REG_R then r ins = NULL
    else exists addr, r ins = Mem addr.

(** During pass 2 a register result is null or a register, and a
    stored result still points at its buffer. *)
Definition results_sorted (st : State) : Prop :=
  forall k ins, insts st !! k = Some ins ->
    if has_flag (flags ins) REG_R
    then r ins = NULL \/ exists x, r ins = Reg x
    else exists addr, r ins = Mem addr.

(** Every register taken in the bit string is promised to the result
    of an instruction still to be visited. *)
Definition taken_promised (i : nat) (st : State) : Prop :=
  forall y, 0 <= y < 32 -> Z.testbit (free_reg st) y = false ->
    exists m ins, (m < i)%nat /\ insts st !! m = Some ins /\ r ins = Reg y.

(** What the loop keeps true between two turns. *)
Definition loop_invariant (i : nat) (st : State) : Prop :=
  operands_precede (insts st) /\ pending_ok i st /\ taken_promised i st
  /\ results_sorted st
  /\ (i <= List.length (insts st))%nat /\ (List.length (insts st) <= 32)%nat.

End Allocation.


(* ===================================================================== *)
(** ** Properties of trace nodes *)

Module TraceProps.
Import JIT.

(** Node [n'] is node [n] up to the length references of its shapes:
    the opcode, the operands, the type and the observed lengths are
    those of [n]. *)
Definition same_but_references (n n' : IR) : Prop :=
  op n' = op n /\ a n' = a n /\ b n' = b n /\ c n' = c n /\ type n' = type n
  /\ traceLength (in_ n') = traceLength (in_ n)
  /\ traceLength (out n') = traceLength (out n).

End TraceProps.

Module SelectionProps.
Import TraceInterpret Selection.

(** What holds of the tables between two turns of pass 1: every entry
    of [reference_to_instruction] names an instruction already
    emitted, an operand flagged as a register points at the result of
    an earlier instruction, and no result pointer is a register. *)
Definition selected_ok (tb : Tables) : Prop :=
  (forall r k, reference_to_instruction tb !! r = Some k ->
     (k < List.length (insts tb))%nat)
  /\ Allocation.operands_precede (insts tb)
  /\ Allocation.no_register_yet (insts tb).

(** No node stores a constant, and every stored vector has an output
    buffer. *)
Definition stores_to_buffers (nodes : list IRNode) : Prop :=
  forall k n, nodes !! k = Some n ->
    op n <> storec /\ (op n = storev -> dst_p n <> 0).

(** A result that lives in a register has no pointer yet; a stored
    one points at its buffer. *)
Definition selected_results (tb : Tables) : Prop :=
  (forall r k, reference_to_instruction tb !! r = Some k ->
     (k < List.length (insts tb))%nat)
  /\ Allocation.results_unassigned (insts tb).

(** [tb'] is [tb] with one instruction appended whose result is a
    register still to be assigned, as every emitter leaves it. *)
Definition emits_one (tb tb' : Tables) : Prop :=
  exists node_ref ins,
    tb' = emit tb node_ref ins
    /\ has_flag (flags ins) REG_R = true /\ r ins = NULL.

End SelectionProps.

(* ===================================================================== *)
(** ** The multiway branch (interpreter.cpp) *)

Module Control.
Import Interpreter.

(** Declarations of value.h and of the string table read by
    [branch_op]: the interned empty string, the conversion
    [(int64_t)c.d] of a double kept as bit pattern, and the member [i]
    of the value union read on a logical. *)
Class Conversions := {
  Strings_empty : Z;
  double_to_int64 : Z -> Z;
  logical_as_int64 : Z -> Z
}.

Section WithParams.
Context `{Params} `{Conversions}.

(** The loop of [branch_op] on a character operand [s], about to look
    at entry [i] with [todo] entries left; [index] is the choice so
    far.  [None] is an entry outside the code. *)
Fixpoint branch_search (cd : gmap Z Instruction) (inst s index i : Z) (todo : nat)
    : option Z :=
  match todo with
  | O => Some index
  | S todo' =>
      e ← cd !! (inst + i);
      if a e =? s then Some i
      else
        let index' :=
          if (index <? 0) && (a e =? Strings_empty) then i else index in
        branch_search cd inst s index' (i + 1) todo'
  end.

(** The index computed from the operand. *)
Definition branch_index (th : Thread) (inst : Z) (ins : Instruction) (cv : Value)
    : option Z :=
  match cv with
  | VDouble [d] => Some (double_to_int64 d)
  | VInteger [x] => Some x
  | VLogical [x] => Some (logical_as_int64 x)
  | VCharacter [s] => branch_search (code th) inst s (-1) 1 (Z.to_nat (b ins))
  | _ => Some (-1)
  end.

(** [branch_op] *)
Definition branch_op (th : Thread) (inst : Z) (ins : Instruction) : Result Z :=
  match UNCHECKED_OPERAND th (c ins) with
  | None => Undefined
  | Some cv =>
      match branch_index th inst ins cv with
      | None => Undefined
      | Some index =>
          if (1 <=? index) && (index <=? b ins) then
            match code th !! (inst + index) with
            | Some e => Ok (inst + c e) th
            | None => Undefined
            end
          else
            match CHECK_OPERAND th inst cv (a ins) with
            | Some r => r
            | None => Ok (inst + 1 + b ins) th
            end
      end
  end.

End WithParams.
End Control.
(* ===================================================================== *)
(** ** Instances and inputs used by the examples *)

Module Examples.

(** A recorder configuration: lengths up to 16 are specialized and a
    constant node refers to the constant by its type. *)
Definition jit_params : JIT.Params :=
  {| JIT.SPECIALIZE_LENGTH := 16;
     JIT.makeConstant := fun v =>
       JIT.mkIR TraceOpCode.constant 0 0 0 (Value_type v) JIT.Empty JIT.Scalar |}.

(** A trace that begins, as the sentinels Empty = (0, 0) and
    Scalar = (1, 1) expect, with the constants 0 and 1, and then loads
    two vectors of observed length 200 whose length references are
    nodes 2 and 4. *)
Definition two_loads : list JIT.IR :=
  [ JIT.mkIR TraceOpCode.constant 0 0 0 Type_.Integer JIT.Empty JIT.Scalar;
    JIT.mkIR TraceOpCode.constant 1 0 0 Type_.Integer JIT.Empty JIT.Scalar;
    JIT.mkIR TraceOpCode.slength (-1) 3 0 Type_.Integer JIT.Empty JIT.Scalar;
    JIT.mkIR TraceOpCode.sload (-1) 3 0 Type_.Double JIT.Empty (JIT.mkShape 2 200);
    JIT.mkIR TraceOpCode.slength (-1) 4 0 Type_.Integer JIT.Empty JIT.Scalar;
    JIT.mkIR TraceOpCode.sload (-1) 4 0 Type_.Integer JIT.Empty (JIT.mkShape 4 200) ].

(** A gather from node 6 with the indices of node 5. *)
Definition gather_node : JIT.IR :=
  JIT.mkIR TraceOpCode.gather 6 5 0 Type_.Double (JIT.mkShape 2 200) (JIT.mkShape 2 200).

(** The two loads, followed by a sum computed inside a fusion group
    (node 6) and, as node 7, the gather that reads from that sum. *)
Definition gather_from_group : list JIT.IR :=
  two_loads ++
  [ JIT.mkIR TraceOpCode.add 3 3 0 Type_.Double (JIT.mkShape 2 200) (JIT.mkShape 2 200);
    gather_node ].



(** An interpreter configuration: the JIT is compiled in, tiles are 128
    wide, logical bytes are -1 (true), 0 (false) and 1 (NA), the double
    NA is the NaN with payload 1954, values that refer to no
    environment are closure-safe, and [As<Integer>] keeps integers and
    widens logicals. *)
Definition interp_params : Interpreter.Params :=
  {| Interpreter.ENABLE_JIT := true;
     Interpreter.TRACE_VECTOR_WIDTH := 128;
     Interpreter.Logical_isTrue := fun c => c =? -1;
     Interpreter.Logical_isFalse := fun c => c =? 0;
     Interpreter.Logical_isNA := fun c => c =? 1;
     Interpreter.Double_NAelement := 0x7FF00000000007A2;
     Interpreter.isClosureSafe := fun v =>
       match v with
       | VNull | VLogical _ | VInteger _ | VDouble _ | VCharacter _ => true
       | _ => false
       end;
     Interpreter.externStr := fun n =>
       if n =? 5 then "x"%string else if n =? 6 then "y"%string else "z"%string;
     Interpreter.As_Integer := fun v =>
       match v with
       | VInteger l => l
       | VLogical l => map (fun c => if c =? -1 then 1 else if c =? 0 then 0 else - 2 ^ 63) l
       | _ => []
       end |}.

(** Environment 1 is the global one.  Environment 2 is a callee's
    environment whose caller is 3; it binds x (5) to a promise and y (6)
    to a default argument, both made for environment 2. *)
Definition heap0 : gmap Z Interpreter.Environment :=
  {[ 1 := Interpreter.mkEnvironment ∅ 0 0;
     2 := Interpreter.mkEnvironment
            {[ 5 := VPromise 7 2; 6 := VDefault 8 2 ]} 1 3;
     3 := Interpreter.mkEnvironment ∅ 1 0 ]}.

Definition prototypes0 : gmap Z Interpreter.Prototype :=
  {[ 7 := Interpreter.mkPrototype 2 700;
     8 := Interpreter.mkPrototype 3 800;
     9 := Interpreter.mkPrototype 4 900 ]}.

(** Prototype 9 at 900: a conditional jump on register 0, then done.
    Prototype 7 at 700: return register 0.  At 10: move x into
    register -1, then done. *)
Definition code0 : gmap Z Interpreter.Instruction :=
  {[ 900 := Interpreter.mkInstruction ByteCode.jc 1 2 0;
     901 := Interpreter.mkInstruction ByteCode.done 0 0 0;
     902 := Interpreter.mkInstruction ByteCode.done 0 0 0;
     700 := Interpreter.mkInstruction ByteCode.ret 0 0 0;
     10 := Interpreter.mkInstruction ByteCode.mov 5 0 (-1);
     11 := Interpreter.mkInstruction ByteCode.done 0 0 0;
     50 := Interpreter.mkInstruction ByteCode.done 0 0 0 ]}.

(** A thread running in environment 2 with two saved frames; register
    0 of the current frame (slot 100) holds the integer 200, register
    -1 (slot 101) the integer 1 and register -3 (slot 103) the logical
    NA, as does slot 95 below the base; slot 98 holds the integer 42. *)
Definition caller_frame : Interpreter.StackFrame :=
  Interpreter.mkStackFrame 3 false 9 40 110 0 0 0.

Definition thread0 : Interpreter.Thread :=
  Interpreter.mkThread 100
    {[ 100 := VInteger [200]; 101 := VInteger [1]; 95 := VLogical [1];
       103 := VLogical [1]; 98 := VInteger [42] ]}
    (Interpreter.mkStackFrame 2 true 9 41 104 (-2) 0 0)
    [Interpreter.default_frame; caller_frame]
    [] heap0 prototypes0 code0 true.

End Examples.

(** The trigger condition in the words of the specification: the flag
    is set, every operand is a Double, Integer or Logical, and at least
    one operand is as long as a tile. *)
Definition claimed_trigger `{Interpreter.Params} (th : Interpreter.Thread)
    (operands : list Value) : bool :=
  Interpreter.jitEnabled th
  && forallb (fun v => Interpreter.isRecordableType (Value_type v)) operands
  && existsb (fun v => Interpreter.TRACE_VECTOR_WIDTH <=? Value_length v) operands.

(** The boundary test in the words of the specification: the shape
    differs, or the node is a guard, a load, an sload, or a gather or
    scatter whose base vector (operand [a] of a gather, operand [c] of a
    scatter) is among the members seen in the group. *)
Definition claimed_boundary (g : JIT.Groups) (ir : JIT.IR) : bool :=
  negb (JIT.Shape_eqb (JIT.in_ ir) (JIT.gSize g))
  || JIT.is_opb (JIT.op ir) TraceOpCode.gtrue
  || JIT.is_opb (JIT.op ir) TraceOpCode.gfalse
  || JIT.is_opb (JIT.op ir) TraceOpCode.load
  || JIT.is_opb (JIT.op ir) TraceOpCode.sload
  || (JIT.is_opb (JIT.op ir) TraceOpCode.gather
      && bool_decide (JIT.a ir ∈ JIT.gMembers g))
  || (JIT.is_opb (JIT.op ir) TraceOpCode.scatter
      && bool_decide (JIT.c ir ∈ JIT.gMembers g)).


(** [th'] is [th] after a frame was pushed to evaluate prototype [p] in
    environment [e_eval], to return to [inst] and to leave its result
    in the binding [name] of environment [e_dest]. *)
Definition forcing_frame (th th' : Interpreter.Thread)
    (e_eval p e_dest name inst : Z) (P : Interpreter.Prototype) : Prop :=
  Interpreter.stack th' = Interpreter.stack th ++ [Interpreter.frame th]
  /\ Interpreter.environment (Interpreter.frame th') = e_eval
  /\ Interpreter.ownEnvironment (Interpreter.frame th') = false
  /\ Interpreter.prototype (Interpreter.frame th') = p
  /\ Interpreter.returnpc (Interpreter.frame th') = inst
  /\ Interpreter.returnbase (Interpreter.frame th') = Interpreter.base th
  /\ 0 < Interpreter.i (Interpreter.frame th')
  /\ Interpreter.env (Interpreter.frame th') = e_dest
  /\ Interpreter.s (Interpreter.frame th') = name
  /\ Interpreter.base th' = Interpreter.base th - Interpreter.registers_needed P
  /\ Interpreter.registers th' = Interpreter.registers th
  /\ Interpreter.heap th' = Interpreter.heap th
  /\ Interpreter.environments th' = Interpreter.environments th.

(* ===================================================================== *)
(** ** Further inputs used by the examples *)

Module Scenarios.

(** A register file with 64 registers below the first frame; a name is
    bound in an environment when it has a binding there. *)
Definition layout : Recorder.Layout :=
  {| Recorder.DEFAULT_NUM_REGISTERS := 64;
     Recorder.has := fun E n => bool_decide (is_Some (Interpreter.vars E !! n));
     Recorder.get := fun E n => default VNil (Interpreter.vars E !! n) |}.

(** The recorder after the two loads, with nothing forwarded yet. *)
Definition recorder0 : Recorder.Recorder :=
  Recorder.mkRecorder (JIT.mkState Examples.two_loads ∅) ∅.

(** The two loads followed by the current environment (node 6) and its
    lexical parent (node 7). *)
Definition exit_code : list JIT.IR :=
  Examples.two_loads ++
  [ JIT.mkIR TraceOpCode.curenv 0 0 0 Type_.Environment JIT.Empty JIT.Scalar;
    JIT.mkIR TraceOpCode.lenv 6 0 0 Type_.Environment JIT.Scalar JIT.Scalar ].

(** One frame whose two environments are node 7. *)
Definition exit_frames : list Recorder.StackFrame :=
  [ Recorder.mkStackFrame 7 0 0 0 0 7 ].

(** Stores to a register, to the current environment, to the live
    environment 7, and to node 2, which is no environment of a frame. *)
Definition exit_stores : gmap Recorder.Variable_ JIT.IRRef :=
  {[ (-1, 3) := 3; (6, 9) := 5; (7, 9) := 5; (2, 9) := 3 ]}.

(** A trace for the tile interpreter: a loaded logical vector, its
    negation, the negation cast to double, and the cast stored to the
    buffer at 5000. *)
Definition cast_trace : list Selection.IRNode :=
  [ Selection.mkIRNode Selection.loadv Type_.Logical 0 0 0 1000 0 0;
    Selection.mkIRNode Selection.lnot Type_.Logical 0 0 0 0 0 0;
    Selection.mkIRNode Selection.cast Type_.Double 1 0 0 0 0 0;
    Selection.mkIRNode Selection.storev Type_.Double 2 0 0 0 4000 5000 ].

(** The conversions of the examples, which branch on integers and
    strings only: the empty string is interned as 0. *)
Definition conversions : Control.Conversions :=
  {| Control.Strings_empty := 0;
     Control.double_to_int64 := fun d => d;
     Control.logical_as_int64 := fun c => c |}.

(** A branch at 20 over three entries named 11, the empty string and
    12, which lead to 25, 26 and 27. *)
Definition branch_instruction : Interpreter.Instruction :=
  Interpreter.mkInstruction ByteCode.jmp (-1) 3 (-1).

Definition branch_code : gmap Z Interpreter.Instruction :=
  {[ 21 := Interpreter.mkInstruction ByteCode.jmp 11 0 5;
     22 := Interpreter.mkInstruction ByteCode.jmp 0 0 6;
     23 := Interpreter.mkInstruction ByteCode.jmp 12 0 7 ]}.

(** The thread of the examples with that code; register -1 holds the
    string 13, which names no entry. *)
Definition branch_thread : Interpreter.Thread :=
  Interpreter.mkThread 100 {[ 101 := VCharacter [13] ]}
    (Interpreter.frame Examples.thread0) (Interpreter.stack Examples.thread0)
    [] Examples.heap0 Examples.prototypes0 branch_code true.

(** The thread of the examples with the integer 7 in the slot that
    becomes register 0 of a callee with two registers. *)
Definition eval_thread : Interpreter.Thread :=
  Interpreter.set_registers Examples.thread0
    (<[97 := VInteger [7]]> (Interpreter.registers Examples.thread0)).

End Scenarios.
(* ===================================================================== *)
(** ** Shape merging *)

Section MergeShapes.
Import JIT.

Lemma Shape_eqb_sym (x y : Shape) : Shape_eqb x y = Shape_eqb y x.
Proof. unfold Shape_eqb. apply Z.eqb_sym. Qed.


(** Two shapes with the same length reference are equal for the
    recorder, and the merge returns the first one untouched. *)
Lemma MergeShapes_same_reference (st : State) (x y : Shape) (inst : Z) :
  length x = length y -> MergeShapes st x y inst = (x, st).
Proof.
  intros E. unfold MergeShapes, Shape_eqb. rewrite E, Z.eqb_refl. reflexivity.
Qed.

(** Whatever the arguments, the two orders return shapes with the same
    length reference. *)
Lemma MergeShapes_same_length_reference (st : State) (x y : Shape) (inst : Z) :
  Shape_eqb (fst (MergeShapes st x y inst)) (fst (MergeShapes st y x inst)) = true.
Proof.
  unfold MergeShapes, Shape_eqb.
  rewrite (Z.eqb_sym (length y) (length x)).
  destruct (length x =? length y) eqn:E1.
  - simpl. exact E1.
  - rewrite (orb_comm (length y =? length Empty)).
    destruct ((length x =? length Empty) || (length y =? length Empty)); simpl.
    + reflexivity.
    + rewrite (Z.eqb_sym (traceLength y) (traceLength x)).
      apply Z.eqb_neq in E1.
      destruct (traceLength x =? traceLength y) eqn:E2.
      * destruct (length x <? length y) eqn:L1, (length y <? length x) eqn:L2;
          simpl; try apply Z.eqb_refl; lia.
      * destruct (traceLength x <? traceLength y) eqn:L1,
                 (traceLength y <? traceLength x) eqn:L2;
          simpl; try apply Z.eqb_refl; lia.
Qed.




End MergeShapes.

(* ===================================================================== *)
(** ** Length specialization *)

Section Specialize.
Import JIT.
Context `{P : Params}.

Lemma len_app_one {A} (l : list A) (x : A) : len (l ++ [x]) - 1 = len l.
Proof. unfold len. rewrite length_app. simpl. lia. Qed.

Lemma SpecializeLength_short (st : State) (n irlength inst : Z) :
  n <= SPECIALIZE_LENGTH ->
  SpecializeLength st n irlength inst
  = (mkShape (len (trace st)) n,
     mkState (trace st ++ [makeConstant (VInteger [n])]) (reenters st)).
Proof.
  intros Hn. unfold SpecializeLength, constant.
  destruct (n <=? SPECIALIZE_LENGTH) eqn:E; [| lia].
  simpl. rewrite len_app_one. reflexivity.
Qed.

(** C5 (what the code does for a short length).  At or below the
    threshold SpecializeLength pushes exactly one node, the constant
    holding the observed length, and returns a shape whose length
    reference is that node; it pushes no guard node and records no
    reenter point. *)
Theorem SpecializeLength_short_pushes_constant_only
    (st : State) (n irlength inst : Z) :
  n <= SPECIALIZE_LENGTH ->
  SpecializeLength st n irlength inst
  = (mkShape (len (trace st)) n,
     mkState (trace st ++ [makeConstant (VInteger [n])]) (reenters st))
  /\ trace (snd (SpecializeLength st n irlength inst))
     = trace st ++ [makeConstant (VInteger [n])]
  /\ reenters (snd (SpecializeLength st n irlength inst)) = reenters st.
Proof.
  intros Hn. rewrite SpecializeLength_short by exact Hn.
  repeat split; reflexivity.
Qed.

(** Above the threshold the length stays symbolic: the shape refers to
    the length node it was given and nothing is pushed. *)
Lemma SpecializeLength_long (st : State) (n irlength inst : Z) :
  SPECIALIZE_LENGTH < n ->
  SpecializeLength st n irlength inst = (mkShape irlength n, st).
Proof.
  intros Hn. unfold SpecializeLength.
  destruct (n <=? SPECIALIZE_LENGTH) eqn:E; [lia | reflexivity].
Qed.

(** For a long vector SpecializeValue pushes the length node
    (slength, elength, ...) it was given and the shape refers to it. *)
Lemma SpecializeValue_long_vector (st : State) (v : Value) (ir : IR) (inst : Z) :
  isVector v = true -> SPECIALIZE_LENGTH < Value_length v ->
  SpecializeValue st v ir inst
  = (mkShape (len (trace st)) (Value_length v),
     mkState (trace st ++ [ir]) (reenters st)).
Proof.
  intros Hv Hn. unfold SpecializeValue.
  destruct v; try discriminate Hv; simpl isNull; simpl isVector;
    cbv iota; rewrite SpecializeLength_long by exact Hn;
    simpl; rewrite len_app_one; reflexivity.
Qed.

(** For a short vector it pushes the length node and then the constant:
    two nodes, neither of them a guard, and no reenter point. *)
Lemma SpecializeValue_short_vector (st : State) (v : Value) (ir : IR) (inst : Z) :
  isVector v = true -> Value_length v <= SPECIALIZE_LENGTH ->
  SpecializeValue st v ir inst
  = (mkShape (len (trace st) + 1) (Value_length v),
     mkState (trace st ++ [ir; makeConstant (VInteger [Value_length v])])
             (reenters st)).
Proof.
  intros Hv Hn. unfold SpecializeValue.
  destruct v; try discriminate Hv; simpl isNull; simpl isVector;
    cbv iota; rewrite SpecializeLength_short by exact Hn;
    simpl; rewrite <- app_assoc; simpl;
    unfold len; rewrite length_app; simpl;
    f_equal; f_equal; lia.
Qed.

End Specialize.

(** An instance: observed length 1 with the threshold at 16; the trace
    grows by the constant alone and the reenter map stays empty. *)
Lemma SpecializeLength_short_pushes_constant_only_witness :
  @JIT.SpecializeLength Examples.jit_params (JIT.mkState Examples.two_loads ∅) 1 4 9
  = (JIT.mkShape 6 1,
     JIT.mkState
       (Examples.two_loads ++
        [JIT.mkIR TraceOpCode.constant 0 0 0 Type_.Integer JIT.Empty JIT.Scalar])
       ∅).
Proof.
  apply (@SpecializeLength_short_pushes_constant_only Examples.jit_params).
  simpl. lia.
Defined.

(* ===================================================================== *)
(** ** The scheduler *)

Section Schedule.
Import JIT.

Lemma schedule_step_fusable_other (g : Groups) (k : Z) (ir : IR) (j : nat) :
  0 <= k -> Z.to_nat k <> j ->
  fusable (schedule_step g k ir) !! j = fusable g !! j.
Proof.
  intros Hk Hj. unfold schedule_step.
  destruct (boundary g ir); simpl; [| reflexivity].
  apply list_lookup_insert_ne. exact Hj.
Qed.

Lemma schedule_step_fusable_length (g : Groups) (k : Z) (ir : IR) :
  List.length (fusable (schedule_step g k ir)) = List.length (fusable g).
Proof.
  unfold schedule_step. destruct (boundary g ir); simpl; [| reflexivity].
  apply length_insert.
Qed.

(** The steps for nodes [k], [k+1], ... leave the marks of other
    positions alone. *)
Lemma schedule_loop_fusable_outside (rest : list IR) (g : Groups) (k : Z) (j : nat) :
  0 <= k ->
  (Z.of_nat j < k \/ k + len rest <= Z.of_nat j) ->
  fusable (schedule_loop g k rest) !! j = fusable g !! j.
Proof.
  revert g k. induction rest as [| ir rest IH]; intros g k Hk Hj; simpl.
  - reflexivity.
  - rewrite IH.
    + apply schedule_step_fusable_other; [exact Hk |].
      unfold len in Hj. simpl in Hj. lia.
    + lia.
    + unfold len in *. simpl in Hj. lia.
Qed.

Lemma schedule_loop_fusable_length (rest : list IR) (g : Groups) (k : Z) :
  List.length (fusable (schedule_loop g k rest)) = List.length (fusable g).
Proof.
  revert g k. induction rest as [| ir rest IH]; intros g k; simpl.
  - reflexivity.
  - rewrite IH. apply schedule_step_fusable_length.
Qed.

Lemma schedule_loop_app (l1 l2 : list IR) (g : Groups) (k : Z) :
  schedule_loop g k (l1 ++ l2)
  = schedule_loop (schedule_loop g k l1) (k + len l1) l2.
Proof.
  revert g k. induction l1 as [| ir l1 IH]; intros g k; simpl.
  - f_equal. unfold len. simpl. lia.
  - rewrite IH. f_equal. unfold len. cbn [List.length]. lia.
Qed.

(** What the pass computes: node [i] is marked as a boundary exactly
    when the test of the loop body holds in the state the pass has
    reached at [i]; every other node keeps its initial mark. *)
Lemma schedule_marks (code : list IR) (i : nat) (ir : IR) :
  code !! i = Some ir ->
  schedule code !! i
  = Some (negb (boundary (schedule_before code i) ir)).
Proof.
  intros Hi. unfold schedule, schedule_before.
  pose proof (lookup_lt_Some _ _ _ Hi) as Hlt.
  rewrite <- (take_drop_middle code i ir Hi) at 2.
  rewrite schedule_loop_app. simpl.
  set (g := schedule_loop (schedule_init code) 0 (take i code)).
  assert (Hlen : len (take i code) = Z.of_nat i).
  { unfold len. rewrite length_take. lia. }
  rewrite schedule_loop_fusable_outside by lia.
  assert (Hg : fusable g !! i = Some true).
  { unfold g. rewrite schedule_loop_fusable_outside by lia.
    unfold schedule_init. simpl. apply lookup_replicate_2. exact Hlt. }
  unfold schedule_step. rewrite Hlen, Z.add_0_l, Nat2Z.id.
  destruct (boundary g ir); simpl.
  - apply list_lookup_insert_eq.
    apply lookup_lt_Some in Hg. exact Hg.
  - exact Hg.
Qed.

(** Away from gathers the test of the code is the test the
    specification describes. *)
Lemma boundary_agrees_off_gather (g : Groups) (ir : IR) :
  op ir <> TraceOpCode.gather -> boundary g ir = claimed_boundary g ir.
Proof.
  intros Hop. unfold boundary, claimed_boundary, is_opb.
  rewrite (bool_decide_eq_false_2 _ Hop). simpl.
  destruct (Shape_eqb (in_ ir) (gSize g));
    repeat match goal with
           | |- context [bool_decide ?Q] => destruct (bool_decide Q)
           end; reflexivity.
Qed.

(** C2 (the code at the failing input).  Node 7 gathers from node 6,
    which the pass has already put in the running group, with the same
    input shape; the specification's test makes it a boundary, the test
    of the code (which looks at operand [c] of the gather) does not, and
    the pass leaves node 7 fusable. *)
Theorem schedule_fuses_gather_from_group :
  schedule Examples.gather_from_group
  = [false; true; true; false; true; false; false; true]
  /\ Examples.gather_from_group !! 7%nat = Some Examples.gather_node
  /\ op Examples.gather_node = TraceOpCode.gather
  /\ bool_decide (a Examples.gather_node
                  ∈ gMembers (schedule_before Examples.gather_from_group 7))
     = true
  /\ claimed_boundary (schedule_before Examples.gather_from_group 7)
                      Examples.gather_node = true
  /\ boundary (schedule_before Examples.gather_from_group 7)
              Examples.gather_node = false.
Proof. repeat split; vm_compute; reflexivity. Qed.

End Schedule.

(* ===================================================================== *)
(** ** The JIT trigger *)

Section Trigger.
Import Interpreter.
Context `{P : Params}.

Lemma after_trigger_Recorder (t : Trigger) (p : Path) (inst : Z) :
  (forall k, p <> Recorder k) ->
  after_trigger t p = Recorder inst <-> t = BeginTracing inst.
Proof.
  intros Hp. destruct t; simpl.
  - split; [intros E; exfalso; exact (Hp _ E) | discriminate].
  - split; intros E; injection E as ->; reflexivity.
Qed.

Lemma trace_fires (th : Thread) (inst : Z) (t : Type_.Enum) (n : Z) :
  ENABLE_JIT = true ->
  trace th inst t n = BeginTracing inst
  <-> jitEnabled th = true /\ isRecordableType t = true /\ TRACE_VECTOR_WIDTH <= n.
Proof.
  intros HJ. unfold trace. rewrite HJ. simpl.
  destruct (jitEnabled th), (isRecordableType t), (TRACE_VECTOR_WIDTH <=? n) eqn:E;
    simpl; split; try discriminate; try tauto; try (intros _; repeat split; lia);
    intros (? & ? & ?); try discriminate; lia.
Qed.

Lemma claimed_trigger_one (th : Thread) (x : Value) :
  claimed_trigger th [x] = true
  <-> jitEnabled th = true /\ isRecordableType (Value_type x) = true
      /\ TRACE_VECTOR_WIDTH <= Value_length x.
Proof.
  unfold claimed_trigger. simpl. rewrite !andb_true_r, !orb_false_r.
  rewrite !andb_true_iff, Z.leb_le. tauto.
Qed.

Lemma recordable_concrete (x : Value) :
  isRecordableType (Value_type x) = true ->
  isConcrete x = true /\ isObject x = false.
Proof. destruct x; simpl; try discriminate; auto. Qed.

Lemma is1_length (x : Value) : is1 x = true -> Value_length x = 1.
Proof.
  destruct x as [| | l | l | l | | | | | | |]; try discriminate;
    destruct l as [| ? [| ? ?]]; try discriminate; reflexivity.
Qed.

Lemma CHECK_OPERAND_concrete (th : Thread) (inst : Z) (x : Value) (k : Z) :
  isConcrete x = true -> CHECK_OPERAND th inst x k = None.
Proof. intros E. unfold CHECK_OPERAND. rewrite E, andb_false_r. reflexivity. Qed.

Lemma CHECK_OPERAND_Some (th : Thread) (inst : Z) (x : Value) (k : Z) r :
  CHECK_OPERAND th inst x k = Some r -> isConcrete x = false.
Proof.
  unfold CHECK_OPERAND. destruct (0 <? k), (isConcrete x); simpl; congruence.
Qed.

(** A unary arithmetic handler calls the recorder exactly on the
    claimed condition. *)
Lemma unary_op_trigger (th : Thread) (inst : Z) (ins : Instruction) (x : Value) :
  ENABLE_JIT = true -> 1 < TRACE_VECTOR_WIDTH ->
  UNCHECKED_OPERAND th (a ins) = Some x ->
  unary_op th inst ins = Recorder inst <-> claimed_trigger th [x] = true.
Proof.
  intros HJ HW Hx. unfold unary_op. rewrite Hx, claimed_trigger_one.
  destruct (is1 x) eqn:E1.
  { apply is1_length in E1. split; [discriminate | intros (_ & _ & ?); lia]. }
  destruct (isObject x) eqn:E2.
  { split; [discriminate |].
    intros (_ & Hr & _). apply recordable_concrete in Hr. destruct Hr; congruence. }
  destruct (CHECK_OPERAND th inst x (a ins)) eqn:E3.
  { apply CHECK_OPERAND_Some in E3. split; [discriminate |].
    intros (_ & Hr & _). apply recordable_concrete in Hr. destruct Hr; congruence. }
  rewrite after_trigger_Recorder by discriminate.
  unfold trace1. apply trace_fires. exact HJ.
Qed.

(** So does a binary one. *)
Lemma binary_op_trigger (th : Thread) (inst : Z) (ins : Instruction) (x y : Value) :
  ENABLE_JIT = true -> 1 < TRACE_VECTOR_WIDTH ->
  UNCHECKED_OPERAND th (a ins) = Some x ->
  UNCHECKED_OPERAND th (b ins) = Some y ->
  binary_op th inst ins = Recorder inst <-> claimed_trigger th [x; y] = true.
Proof.
  intros HJ HW Hx Hy. unfold binary_op. rewrite Hx, Hy.
  unfold claimed_trigger. simpl. rewrite !andb_true_r, !orb_false_r.
  destruct (is1 x && is1 y) eqn:E1.
  { apply andb_true_iff in E1. destruct E1 as [Ex Ey].
    apply is1_length in Ex, Ey. rewrite Ex, Ey.
    destruct (TRACE_VECTOR_WIDTH <=? 1) eqn:E; [lia |].
    rewrite andb_false_r. split; discriminate. }
  destruct (isRecordableType (Value_type x)) eqn:Rx.
  2:{ rewrite andb_false_r. simpl.
      destruct (CHECK_OPERAND th inst x (a ins)); [split; discriminate |].
      destruct (CHECK_OPERAND th inst y (b ins)); [split; discriminate |].
      destruct (isObject x || isObject y); [split; discriminate |].
      unfold trace2. rewrite Rx, andb_false_r. simpl. rewrite andb_false_r.
      simpl. split; discriminate. }
  destruct (isRecordableType (Value_type y)) eqn:Ry.
  2:{ rewrite andb_false_r. simpl.
      destruct (CHECK_OPERAND th inst x (a ins)); [split; discriminate |].
      destruct (CHECK_OPERAND th inst y (b ins)); [split; discriminate |].
      destruct (isObject x || isObject y); [split; discriminate |].
      unfold trace2. rewrite Ry, andb_false_r. simpl. rewrite andb_false_r.
      simpl. split; discriminate. }
  destruct (recordable_concrete x Rx) as [Cx Ox].
  destruct (recordable_concrete y Ry) as [Cy Oy].
  rewrite !CHECK_OPERAND_concrete by assumption. rewrite Ox, Oy. simpl.
  unfold trace2. rewrite HJ, Rx, Ry. simpl. rewrite !andb_true_r.
  destruct (jitEnabled th); simpl; [| split; discriminate].
  destruct ((TRACE_VECTOR_WIDTH <=? Value_length x)
            || (TRACE_VECTOR_WIDTH <=? Value_length y)); simpl;
    split; try discriminate; reflexivity.
Qed.

(** [ifelse] asks the trigger about the one operand it fetches. *)
Lemma ifelse_op_trigger (th : Thread) (inst : Z) (ins : Instruction) (x : Value) :
  ENABLE_JIT = true ->
  OPERAND th inst (a ins) = Fetched x ->
  ifelse_op th inst ins = Recorder inst <-> claimed_trigger th [x] = true.
Proof.
  intros HJ Hx. unfold ifelse_op. rewrite Hx, claimed_trigger_one.
  rewrite after_trigger_Recorder by discriminate.
  unfold trace1. apply trace_fires. exact HJ.
Qed.

Lemma split_op_trigger (th : Thread) (inst : Z) (ins : Instruction) (x : Value) :
  ENABLE_JIT = true ->
  OPERAND th inst (c ins) = Fetched x ->
  split_op th inst ins = Recorder inst <-> claimed_trigger th [x] = true.
Proof.
  intros HJ Hx. unfold split_op. rewrite Hx, claimed_trigger_one.
  rewrite after_trigger_Recorder by discriminate.
  unfold trace1. apply trace_fires. exact HJ.
Qed.

(** [seq] asks it about the length of the sequence to build. *)
Lemma seq_op_trigger (th : Thread) (inst : Z) (ins : Instruction)
    (Len Step : Value) (n k : Z) (ns ks : list Z) :
  ENABLE_JIT = true ->
  OPERAND th inst (a ins) = Fetched Len ->
  OPERAND th inst (b ins) = Fetched Step ->
  As_Integer Len = n :: ns -> As_Integer Step = k :: ks ->
  seq_op th inst ins = Recorder inst
  <-> jitEnabled th = true /\ TRACE_VECTOR_WIDTH <= n.
Proof.
  intros HJ HL HS En Ek. unfold seq_op. rewrite HL, HS, En, Ek.
  rewrite after_trigger_Recorder by discriminate.
  rewrite trace_fires by exact HJ. simpl. tauto.
Qed.

(** C6 (as amended).  In a build with the JIT and tiles wider than one
    element: a unary or binary arithmetic handler calls the recorder
    exactly when the flag is set, every operand is a Double, Integer or
    Logical and some operand is at least a tile long; [ifelse] and
    [split] decide the same way on the single operand they fetch; [seq]
    calls it exactly when the flag is set and the requested length is at
    least a tile, whatever the types and lengths of its operands. *)
Theorem trigger_hands_over (th : Thread) (inst : Z) (ins : Instruction) :
  ENABLE_JIT = true -> 1 < TRACE_VECTOR_WIDTH ->
  (forall x, UNCHECKED_OPERAND th (a ins) = Some x ->
     unary_op th inst ins = Recorder inst <-> claimed_trigger th [x] = true)
  /\ (forall x y, UNCHECKED_OPERAND th (a ins) = Some x ->
        UNCHECKED_OPERAND th (b ins) = Some y ->
        binary_op th inst ins = Recorder inst <-> claimed_trigger th [x; y] = true)
  /\ (forall x, OPERAND th inst (a ins) = Fetched x ->
        ifelse_op th inst ins = Recorder inst <-> claimed_trigger th [x] = true)
  /\ (forall x, OPERAND th inst (c ins) = Fetched x ->
        split_op th inst ins = Recorder inst <-> claimed_trigger th [x] = true)
  /\ (forall Len Step n k ns ks,
        OPERAND th inst (a ins) = Fetched Len ->
        OPERAND th inst (b ins) = Fetched Step ->
        As_Integer Len = n :: ns -> As_Integer Step = k :: ks ->
        seq_op th inst ins = Recorder inst
        <-> jitEnabled th = true /\ TRACE_VECTOR_WIDTH <= n).
Proof.
  intros HJ HW. repeat split.
  - apply unary_op_trigger; assumption.
  - apply unary_op_trigger; assumption.
  - apply binary_op_trigger; assumption.
  - apply binary_op_trigger; assumption.
  - apply ifelse_op_trigger; assumption.
  - apply ifelse_op_trigger; assumption.
  - apply split_op_trigger; assumption.
  - apply split_op_trigger; assumption.
  - apply (seq_op_trigger th inst ins Len Step n k ns ks); assumption.
  - apply (seq_op_trigger th inst ins Len Step n k ns ks); assumption.
  - apply (seq_op_trigger th inst ins Len Step n k ns ks); assumption.
Qed.

End Trigger.

(** An instance: a [seq] of the 200 held in register 0 by 1 is handed to
    the recorder. *)
Lemma trigger_hands_over_witness :
  @Interpreter.seq_op Examples.interp_params Examples.thread0 10
     (Interpreter.mkInstruction ByteCode.seq 0 (-1) (-2))
  = Interpreter.Recorder 10.
Proof.
  pose proof (@trigger_hands_over Examples.interp_params Examples.thread0 10
                (Interpreter.mkInstruction ByteCode.seq 0 (-1) (-2))
                eq_refl eq_refl) as (_ & _ & _ & _ & Hseq).
  apply (Hseq (VInteger [200]) (VInteger [1]) 200 1 [] []);
    try reflexivity.
  split; [reflexivity | simpl; lia].
Defined.

(** C6 (as stated) fails at [seq]: both operands are integers of length
    one, so no operand is as long as a tile, and the recorder is called
    all the same because the requested length is 200. *)
Lemma seq_trigger_ignores_operand_lengths :
  @Interpreter.OPERAND Examples.interp_params Examples.thread0 10 0
    = Interpreter.Fetched (VInteger [200])
  /\ @Interpreter.OPERAND Examples.interp_params Examples.thread0 10 (-1)
    = Interpreter.Fetched (VInteger [1])
  /\ @Interpreter.seq_op Examples.interp_params Examples.thread0 10
       (Interpreter.mkInstruction ByteCode.seq 0 (-1) (-2))
     = Interpreter.Recorder 10
  /\ @claimed_trigger Examples.interp_params Examples.thread0
       [VInteger [200]; VInteger [1]] = false.
Proof. repeat split; vm_compute; reflexivity. Qed.

(* ===================================================================== *)
(** ** Operand fetch *)

Section OperandFetch.
Import Interpreter.
Context `{P : Params}.

Lemma buildStackFrame_named_pushes (th : Thread) (e_eval p e_dest name inst : Z)
    (Pr : Prototype) :
  0 < name -> prototypes th !! p = Some Pr ->
  exists th',
    buildStackFrame_named th e_eval false p e_dest name inst = Ok (entry Pr) th'
    /\ forcing_frame th th' e_eval p e_dest name inst Pr.
Proof.
  intros Hn HP. unfold buildStackFrame_named, buildStackFrame_common.
  rewrite HP. eexists. split; [reflexivity |].
  unfold forcing_frame. simpl. repeat split; try reflexivity. exact Hn.
Qed.

(** C7.  Fetching a named operand whose binding is a Promise pushes a
    frame that evaluates the thunk in the dynamic scope of the
    promise's environment; for a Default the frame evaluates it in the
    Default's own (the callee's) environment; either frame returns to
    the instruction being run and leaves its result in the binding.
    Fetching a Nil binding raises "Object ... not found". *)
Theorem OPERAND_forces_named_binding (th : Thread) (inst name : Z) (v : Value) :
  0 < name ->
  getRecursive th (environment (frame th)) name = Some v ->
  (forall p e E Pr, v = VPromise p e ->
     heap th !! e = Some E -> prototypes th !! p = Some Pr ->
     exists th', OPERAND th inst name = Return (Ok (entry Pr) th')
                 /\ forcing_frame th th' (dynamic E) p e name inst Pr)
  /\ (forall p e Pr, v = VDefault p e ->
        prototypes th !! p = Some Pr ->
        exists th', OPERAND th inst name = Return (Ok (entry Pr) th')
                    /\ forcing_frame th th' e p e name inst Pr)
  /\ (v = VNil ->
        OPERAND th inst name
        = Return (Error ("Object '" ++ externStr name ++ "' not found") th)).
Proof.
  intros Hn Hv. unfold OPERAND.
  destruct (name <=? 0) eqn:E0; [lia |]. rewrite Hv.
  split; [| split].
  - intros p e E Pr -> HE HP. simpl. rewrite HE.
    destruct (buildStackFrame_named_pushes th (dynamic E) p e name inst Pr Hn HP)
      as (th' & Hb & Hf).
    exists th'. rewrite Hb. split; [reflexivity | exact Hf].
  - intros p e Pr -> HP. simpl.
    destruct (buildStackFrame_named_pushes th e p e name inst Pr Hn HP)
      as (th' & Hb & Hf).
    exists th'. rewrite Hb. split; [reflexivity | exact Hf].
  - intros ->. reflexivity.
Qed.

(** A register operand, and a named one with a concrete binding, is
    fetched without any frame. *)
Lemma OPERAND_register (th : Thread) (inst k : Z) :
  k <= 0 -> OPERAND th inst k = Fetched (REGISTER th k).
Proof. intros Hk. unfold OPERAND. destruct (k <=? 0) eqn:E; [reflexivity | lia]. Qed.

Lemma OPERAND_concrete (th : Thread) (inst name : Z) (v : Value) :
  0 < name -> getRecursive th (environment (frame th)) name = Some v ->
  isConcrete v = true -> OPERAND th inst name = Fetched v.
Proof.
  intros Hn Hv Hc. unfold OPERAND.
  destruct (name <=? 0) eqn:E; [lia |]. rewrite Hv, Hc. reflexivity.
Qed.

End OperandFetch.

(** An instance: in environment 2 the name x is bound to a promise of
    prototype 7 made for environment 2, whose caller is environment 3;
    fetching x at instruction 10 enters prototype 7 at 700 with a frame
    that evaluates in environment 3. *)
Lemma OPERAND_forces_named_binding_witness :
  exists th',
    @Interpreter.OPERAND Examples.interp_params Examples.thread0 10 5
    = Interpreter.Return (Interpreter.Ok 700 th')
    /\ forcing_frame Examples.thread0 th' 3 7 2 5 10 (Interpreter.mkPrototype 2 700).
Proof.
  destruct (@OPERAND_forces_named_binding Examples.interp_params
              Examples.thread0 10 5 (VPromise 7 2))
    as (Hp & _ & _).
  - lia.
  - vm_compute. reflexivity.
  - apply (Hp 7 2 (Interpreter.mkEnvironment
                     {[ 5 := VPromise 7 2; 6 := VDefault 8 2 ]} 1 3)
              (Interpreter.mkPrototype 2 700));
      [reflexivity | vm_compute; reflexivity | vm_compute; reflexivity].
Defined.

(** The whole round on the example: the move of x at 10 finds the
    promise, the thunk at 700 returns the 42 of its register 0 into the
    binding, the move is run again and now copies the value. *)
Lemma promise_forced_and_instruction_rerun :
  exists th',
    @Interpreter.interpret Examples.interp_params 4 Examples.thread0 10
    = Interpreter.Ok tt th'
    /\ Interpreter.REGISTER th' (-1) = VInteger [42]
    /\ Interpreter.getRecursive th' 2 5 = Some (VInteger [42])
    /\ Interpreter.frame th' = Interpreter.frame Examples.thread0
    /\ Interpreter.stack th' = Interpreter.stack Examples.thread0.
Proof.
  destruct (@Interpreter.interpret Examples.interp_params 4 Examples.thread0 10)
    as [u th' | |] eqn:Hrun; vm_compute in Hrun; try discriminate Hrun.
  injection Hrun as <- <-. eexists. split; [reflexivity |].
  repeat split; vm_compute; reflexivity.
Qed.

(* ===================================================================== *)
(** ** Return *)

Section Return.
Import Interpreter.
Context `{P : Params}.

Lemma pop_snoc (th : Thread) (rest : list StackFrame) (f : StackFrame) :
  stack th = rest ++ [f] ->
  pop th = Some (set_frame (set_stack th rest) f).
Proof.
  intros E. unfold pop. rewrite E, last_snoc, removelast_last. reflexivity.
Qed.

(** C8.  With the result fetched, [ret] pops the frame (the saved frame
    on top of the stack becomes current), restores the saved base,
    writes the result into the register slot counted from the restored
    base when the destination index is non-positive and into the
    binding of the destination environment otherwise, and appends the
    frame's environment to the free list exactly when the frame owns it
    and the result is closure-safe; control goes to the saved return
    address. *)
Theorem ret_op_tears_down_frame (th : Thread) (inst : Z) (ins : Instruction)
    (result : Value) (rest : list StackFrame) (caller : StackFrame) :
  OPERAND th inst (a ins) = Fetched result ->
  stack th = rest ++ [caller] ->
  (0 < i (frame th) -> is_Some (heap th !! env (frame th))) ->
  exists th',
    ret_op th inst ins = Ok (returnpc (frame th)) th'
    /\ frame th' = caller
    /\ stack th' = rest
    /\ base th' = returnbase (frame th)
    /\ environments th'
       = (if ownEnvironment (frame th) && isClosureSafe result
          then environments th ++ [environment (frame th)]
          else environments th)
    /\ (i (frame th) <= 0 ->
          registers th'
          = <[returnbase (frame th) - i (frame th) := result]> (registers th)
          /\ heap th' = heap th)
    /\ (0 < i (frame th) ->
          registers th' = registers th
          /\ exists E, heap th !! env (frame th) = Some E
             /\ heap th'
                = <[env (frame th) :=
                      mkEnvironment (<[s (frame th) := result]> (vars E))
                                    (lexical E) (dynamic E)]> (heap th)).
Proof.
  intros Hop Hst Henv. unfold ret_op. rewrite Hop.
  set (th1 := if ownEnvironment (frame th) && isClosureSafe result
              then set_environments th (environments th ++ [environment (frame th)])
              else th).
  assert (Hf : frame th1 = frame th) by (unfold th1; destruct (_ && _); reflexivity).
  assert (Hs : stack th1 = stack th) by (unfold th1; destruct (_ && _); reflexivity).
  assert (Hr : registers th1 = registers th) by (unfold th1; destruct (_ && _); reflexivity).
  assert (Hh : heap th1 = heap th) by (unfold th1; destruct (_ && _); reflexivity).
  assert (He : environments th1
               = if ownEnvironment (frame th) && isClosureSafe result
                 then environments th ++ [environment (frame th)]
                 else environments th)
    by (unfold th1; destruct (_ && _); reflexivity).
  clearbody th1. cbn zeta. simpl frame. rewrite Hf.
  destruct (i (frame th) <=? 0) eqn:Ei.
  - apply Z.leb_le in Ei.
    erewrite pop_snoc by (simpl; rewrite Hs; exact Hst).
    simpl. rewrite Hf. eexists. split; [reflexivity |].
    unfold set_frame, set_stack, set_REGISTER, set_registers, set_base. simpl.
    rewrite Hr, Hh, He. repeat split; try reflexivity; try lia.
  - apply Z.leb_gt in Ei. destruct (Henv Ei) as [E HE].
    unfold env_insert. simpl heap. rewrite Hh, HE.
    erewrite pop_snoc by (simpl; rewrite Hs; exact Hst).
    simpl. rewrite Hf. eexists. split; [reflexivity |].
    unfold set_frame, set_stack, set_heap, set_base. simpl.
    rewrite ?Hr, ?Hh, ?He. repeat split; try reflexivity; try lia.
    exists E. split; reflexivity.
Qed.

End Return.

(** An instance: the frame of thread0 owns environment 2 and returns the
    integer 200 into register -2 of its caller, whose base is 104. *)
Lemma ret_op_tears_down_frame_witness :
  exists th',
    @Interpreter.ret_op Examples.interp_params Examples.thread0 10
       (Interpreter.mkInstruction ByteCode.ret 0 0 0)
    = Interpreter.Ok 41 th'
    /\ Interpreter.frame th' = Examples.caller_frame
    /\ Interpreter.stack th' = [Interpreter.default_frame]
    /\ Interpreter.base th' = 104
    /\ Interpreter.environments th' = [2]
    /\ Interpreter.registers th' !! 106 = Some (VInteger [200]).
Proof.
  destruct (@ret_op_tears_down_frame Examples.interp_params Examples.thread0 10
              (Interpreter.mkInstruction ByteCode.ret 0 0 0)
              (VInteger [200]) [Interpreter.default_frame] Examples.caller_frame)
    as (th' & Hret & Hf & Hs & Hb & He & Hreg & _).
  - reflexivity.
  - reflexivity.
  - simpl. lia.
  - exists th'. repeat split; try assumption.
    destruct Hreg as [Hreg _]; [simpl; lia |].
    rewrite Hreg. reflexivity.
Defined.

(* ===================================================================== *)
(** ** Conditional jump *)

Section ConditionalJump.
Import Interpreter.
Context `{P : Params}.


End ConditionalJump.


(* ===================================================================== *)
(** ** Unwinding at eval *)

Section Eval.
Import Interpreter.

Lemma length_resize (st : list StackFrame) (n : Z) :
  0 <= n -> len (resize st n) = n.
Proof.
  intros Hn. unfold len, resize.
  rewrite length_app, length_take, length_replicate. lia.
Qed.

Lemma resize_truncates (st : list StackFrame) (n : Z) :
  0 <= n <= len st -> resize st n = take (Z.to_nat n) st.
Proof.
  intros Hn. unfold resize, len in *.
  replace (Z.to_nat n - List.length st)%nat with 0%nat by lia.
  simpl. apply app_nil_r.
Qed.

(** C9.  When the interpreter run inside [eval] raises, [eval] raises
    the same error in a thread whose base pointer is the one on entry
    and whose frame stack has the height it had on entry (the stack at
    the throw cut back to that height). *)
Theorem eval_unwinds_to_entry (run : Thread -> Z -> Result unit) (th : Thread)
    (prototype_ environment_ done pc : Z) (th4 th5 : Thread) (msg : string) :
  buildStackFrame (eval_result_frame th) environment_ false prototype_ 0 done
  = Ok pc th4 ->
  run th4 pc = Error msg th5 ->
  exists th',
    eval run th prototype_ environment_ done = Error msg th'
    /\ base th' = base th
    /\ len (stack th') = len (stack th)
    /\ stack th' = resize (stack th5) (len (stack th)).
Proof.
  intros Hb Hrun. unfold eval. rewrite Hb, Hrun.
  eexists. split; [reflexivity |]. simpl.
  split; [reflexivity |]. split; [| reflexivity].
  apply length_resize. unfold len. lia.
Qed.

End Eval.

(** An instance: [eval] of prototype 9 in environment 2 runs the
    conditional jump at 900 on a register holding the logical NA; the
    error leaves the base at 100 and two frames on the stack, as on
    entry. *)
Lemma eval_unwinds_to_entry_witness :
  exists th',
    Interpreter.eval
       (@Interpreter.interpret Examples.interp_params 10) Examples.thread0 9 2 50
    = Interpreter.Error "NA where TRUE/FALSE needed" th'
    /\ Interpreter.base th' = 100
    /\ len (Interpreter.stack th') = 2.
Proof.
  destruct (Interpreter.buildStackFrame
              (Interpreter.eval_result_frame Examples.thread0) 2 false 9 0 50)
    as [pc th4 | |] eqn:Hb; try (vm_compute in Hb; discriminate Hb).
  destruct (@Interpreter.interpret Examples.interp_params 10 th4 pc)
    as [| msg th5 |] eqn:Hrun.
  - vm_compute in Hb. injection Hb as <- <-. vm_compute in Hrun. discriminate Hrun.
  - destruct (eval_unwinds_to_entry
                (@Interpreter.interpret Examples.interp_params 10)
                Examples.thread0 9 2 50 pc th4 th5 msg Hb Hrun)
      as (th' & He & Hbase & Hlen & _).
    exists th'. split; [| split; assumption].
    rewrite He. f_equal.
    vm_compute in Hb. injection Hb as <- <-.
    vm_compute in Hrun. injection Hrun as <- _. reflexivity.
  - vm_compute in Hb. injection Hb as <- <-. vm_compute in Hrun. discriminate Hrun.
Defined.

(* ===================================================================== *)
(** ** Register allocation *)

Section Allocator.
Import TraceInterpret.

Lemma ffs_from_spec (n : nat) (k x : Z) :
  0 <= k ->
  ffs_from n k x = 0
  \/ (k < ffs_from n k x <= k + Z.of_nat n
      /\ Z.testbit x (ffs_from n k x - 1) = true).
Proof.
  revert k. induction n as [| n IH]; intros k Hk; simpl.
  - left. reflexivity.
  - destruct (Z.testbit x k) eqn:E.
    + right. split; [lia |]. replace (k + 1 - 1) with k by lia. exact E.
    + destruct (IH (k + 1)) as [H0 | [Hr Hb]]; [lia | left; exact H0 |].
      right. split; [lia | exact Hb].
Qed.

Lemma testbit_wrap32 (x y : Z) :
  0 <= y < 32 -> Z.testbit (wrap32 x) y = Z.testbit x y.
Proof. intros Hy. unfold wrap32. apply Z.mod_pow2_bits_low. lia. Qed.

Lemma testbit_one_shifted (x y : Z) :
  0 <= x -> 0 <= y -> Z.testbit (Z.shiftl 1 x) y = (y =? x).
Proof.
  intros Hx Hy. rewrite Z.shiftl_1_l, Z.pow2_bits_eqb by lia. apply Z.eqb_sym.
Qed.

(** [allocate] hands out a register whose bit was set and clears that
    bit only. *)
Lemma allocate_spec (al x al' : Z) :
  allocate al = Some (x, al') ->
  0 <= x < 32 /\ Z.testbit al x = true
  /\ forall y, 0 <= y < 32 -> Z.testbit al' y = Z.testbit al y && negb (y =? x).
Proof.
  unfold allocate. destruct (ffs al - 1 <? 0) eqn:E; [discriminate |].
  intros H. injection H as <- <-. apply Z.ltb_ge in E.
  destruct (ffs_from_spec 32 0 al) as [H0 | [Hr Hb]]; [lia | unfold ffs in E; lia |].
  fold (ffs al) in Hr, Hb.
  split; [lia |]. split; [exact Hb |].
  intros y Hy. rewrite testbit_wrap32 by exact Hy.
  rewrite Z.land_spec, Z.lnot_spec by lia.
  rewrite testbit_one_shifted by lia. reflexivity.
Qed.

(** [free] sets the bit of the register and no other. *)
Lemma free_spec (al x al' : Z) :
  free al x = Some al' ->
  0 <= x < 32
  /\ forall y, 0 <= y < 32 -> Z.testbit al' y = Z.testbit al y || (y =? x).
Proof.
  unfold free. destruct ((0 <=? x) && (x <? 32)) eqn:E; [| discriminate].
  intros H. injection H as <-.
  apply andb_true_iff in E. destruct E as [E1 E2].
  apply Z.leb_le in E1. apply Z.ltb_lt in E2.
  split; [lia |]. intros y Hy. rewrite testbit_wrap32 by exact Hy.
  rewrite Z.lor_spec, testbit_one_shifted by lia. reflexivity.
Qed.

End Allocator.

Section AllocationPass.
Import TraceInterpret Allocation.

Lemma set_r_set_r (ins : TraceInst) (p q : Ptr) : set_r (set_r ins p) q = set_r ins q.
Proof. reflexivity. Qed.

Lemma frame_step_refl (bound : nat) (st : State) : frame_step bound st st.
Proof.
  intros m. destruct (insts st !! m); [| exact Logic.I].
  split; [repeat split | split; [reflexivity | left; reflexivity]].
Qed.



Lemma operands_precede_frame (bound : nat) (st st' : State) :
  frame_step bound st st' ->
  operands_precede (insts st) -> operands_precede (insts st').
Proof.
  intros Hf Hw k ins' Hk. specialize (Hf k). rewrite Hk in Hf.
  destruct (insts st !! k) as [ins |] eqn:E; [| contradiction].
  destruct Hf as [(Hb & Hfl & Ha & Hbb) _].
  rewrite Hfl, Ha, Hbb. exact (Hw k ins E).
Qed.

(** Writing the result pointer of instruction [j]. *)
Lemma write_result (st : State) (j : nat) (p : Ptr) (st' : State) :
  write_cell st (ResultOf j) p = Some st' ->
  exists insj, insts st !! j = Some insj
    /\ st' = mkState (<[j := set_r insj p]> (insts st)) (loads st) (free_reg st).
Proof.
  simpl. destruct (insts st !! j) as [insj |]; [| discriminate].
  intros H. injection H as <-. exists insj. split; reflexivity.
Qed.

Lemma lookup_written (l : list TraceInst) (j m : nat) (insj new : TraceInst) :
  l !! j = Some insj ->
  <[j := new]> l !! m = if decide (m = j) then Some new else l !! m.
Proof.
  intros Hj. destruct (decide (m = j)) as [-> | Hne].
  - apply list_lookup_insert_eq. apply lookup_lt_Some in Hj. exact Hj.
  - apply list_lookup_insert_ne. congruence.
Qed.

(** Promising a free register [z] to the null result of a pending
    instruction [j] keeps the pending instructions in order. *)
Lemma assign_fresh (k j : nat) (st : State) (insj : TraceInst) (z al' : Z) :
  pending_ok k st ->
  insts st !! j = Some insj -> r insj = NULL -> (j < k)%nat ->
  0 <= z < 32 -> Z.testbit (free_reg st) z = true ->
  (forall y, 0 <= y < 32 ->
     Z.testbit al' y = Z.testbit (free_reg st) y && negb (y =? z)) ->
  let st' := mkState (<[j := set_r insj (Reg z)]> (insts st)) (loads st) al' in
  pending_ok k st' /\ frame_step k st st'.
Proof.
  intros [Hheld Hinj] Hj Hnull Hjk Hz Hfree Hal st'. split; [split |].
  - intros m ins x Hm Hlook Hr. unfold st' in Hlook. simpl in Hlook |- *.
    rewrite (lookup_written _ _ _ insj _ Hj) in Hlook.
    destruct (decide (m = j)) as [-> | Hne].
    + injection Hlook as <-. simpl in Hr. injection Hr as <-.
      split; [exact Hz |]. rewrite Hal by exact Hz.
      rewrite Z.eqb_refl. apply andb_false_r.
    + destruct (Hheld m ins x Hm Hlook Hr) as [Hx Hbit].
      split; [exact Hx |]. rewrite Hal by exact Hx. rewrite Hbit. reflexivity.
  - intros m1 m2 i1 i2 x Hm1 Hm2 H1 H2 Hr1 Hr2. unfold st' in H1, H2.
    simpl in H1, H2. rewrite (lookup_written _ _ _ insj _ Hj) in H1.
    rewrite (lookup_written _ _ _ insj _ Hj) in H2.
    destruct (decide (m1 = j)) as [-> | N1], (decide (m2 = j)) as [-> | N2].
    + reflexivity.
    + injection H1 as <-. simpl in Hr1. injection Hr1 as <-.
      destruct (Hheld m2 i2 z Hm2 H2 Hr2) as [_ Hbit]. congruence.
    + injection H2 as <-. simpl in Hr2. injection Hr2 as <-.
      destruct (Hheld m1 i1 z Hm1 H1 Hr1) as [_ Hbit]. congruence.
    + exact (Hinj m1 m2 i1 i2 x Hm1 Hm2 H1 H2 Hr1 Hr2).
  - intros m. unfold st'. simpl. rewrite (lookup_written _ _ _ insj _ Hj).
    destruct (decide (m = j)) as [-> | Hne].
    + rewrite Hj. split; [repeat split |]. split.
      * intros [Hc | Hc]; [congruence | lia].
      * right. split; [exact Hnull |]. exists z. reflexivity.
    + destruct (insts st !! m); [| exact Logic.I].
      split; [repeat split | split; [reflexivity | left; reflexivity]].
Qed.

Lemma pending_ok_weaken (k : nat) (st : State) :
  pending_ok (S k) st -> pending_ok k st.
Proof.
  intros [Hheld Hinj]. split.
  - intros m ins x Hm. apply Hheld. lia.
  - intros m1 m2 i1 i2 x Hm1 Hm2. apply Hinj; lia.
Qed.

Lemma pending_result_unshared (k : nat) (st : State) :
  pending_ok (S k) st -> result_unshared k st.
Proof.
  intros [_ Hinj] insk x m insm Hk Hr Hm Hlook Hrm.
  assert (k = m) by (apply (Hinj k m insk insm x); auto; lia). lia.
Qed.

(** The [REG_R] part: afterwards the pending instructions are those
    below [k], and the register of [k] (taken from the free ones or
    released just now) belongs to none of them. *)
Lemma step_R_spec (k : nat) (st st1 : State) :
  step_R k st = Some st1 -> pending_ok (S k) st ->
  frame_step (S k) st st1 /\ pending_ok k st1 /\ result_unshared k st1.
Proof.
  unfold step_R. intros Hstep Hpend.
  destruct (insts st !! k) as [ins |] eqn:Hk; simpl in Hstep; [| discriminate].
  destruct (has_flag (flags ins) REG_R).
  2:{ injection Hstep as <-. split; [apply frame_step_refl |].
      split; [apply pending_ok_weaken; exact Hpend
             | apply pending_result_unshared; exact Hpend]. }
  destruct (bool_decide (r ins = NULL)) eqn:Hnull.
  - apply bool_decide_eq_true in Hnull.
    destruct (allocate (free_reg st)) as [[x al1] |] eqn:Hal;
      simpl in Hstep; [| discriminate].
    rewrite Hk in Hstep. simpl in Hstep.
    rewrite list_lookup_insert_eq in Hstep
      by (apply lookup_lt_Some in Hk; exact Hk).
    simpl in Hstep.
    destruct (free al1 x) as [al2 |] eqn:Hfr; simpl in Hstep; [| discriminate].
    injection Hstep as <-.
    apply allocate_spec in Hal. destruct Hal as (Hx & Hbit & Hal).
    apply free_spec in Hfr. destruct Hfr as (_ & Hfr).
    destruct Hpend as [Hheld Hinj].
    assert (Hlook : forall m, (m < k)%nat ->
              <[k := set_r ins (Reg x)]> (insts st) !! m = insts st !! m).
    { intros m Hm. apply list_lookup_insert_ne. lia. }
    split; [| split; [split |]].
    + intros m. simpl. rewrite (lookup_written _ _ _ ins _ Hk).
      destruct (decide (m = k)) as [-> | Hne].
      * rewrite Hk. split; [repeat split |]. split.
        -- intros [Hc | Hc]; [congruence | lia].
        -- right. split; [exact Hnull |]. exists x. reflexivity.
      * destruct (insts st !! m); [| exact Logic.I].
        split; [repeat split | split; [reflexivity | left; reflexivity]].
    + intros m insm y Hm Hl Hr. simpl in Hl |- *. rewrite Hlook in Hl by exact Hm.
      destruct (Hheld m insm y ltac:(lia) Hl Hr) as [Hy Hby].
      split; [exact Hy |]. rewrite Hfr, Hal by exact Hy. rewrite Hby. simpl.
      apply Z.eqb_neq. intros ->. congruence.
    + intros m1 m2 i1 i2 y Hm1 Hm2 H1 H2. simpl in H1, H2.
      rewrite Hlook in H1 by exact Hm1. rewrite Hlook in H2 by exact Hm2.
      apply Hinj; try assumption; lia.
    + intros insk y m insm Hlk Hr Hm Hlm Hrm. simpl in Hlk, Hlm.
      rewrite list_lookup_insert_eq in Hlk
        by (apply lookup_lt_Some in Hk; exact Hk).
      injection Hlk as <-. simpl in Hr. injection Hr as <-.
      rewrite Hlook in Hlm by exact Hm.
      destruct (Hheld m insm x ltac:(lia) Hlm Hrm) as [_ Hbx]. congruence.
  - apply bool_decide_eq_false in Hnull. simpl in Hstep.
    rewrite Hk in Hstep. simpl in Hstep.
    destruct (r ins) as [| x | addr] eqn:Hr; simpl in Hstep;
      try discriminate.
    destruct (free (free_reg st) x) as [al2 |] eqn:Hfr; simpl in Hstep;
      [| discriminate].
    injection Hstep as <-.
    apply free_spec in Hfr. destruct Hfr as (Hx & Hfr).
    pose proof Hpend as [Hheld Hinj].
    split; [exact (frame_step_refl (S k) st) |]. split; [split |].
    + intros m insm y Hm Hl Hry. simpl in Hl |- *.
      destruct (Hheld m insm y ltac:(lia) Hl Hry) as [Hy Hby].
      split; [exact Hy |]. rewrite Hfr by exact Hy. rewrite Hby. simpl.
      apply Z.eqb_neq. intros ->.
      assert (m = k) by (apply (Hinj m k insm ins x); auto; lia). lia.
    + intros m1 m2 i1 i2 y Hm1 Hm2 H1 H2. simpl in H1, H2.
      apply Hinj; try assumption; lia.
    + exact (pending_result_unshared k st Hpend).
Qed.

(** The [REG_B] part. *)
Lemma step_B_spec (k : nat) (st st1 : State) :
  step_B k st = Some st1 ->
  operands_precede (insts st) -> pending_ok k st ->
  frame_step k st st1 /\ pending_ok k st1.
Proof.
  unfold step_B. intros Hstep Hwf Hpend.
  destruct (insts st !! k) as [ins |] eqn:Hk; simpl in Hstep; [| discriminate].
  destruct (has_flag (flags ins) REG_B) eqn:Hfl.
  2:{ injection Hstep as <-. split; [apply frame_step_refl | exact Hpend]. }
  destruct (Hwf k ins Hk) as [_ Hb]. destruct (Hb Hfl) as (j & Hbj & Hjk).
  rewrite Hbj in Hstep. simpl in Hstep.
  destruct (insts st !! j) as [insj |] eqn:Hj; simpl in Hstep; [| discriminate].
  destruct (bool_decide (r insj = NULL)) eqn:Hnull.
  2:{ injection Hstep as <-. split; [apply frame_step_refl | exact Hpend]. }
  apply bool_decide_eq_true in Hnull.
  destruct (allocate (free_reg st)) as [[z al1] |] eqn:Hal;
    simpl in Hstep; [| discriminate].
  injection Hstep as <-.
  apply allocate_spec in Hal. destruct Hal as (Hz & Hbit & Hal).
  destruct (assign_fresh k j st insj z al1 Hpend Hj Hnull Hjk Hz Hbit Hal)
    as [Hp Hf].
  split; [exact Hf | exact Hp].
Qed.

(** The [REG_A] part: the pending instructions stay in order and the
    widening cast at [k] ends with its operand away from its result. *)
Lemma step_A_spec (k : nat) (st st1 : State) :
  step_A k st = Some st1 ->
  operands_precede (insts st) -> pending_ok k st -> result_unshared k st ->
  frame_step k st st1 /\ pending_ok k st1 /\ cast_done st1 k.
Proof.
  unfold step_A. intros Hstep Hwf Hpend Hun.
  destruct (insts st !! k) as [ins |] eqn:Hk; simpl in Hstep; [| discriminate].
  destruct (has_flag (flags ins) REG_A) eqn:Hfl.
  2:{ injection Hstep as <-. split; [apply frame_step_refl |].
      split; [exact Hpend |]. intros ins' Hk'. rewrite Hk in Hk'.
      injection Hk' as <-. intros _ Hfl'. congruence. }
  destruct (Hwf k ins Hk) as [Ha _]. destruct (Ha Hfl) as (j & Haj & Hjk).
  rewrite Haj in Hstep. simpl in Hstep.
  destruct (insts st !! j) as [insj |] eqn:Hj; simpl in Hstep; [| discriminate].
  destruct (bool_decide (r insj = NULL)) eqn:Hnull.
  2:{ injection Hstep as <-. apply bool_decide_eq_false in Hnull.
      split; [apply frame_step_refl |]. split; [exact Hpend |].
      intros ins' Hk'. rewrite Hk in Hk'. injection Hk' as <-. intros _ _.
      exists j, insj. repeat split; try assumption.
      intros x Hr. exact (Hun ins x j insj Hk Hr Hjk Hj). }
  apply bool_decide_eq_true in Hnull.
  destruct (allocate (free_reg st)) as [[z al1] |] eqn:Hal;
    simpl in Hstep; [| discriminate].
  assert (Hjlt : (j < List.length (insts st))%nat)
    by (apply lookup_lt_Some in Hj; exact Hj).
  rewrite (list_lookup_insert_ne _ j k) in Hstep by lia.
  rewrite Hk in Hstep. simpl in Hstep.
  rewrite list_lookup_insert_eq in Hstep by exact Hjlt. simpl in Hstep.
  apply allocate_spec in Hal. destruct Hal as (Hz & Hbit & Hal).
  destruct (is_widening_cast (bc ins) && bool_decide (r ins = Reg z)) eqn:Hcol.
  - apply andb_true_iff in Hcol. destruct Hcol as [Hw Hrz].
    apply bool_decide_eq_true in Hrz.
    destruct (allocate al1) as [[z2 al2] |] eqn:Hal2;
      simpl in Hstep; [| discriminate].
    destruct (free al2 z) as [al3 |] eqn:Hfr; simpl in Hstep; [| discriminate].
    injection Hstep as <-. unfold set_free_reg. simpl.
    rewrite list_insert_insert_eq, set_r_set_r.
    apply allocate_spec in Hal2. destruct Hal2 as (Hz2 & Hbit2 & Hal2).
    apply free_spec in Hfr. destruct Hfr as (_ & Hfr).
    rewrite Hal in Hbit2 by exact Hz2.
    apply andb_true_iff in Hbit2. destruct Hbit2 as [Hb2 Hne].
    apply negb_true_iff, Z.eqb_neq in Hne.
    assert (Hal3 : forall y, 0 <= y < 32 ->
              Z.testbit al3 y = Z.testbit (free_reg st) y && negb (y =? z2)).
    { intros y Hy. rewrite Hfr, Hal2, Hal by exact Hy.
      destruct (y =? z) eqn:Eyz.
      - apply Z.eqb_eq in Eyz. subst y. rewrite Hbit.
        destruct (z =? z2) eqn:E; [apply Z.eqb_eq in E; lia | reflexivity].
      - rewrite orb_false_r, andb_true_r. reflexivity. }
    destruct (assign_fresh k j st insj z2 al3 Hpend Hj Hnull Hjk Hz2 Hb2 Hal3)
      as [Hp Hf].
    split; [exact Hf |]. split; [exact Hp |].
    intros ins' Hk'. simpl in Hk'.
    rewrite list_lookup_insert_ne in Hk' by lia. rewrite Hk in Hk'.
    injection Hk' as <-. intros _ _.
    exists j, (set_r insj (Reg z2)). simpl.
    rewrite list_lookup_insert_eq by exact Hjlt.
    repeat split; try assumption; try discriminate.
    intros x Hr. rewrite Hrz in Hr. injection Hr as <-. congruence.
  - injection Hstep as <-.
    destruct (assign_fresh k j st insj z al1 Hpend Hj Hnull Hjk Hz Hbit Hal)
      as [Hp Hf].
    split; [exact Hf |]. split; [exact Hp |].
    intros ins' Hk'. simpl in Hk'.
    rewrite list_lookup_insert_ne in Hk' by lia. rewrite Hk in Hk'.
    injection Hk' as <-. intros Hw _. rewrite Hw in Hcol. simpl in Hcol.
    apply bool_decide_eq_false in Hcol.
    exists j, (set_r insj (Reg z)). simpl.
    rewrite list_lookup_insert_eq by exact Hjlt.
    repeat split; try assumption; try discriminate.
    intros x Hr Hx. injection Hx as <-. exact (Hcol Hr).
Qed.





End AllocationPass.


(* ===================================================================== *)
(** ** The allocation pass is defined when registers suffice *)

Section AllocationDefined.
Import TraceInterpret Allocation.

Lemma ffs_from_zero (n : nat) (k x : Z) :
  0 <= k -> ffs_from n k x = 0 ->
  forall j, k <= j < k + Z.of_nat n -> Z.testbit x j = false.
Proof.
  revert k. induction n as [| n IH]; intros k Hk H0 j Hj; simpl in *.
  - lia.
  - destruct (Z.testbit x k) eqn:E; [lia |].
    destruct (decide (j = k)) as [-> | Hne]; [exact E |].
    apply (IH (k + 1)); [lia | exact H0 | lia].
Qed.

Lemma allocate_defined (al : Z) :
  (exists y, 0 <= y < 32 /\ Z.testbit al y = true) ->
  exists z al', allocate al = Some (z, al').
Proof.
  intros (y & Hy & Hb). unfold allocate.
  destruct (ffs al - 1 <? 0) eqn:E; [| eexists; eexists; reflexivity].
  apply Z.ltb_lt in E.
  destruct (ffs_from_spec 32 0 al) as [H0 | [Hr _]]; [lia | | unfold ffs in E; lia].
  rewrite (ffs_from_zero 32 0 al) in Hb; [discriminate | lia | exact H0 | lia].
Qed.

(** Pigeonhole: [n] values each held by an index below [i], no index
    holding two of them, need [n <= i]. *)
Lemma promised_bound (i : nat) (P : nat -> nat -> Prop) :
  (forall m y1 y2, P m y1 -> P m y2 -> y1 = y2) ->
  forall n, (forall y, (y < n)%nat -> exists m, (m < i)%nat /\ P m y) ->
  (n <= i)%nat.
Proof.
  intros Hfun n Hall.
  assert (Hl : exists l : list nat,
             List.length l = n /\ List.NoDup l
             /\ forall m, List.In m l -> (m < i)%nat /\ exists y, (y < n)%nat /\ P m y).
  { clear -Hfun Hall. induction n as [| n IH].
    - exists []. split; [reflexivity |]. split; [constructor |].
      intros m [].
    - destruct IH as (l & Hlen & Hnd & Hin).
      { intros y Hy. apply Hall. lia. }
      destruct (Hall n ltac:(lia)) as (m & Hm & HP).
      exists (m :: l). split; [simpl; lia |]. split.
      + constructor; [| exact Hnd]. intros Hc.
        destruct (Hin m Hc) as (_ & y & Hy & HPy).
        pose proof (Hfun m n y HP HPy). lia.
      + intros m' [<- | Hm'].
        * split; [exact Hm |]. exists n. split; [lia | exact HP].
        * destruct (Hin m' Hm') as (Hlt & y & Hy & HPy).
          split; [exact Hlt |]. exists y. split; [lia | exact HPy]. }
  destruct Hl as (l & Hlen & Hnd & Hin).
  assert (Hle : (List.length l <= List.length (seq 0 i))%nat).
  { apply List.NoDup_incl_length; [exact Hnd |].
    intros m Hm. apply in_seq. destruct (Hin m Hm) as [Hlt _]. lia. }
  rewrite length_seq in Hle. lia.
Qed.

(** With fewer than 32 instructions to visit, a register is free. *)
Lemma allocate_succeeds (i : nat) (st : State) :
  taken_promised i st -> (i < 32)%nat ->
  exists z al', allocate (free_reg st) = Some (z, al').
Proof.
  intros Htp Hi. apply allocate_defined.
  destruct (ffs_from_spec 32 0 (free_reg st)) as [H0 | [Hr Hb]]; [lia | |].
  - exfalso.
    assert (32 <= i)%nat; [| lia].
    apply (promised_bound i
             (fun m y => exists ins, insts st !! m = Some ins
                                     /\ r ins = Reg (Z.of_nat y))).
    + intros m y1 y2 (i1 & H1 & R1) (i2 & H2 & R2).
      rewrite H1 in H2. injection H2 as <-. rewrite R1 in R2.
      injection R2 as R2. lia.
    + intros y Hy.
      destruct (Htp (Z.of_nat y)) as (m & ins & Hm & Hl & Hreg); [lia | |].
      * apply (ffs_from_zero 32 0); [lia | exact H0 | lia].
      * exists m. split; [exact Hm |]. exists ins. split; assumption.
  - exists (ffs_from 32 0 (free_reg st) - 1). split; [lia | exact Hb].
Qed.

Lemma results_sorted_frame (bound : nat) (st st' : State) :
  frame_step bound st st' -> results_sorted st -> results_sorted st'.
Proof.
  intros Hf Hs k ins' Hk. specialize (Hf k). rewrite Hk in Hf.
  destruct (insts st !! k) as [ins |] eqn:E; [| contradiction].
  destruct Hf as [(_ & Hfl & _ & _) [_ Hc]]. rewrite Hfl.
  specialize (Hs k ins E).
  destruct (has_flag (flags ins) REG_R).
  - destruct Hc as [-> | (_ & x & ->)]; [exact Hs | right; exists x; reflexivity].
  - destruct Hs as [addr Ha].
    destruct Hc as [-> | (N & _)]; [exists addr; exact Ha | congruence].
Qed.

(** Promising a free register keeps every taken register promised. *)
Lemma assign_fresh_promised (k j : nat) (st : State) (insj : TraceInst) (z al' : Z) :
  taken_promised k st ->
  insts st !! j = Some insj -> r insj = NULL -> (j < k)%nat ->
  (forall y, 0 <= y < 32 ->
     Z.testbit al' y = Z.testbit (free_reg st) y && negb (y =? z)) ->
  taken_promised k
    (mkState (<[j := set_r insj (Reg z)]> (insts st)) (loads st) al').
Proof.
  intros Htp Hj Hnull Hjk Hal y Hy Hb. simpl in Hb |- *.
  rewrite Hal in Hb by exact Hy.
  destruct (decide (y = z)) as [-> | Hne].
  - exists j, (set_r insj (Reg z)). split; [exact Hjk |].
    split; [| reflexivity].
    apply list_lookup_insert_eq. apply lookup_lt_Some in Hj. exact Hj.
  - assert (Hclear : Z.testbit (free_reg st) y = false).
    { destruct (Z.testbit (free_reg st) y); [| reflexivity].
      simpl in Hb. apply negb_false_iff, Z.eqb_eq in Hb. contradiction. }
    destruct (Htp y Hy Hclear) as (m & ins & Hm & Hl & Hr).
    exists m, ins. split; [exact Hm |]. split; [| exact Hr].
    rewrite list_lookup_insert_ne; [exact Hl |].
    intros <-. rewrite Hj in Hl. injection Hl as <-. congruence.
Qed.

Lemma step_R_defined (k : nat) (st : State) :
  pending_ok (S k) st -> taken_promised (S k) st -> results_sorted st ->
  (k < List.length (insts st))%nat -> (k < 32)%nat ->
  exists st1, step_R k st = Some st1 /\ taken_promised k st1.
Proof.
  intros [Hheld Hinj] Htp Hs Hk Hk32. unfold step_R.
  destruct (lookup_lt_is_Some_2 _ _ Hk) as [ins Hins]. rewrite Hins. simpl.
  pose proof (Hs k ins Hins) as Hsk.
  destruct (has_flag (flags ins) REG_R).
  2:{ exists st. split; [reflexivity |]. intros y Hy Hb.
      destruct (Htp y Hy Hb) as (m & insm & Hm & Hl & Hr).
      exists m, insm. split; [| split; assumption].
      destruct (decide (m = k)) as [-> | Hne]; [| lia].
      rewrite Hins in Hl. injection Hl as <-.
      destruct Hsk as [addr Ha]. congruence. }
  destruct (bool_decide (r ins = NULL)) eqn:Hnull.
  - apply bool_decide_eq_true in Hnull.
    assert (Htp' : taken_promised k st).
    { intros y Hy Hb. destruct (Htp y Hy Hb) as (m & insm & Hm & Hl & Hr).
      exists m, insm. split; [| split; assumption].
      destruct (decide (m = k)) as [-> | Hne]; [| lia].
      rewrite Hins in Hl. injection Hl as <-. congruence. }
    destruct (allocate_succeeds k st Htp' Hk32) as (x & al1 & Hal).
    rewrite Hal. simpl. rewrite Hins. simpl.
    rewrite list_lookup_insert_eq by exact Hk. simpl.
    apply allocate_spec in Hal. destruct Hal as (Hx & Hbit & Hal).
    destruct (free al1 x) as [al2 |] eqn:Hfr.
    2:{ unfold free in Hfr.
        destruct ((0 <=? x) && (x <? 32)) eqn:E; [discriminate | lia]. }
    simpl. eexists. split; [reflexivity |].
    apply free_spec in Hfr. destruct Hfr as (_ & Hfr).
    intros y Hy Hb. simpl in Hb |- *. rewrite Hfr, Hal in Hb by exact Hy.
    apply orb_false_iff in Hb. destruct Hb as [Hb Hyx].
    rewrite Hyx in Hb. simpl in Hb. rewrite andb_true_r in Hb.
    destruct (Htp' y Hy Hb) as (m & insm & Hm & Hl & Hr).
    exists m, insm. split; [exact Hm |]. split; [| exact Hr].
    rewrite list_lookup_insert_ne by lia. exact Hl.
  - apply bool_decide_eq_false in Hnull. simpl. rewrite Hins. simpl.
    destruct Hsk as [Hc | [x Hx]]; [contradiction |]. rewrite Hx. simpl.
    destruct (Hheld k ins x ltac:(lia) Hins Hx) as [Hrange Hbx].
    destruct (free (free_reg st) x) as [al2 |] eqn:Hfr.
    2:{ unfold free in Hfr.
        destruct ((0 <=? x) && (x <? 32)) eqn:E; [discriminate | lia]. }
    simpl. eexists. split; [reflexivity |].
    apply free_spec in Hfr. destruct Hfr as (_ & Hfr).
    intros y Hy Hb. simpl in Hb |- *. rewrite Hfr in Hb by exact Hy.
    apply orb_false_iff in Hb. destruct Hb as [Hb Hyx].
    apply Z.eqb_neq in Hyx.
    destruct (Htp y Hy Hb) as (m & insm & Hm & Hl & Hr).
    exists m, insm. split; [| split; assumption].
    destruct (decide (m = k)) as [-> | Hne]; [| lia].
    rewrite Hins in Hl. injection Hl as <-. congruence.
Qed.

Lemma free_defined (al x : Z) : 0 <= x < 32 -> exists al', free al x = Some al'.
Proof.
  intros Hx. unfold free.
  destruct ((0 <=? x) && (x <? 32)) eqn:E; [eexists; reflexivity | lia].
Qed.

Lemma step_B_defined (k : nat) (st : State) :
  operands_precede (insts st) -> taken_promised k st ->
  (k < List.length (insts st))%nat -> (k < 32)%nat ->
  exists st1, step_B k st = Some st1 /\ taken_promised k st1.
Proof.
  intros Hwf Htp Hk Hk32. unfold step_B.
  destruct (lookup_lt_is_Some_2 _ _ Hk) as [ins Hins]. rewrite Hins. simpl.
  destruct (has_flag (flags ins) REG_B) eqn:Hfl;
    [| exists st; split; [reflexivity | exact Htp]].
  destruct (Hwf k ins Hins) as [_ Hb]. destruct (Hb Hfl) as (j & Hbj & Hjk).
  rewrite Hbj. simpl.
  destruct (lookup_lt_is_Some_2 (insts st) j ltac:(lia)) as [insj Hj].
  rewrite Hj. simpl.
  destruct (bool_decide (r insj = NULL)) eqn:Hnull;
    [| exists st; split; [reflexivity | exact Htp]].
  apply bool_decide_eq_true in Hnull.
  destruct (allocate_succeeds k st Htp Hk32) as (z & al1 & Hal).
  rewrite Hal. simpl. rewrite ?Hj. eexists. split; [reflexivity |].
  apply allocate_spec in Hal. destruct Hal as (_ & _ & Hal).
  exact (assign_fresh_promised k j st insj z al1 Htp Hj Hnull Hjk Hal).
Qed.

Lemma step_A_defined (k : nat) (st : State) :
  operands_precede (insts st) -> taken_promised k st ->
  (k < List.length (insts st))%nat -> (k < 32)%nat ->
  exists st1, step_A k st = Some st1 /\ taken_promised k st1.
Proof.
  intros Hwf Htp Hk Hk32. unfold step_A.
  destruct (lookup_lt_is_Some_2 _ _ Hk) as [ins Hins]. rewrite Hins. simpl.
  destruct (has_flag (flags ins) REG_A) eqn:Hfl;
    [| exists st; split; [reflexivity | exact Htp]].
  destruct (Hwf k ins Hins) as [Ha _]. destruct (Ha Hfl) as (j & Haj & Hjk).
  rewrite Haj. simpl.
  assert (Hjlt : (j < List.length (insts st))%nat) by lia.
  destruct (lookup_lt_is_Some_2 (insts st) j Hjlt) as [insj Hj].
  rewrite Hj. simpl.
  destruct (bool_decide (r insj = NULL)) eqn:Hnull;
    [| exists st; split; [reflexivity | exact Htp]].
  apply bool_decide_eq_true in Hnull.
  destruct (allocate_succeeds k st Htp Hk32) as (z & al1 & Hal).
  rewrite Hal. simpl. rewrite ?Hj. simpl.
  rewrite (list_lookup_insert_ne _ j k) by lia. rewrite Hins. simpl.
  rewrite ?list_lookup_insert_eq by exact Hjlt. simpl.
  apply allocate_spec in Hal. destruct Hal as (Hz & Hbit & Hal).
  pose proof (assign_fresh_promised k j st insj z al1 Htp Hj Hnull Hjk Hal) as Htw.
  destruct (is_widening_cast (bc ins) && bool_decide (r ins = Reg z));
    [| eexists; split; [reflexivity | exact Htw]].
  destruct (allocate_succeeds k _ Htw Hk32) as (z2 & al2 & Hal2).
  simpl in Hal2. rewrite Hal2. simpl.
  rewrite ?list_lookup_insert_eq by exact Hjlt. simpl.
  destruct (free_defined al2 z Hz) as [al3 Hfr]. rewrite Hfr. simpl.
  eexists. split; [reflexivity |].
  unfold set_free_reg. simpl. rewrite list_insert_insert_eq, set_r_set_r.
  apply allocate_spec in Hal2. destruct Hal2 as (Hz2 & Hbit2 & Hal2).
  apply free_spec in Hfr. destruct Hfr as (_ & Hfr).
  rewrite Hal in Hbit2 by exact Hz2.
  apply andb_true_iff in Hbit2. destruct Hbit2 as [Hb2 Hne].
  apply negb_true_iff, Z.eqb_neq in Hne.
  apply (assign_fresh_promised k j st insj z2 al3 Htp Hj Hnull Hjk).
  intros y Hy. rewrite Hfr, Hal2, Hal by exact Hy.
  destruct (y =? z) eqn:Eyz.
  - apply Z.eqb_eq in Eyz. subst y. rewrite Hbit.
    destruct (z =? z2) eqn:E; [apply Z.eqb_eq in E; lia | reflexivity].
  - rewrite orb_false_r, andb_true_r. reflexivity.
Qed.

Lemma frame_step_length (bound : nat) (st st' : State) :
  frame_step bound st st' ->
  List.length (insts st') = List.length (insts st).
Proof.
  intros Hf.
  destruct (Nat.lt_trichotomy (List.length (insts st')) (List.length (insts st)))
    as [Hlt | [Heq | Hgt]]; [exfalso | exact Heq | exfalso].
  - specialize (Hf (List.length (insts st'))).
    destruct (lookup_lt_is_Some_2 _ _ Hlt) as [ins Hins]. rewrite Hins in Hf.
    rewrite (lookup_ge_None_2 (insts st')) in Hf by lia. exact Hf.
  - specialize (Hf (List.length (insts st))).
    destruct (lookup_lt_is_Some_2 _ _ Hgt) as [ins Hins]. rewrite Hins in Hf.
    rewrite (lookup_ge_None_2 (insts st)) in Hf by lia. exact Hf.
Qed.

Lemma step_defined (k : nat) (st : State) :
  loop_invariant (S k) st ->
  exists st1, step k st = Some st1 /\ loop_invariant k st1.
Proof.
  intros (Hwf & Hpend & Htp & Hs & Hk & H32). unfold step.
  destruct (step_R_defined k st Hpend Htp Hs ltac:(lia) ltac:(lia))
    as (sa & HR & TR).
  rewrite HR. simpl.
  destruct (step_R_spec k st sa HR Hpend) as (FR & PR & UR).
  pose proof (operands_precede_frame _ _ _ FR Hwf) as Hwa.
  pose proof (frame_step_length _ _ _ FR) as La.
  destruct (step_A_defined k sa Hwa TR ltac:(lia) ltac:(lia)) as (sb & HA & TA).
  rewrite HA. simpl.
  destruct (step_A_spec k sa sb HA Hwa PR UR) as (FA & PA & _).
  pose proof (operands_precede_frame _ _ _ FA Hwa) as Hwb.
  pose proof (frame_step_length _ _ _ FA) as Lb.
  destruct (step_B_defined k sb Hwb TA ltac:(lia) ltac:(lia)) as (sc & HB & TB).
  exists sc. split; [exact HB |].
  destruct (step_B_spec k sb sc HB Hwb PA) as (FB & PB).
  pose proof (frame_step_length _ _ _ FB) as Lc.
  split; [exact (operands_precede_frame _ _ _ FB Hwb) |].
  split; [exact PB |]. split; [exact TB |]. split; [| split; lia].
  apply (results_sorted_frame _ _ _ FB), (results_sorted_frame _ _ _ FA),
    (results_sorted_frame _ _ _ FR). exact Hs.
Qed.

Lemma allocation_loop_defined (i : nat) :
  forall st, loop_invariant i st -> exists st', allocation_loop i st = Some st'.
Proof.
  induction i as [| k IH]; intros st Hinv; simpl.
  - exists st. reflexivity.
  - destruct (step_defined k st Hinv) as (st1 & Hs & Hinv1).
    rewrite Hs. simpl. exact (IH st1 Hinv1).
Qed.

(** The pass runs to its end on a program as pass 1 builds it, as long
    as it has at most 32 instructions: the bit string then never runs
    out of registers. *)
Lemma register_allocation_defined (prog : list TraceInst) (ld : gmap nat Ptr) :
  operands_precede prog -> results_unassigned prog ->
  (List.length prog <= 32)%nat ->
  exists st', register_allocation prog ld = Some st'.
Proof.
  intros Hwf Hun Hlen. unfold register_allocation.
  apply allocation_loop_defined.
  assert (Hno : forall k ins x, prog !! k = Some ins -> r ins <> Reg x).
  { intros k ins x Hk Hr. specialize (Hun k ins Hk).
    destruct (has_flag (flags ins) REG_R); [congruence |].
    destruct Hun as [addr Ha]. congruence. }
  split; [exact Hwf |]. split; [split |]; [| | split; [| split; [| simpl; lia]]].
  - intros k ins x _ Hk Hr. exfalso. exact (Hno k ins x Hk Hr).
  - intros k1 k2 i1 i2 x _ _ H1 _ Hr _. exfalso. exact (Hno k1 i1 x H1 Hr).
  - intros y Hy Hb. exfalso. simpl in Hb.
    change Allocator_init with (Z.ones 32) in Hb.
    rewrite Z.ones_spec_low in Hb by lia. discriminate Hb.
  - intros k ins Hk. specialize (Hun k ins Hk).
    destruct (has_flag (flags ins) REG_R); [left; exact Hun | exact Hun].
Qed.

End AllocationDefined.

(* ===================================================================== *)
(** ** The emitters: casts, recycling and typed operations *)

Section Emitters.
Import JIT Emit.
Context `{P : Params}.

Lemma insertS_eq (st : State) o x y z ty i o' :
  insertS st o x y z ty i o'
  = (len (trace st),
     mkState (trace st ++ [mkIR o x y z ty i o']) (reenters st)).
Proof.
  unfold insertS, insert. rewrite len_app_one. reflexivity.
Qed.

Lemma constant_eq (st : State) (v : Value) :
  constant st v
  = (len (trace st), mkState (trace st ++ [makeConstant v]) (reenters st)).
Proof. unfold constant. cbn zeta. rewrite len_app_one. reflexivity. Qed.

Lemma node_kept (st st' : State) (a : IRRef) (n : IR) :
  trace st `prefix_of` trace st' -> node st a = Some n -> node st' a = Some n.
Proof.
  unfold node. intros Hp. destruct (a <? 0); [discriminate |].
  intros Hn. exact (prefix_lookup_Some _ _ _ _ Hn Hp).
Qed.

Lemma node_pushed (t : list IR) (n : IR) (re : gmap Z Reenter) :
  node (mkState (t ++ [n]) re) (len t) = Some n.
Proof.
  unfold node, len.
  destruct (Z.of_nat (List.length t) <? 0) eqn:E; [apply Z.ltb_lt in E; lia |].
  simpl. rewrite Nat2Z.id. apply list_lookup_middle. reflexivity.
Qed.

Lemma cast_spec (st st' : State) (a r : IRRef) (ty : Type_.Enum) (n : IR) :
  node st a = Some n -> cast st a ty = Done r st' ->
  trace st `prefix_of` trace st' /\ reenters st' = reenters st
  /\ exists n', node st' r = Some n' /\ type n' = ty /\ out n' = out n.
Proof.
  intros Hn. unfold cast. rewrite Hn.
  destruct (bool_decide (type n = ty)) eqn:E.
  - apply bool_decide_eq_true in E. intros H. injection H as <- <-.
    split; [reflexivity |]. split; [reflexivity |]. exists n. auto.
  - destruct ty; try discriminate; rewrite insertS_eq; intros H;
      injection H as <- <-; simpl;
      (split; [apply prefix_app_r; reflexivity |]); (split; [reflexivity |]);
      eexists; (split; [apply node_pushed |]); split; reflexivity.
Qed.

Lemma rep_spec (st st' : State) (a r : IRRef) (target : Shape) (n : IR) :
  node st a = Some n -> rep st a target = Done r st' ->
  trace st `prefix_of` trace st' /\ reenters st' = reenters st
  /\ exists n', node st' r = Some n' /\ type n' = type n
                /\ Shape_eqb (out n') target = true.
Proof.
  intros Hn. unfold rep. rewrite Hn.
  destruct (Shape_eqb (out n) target) eqn:E; cbn [negb].
  - intros H. injection H as <- <-.
    split; [reflexivity |]. split; [reflexivity |]. exists n. auto.
  - rewrite constant_eq. cbn beta iota zeta. rewrite node_pushed, insertS_eq.
    cbn beta iota zeta.
    erewrite node_kept; [| | exact Hn].
    2:{ cbn [trace]. rewrite <- app_assoc. apply prefix_app_r. reflexivity. }
    rewrite insertS_eq. intros H. injection H as <- <-. cbn [trace reenters].
    split; [rewrite <- !app_assoc; apply prefix_app_r; reflexivity |].
    split; [reflexivity |].
    eexists. split; [apply node_pushed |]. cbn [type out].
    split; [reflexivity | apply Z.eqb_refl].
Qed.

(** X1.  [cast] on a node of the trace never leaves the trace vector.
    When it succeeds the node it returns has the requested type and the
    shape of the original, the older nodes and the reenter records are
    untouched, a node of the right type is returned as it is, and
    casting the result again returns it without a new node.  It fails,
    with "Unexpected cast", only for a different type that is not
    Double, Integer, Logical or Character. *)
Theorem cast_types_once (st : State) (a : IRRef) (ty : Type_.Enum) (n : IR) :
  node st a = Some n ->
  match cast st a ty with
  | Done r st' =>
      trace st `prefix_of` trace st' /\ reenters st' = reenters st
      /\ (exists n', node st' r = Some n' /\ type n' = ty /\ out n' = out n)
      /\ (type n = ty -> r = a /\ st' = st)
      /\ cast st' r ty = Done r st'
  | Fail msg =>
      msg = "Unexpected cast"%string /\ type n <> ty
      /\ ty <> Type_.Double /\ ty <> Type_.Integer
      /\ ty <> Type_.Logical /\ ty <> Type_.Character
  | OutOfTrace => False
  end.
Proof.
  intros Hn. destruct (cast st a ty) as [r st' | msg |] eqn:Hc.
  - destruct (cast_spec st st' a r ty n Hn Hc) as (Hp & Hr & n' & Hn' & Ht & Ho).
    split; [exact Hp |]. split; [exact Hr |].
    split; [exists n'; auto |]. split.
    + intros E. unfold cast in Hc. rewrite Hn in Hc.
      rewrite (bool_decide_eq_true_2 _ E) in Hc. injection Hc as <- <-. auto.
    + unfold cast. rewrite Hn'. rewrite (bool_decide_eq_true_2 _ Ht). reflexivity.
  - unfold cast in Hc. rewrite Hn in Hc.
    destruct (bool_decide (type n = ty)) eqn:E; [discriminate |].
    apply bool_decide_eq_false in E.
    destruct ty; try (rewrite insertS_eq in Hc; discriminate Hc);
      injection Hc as <-; repeat split; try exact E; discriminate.
  - unfold cast in Hc. rewrite Hn in Hc.
    destruct (bool_decide (type n = ty)); [discriminate |].
    destruct ty; try discriminate; rewrite insertS_eq in Hc; discriminate Hc.
Qed.

(** X2.  [rep] on a node of the trace always succeeds.  The node it
    returns has the type of the original and a shape equal to the
    target; when the original already has that shape it is returned
    with nothing emitted, otherwise exactly three nodes are pushed (the
    constant 1, the rep and the gather); recycling the result again
    returns it unchanged. *)
Theorem rep_reaches_target_once (st : State) (a : IRRef) (target : Shape) (n : IR) :
  node st a = Some n ->
  exists r st',
    rep st a target = Done r st'
    /\ trace st `prefix_of` trace st' /\ reenters st' = reenters st
    /\ (exists n', node st' r = Some n' /\ type n' = type n
                   /\ Shape_eqb (out n') target = true)
    /\ List.length (trace st')
       = (List.length (trace st)
          + (if Shape_eqb (out n) target then 0 else 3))%nat
    /\ rep st' r target = Done r st'.
Proof.
  intros Hn.
  destruct (rep st a target) as [r st' | msg |] eqn:Hr.
  - exists r, st'. split; [reflexivity |].
    destruct (rep_spec st st' a r target n Hn Hr) as (Hp & Hre & n' & Hn' & Ht & Hs).
    split; [exact Hp |]. split; [exact Hre |]. split; [exists n'; auto |].
    split.
    + unfold rep in Hr. rewrite Hn in Hr.
      destruct (Shape_eqb (out n) target); cbn [negb] in Hr.
      * injection Hr as <- <-. lia.
      * rewrite constant_eq in Hr. cbn beta iota zeta in Hr.
        rewrite node_pushed, insertS_eq in Hr. cbn beta iota zeta in Hr.
        erewrite node_kept in Hr; [| | exact Hn].
        2:{ cbn [trace]. rewrite <- app_assoc. apply prefix_app_r. reflexivity. }
        rewrite insertS_eq in Hr. injection Hr as <- <-. cbn [trace].
        rewrite !length_app. simpl. lia.
    + unfold rep. rewrite Hn', Hs. reflexivity.
  - exfalso. unfold rep in Hr. rewrite Hn in Hr.
    destruct (Shape_eqb (out n) target); cbn [negb] in Hr; [discriminate |].
    rewrite constant_eq in Hr. cbn beta iota zeta in Hr.
    rewrite node_pushed, insertS_eq in Hr. cbn beta iota zeta in Hr.
    erewrite node_kept in Hr; [| | exact Hn].
    2:{ cbn [trace]. rewrite <- app_assoc. apply prefix_app_r. reflexivity. }
    rewrite insertS_eq in Hr. discriminate Hr.
  - exfalso. unfold rep in Hr. rewrite Hn in Hr.
    destruct (Shape_eqb (out n) target); cbn [negb] in Hr; [discriminate |].
    rewrite constant_eq in Hr. cbn beta iota zeta in Hr.
    rewrite node_pushed, insertS_eq in Hr. cbn beta iota zeta in Hr.
    erewrite node_kept in Hr; [| | exact Hn].
    2:{ cbn [trace]. rewrite <- app_assoc. apply prefix_app_r. reflexivity. }
    rewrite insertS_eq in Hr. discriminate Hr.
Qed.

(** X3.  The node emitted by [EmitUnary] (and by [EmitFold]) takes as
    operand a node of the requested operand type with the shape of the
    original, has the requested result type, and has the shape of the
    original as input shape; a fold has the scalar shape as output. *)
Theorem EmitUnary_EmitFold_typed_operand (st st' : State) (o : TraceOpCode.Enum)
    (a r : IRRef) (rty mty : Type_.Enum) (n : IR) :
  node st a = Some n ->
  (EmitUnary st o a rty mty = Done r st' ->
     exists ca nca,
       node st' r = Some (mkIR o ca 0 0 rty (out n) (out n))
       /\ node st' ca = Some nca /\ type nca = mty /\ out nca = out n)
  /\ (EmitFold st o a rty mty = Done r st' ->
        exists ca nca,
          node st' r = Some (mkIR o ca 0 0 rty (out n) Scalar)
          /\ node st' ca = Some nca /\ type nca = mty /\ out nca = out n).
Proof.
  intros Hn. split; intros He.
  - unfold EmitUnary in He. rewrite Hn in He.
    destruct (cast st a mty) as [ca st1 | |] eqn:Hc; try discriminate He.
    cbn [bindE] in He. rewrite insertS_eq in He. injection He as <- <-.
    destruct (cast_spec st st1 a ca mty n Hn Hc) as (_ & _ & nca & Hnca & Ht & Ho).
    exists ca, nca. split; [apply node_pushed |].
    split; [| auto].
    apply (node_kept st1); [cbn [trace]; apply prefix_app_r; reflexivity | exact Hnca].
  - unfold EmitFold in He. rewrite Hn in He.
    destruct (cast st a mty) as [ca st1 | |] eqn:Hc; try discriminate He.
    cbn [bindE] in He. rewrite insertS_eq in He. injection He as <- <-.
    destruct (cast_spec st st1 a ca mty n Hn Hc) as (_ & _ & nca & Hnca & Ht & Ho).
    exists ca, nca. split; [apply node_pushed |].
    split; [| auto].
    apply (node_kept st1); [cbn [trace]; apply prefix_app_r; reflexivity | exact Hnca].
Qed.

Lemma cast_done_node (st st' : State) (a r : IRRef) (ty : Type_.Enum) :
  cast st a ty = Done r st' -> exists n, node st a = Some n.
Proof.
  unfold cast. destruct (node st a) as [n |]; [eauto | discriminate].
Qed.

Lemma rep_done_node (st st' : State) (a r : IRRef) (target : Shape) :
  rep st a target = Done r st' -> exists n, node st a = Some n.
Proof.
  unfold rep. destruct (node st a) as [n |]; [eauto | discriminate].
Qed.

(** One operand expression, [rep(cast(a, ty), shape)]. *)
Lemma operand_spec (st st' : State) (a r : IRRef) (ty : Type_.Enum) (shape : Shape) :
  bindE (cast st a ty) (fun ca st1 => rep st1 ca shape) = Done r st' ->
  trace st `prefix_of` trace st'
  /\ exists n', node st' r = Some n' /\ type n' = ty
                /\ Shape_eqb (out n') shape = true.
Proof.
  destruct (cast st a ty) as [ca st1 | |] eqn:Hc; try discriminate.
  cbn [bindE]. intros Hr.
  destruct (cast_done_node _ _ _ _ _ Hc) as [n Hn].
  destruct (cast_spec st st1 a ca ty n Hn Hc) as (P1 & _ & nca & Hnca & Ht & _).
  destruct (rep_spec st1 st' ca r shape nca Hnca Hr) as (P2 & _ & n' & Hn' & Ht' & Hs).
  split; [etrans; eassumption |].
  exists n'. split; [exact Hn' |]. split; [congruence | exact Hs].
Qed.

(** X4.  Whichever operand expression is evaluated first, the node
    emitted by [EmitBinary] carries the merged shape of its two inputs
    as input and output shape and the requested result type, and each
    of its two operands is a node of the requested operand type whose
    shape equals the merged shape. *)
Theorem EmitBinary_operands_typed_and_shaped (left_first : bool) (st st' : State)
    (o : TraceOpCode.Enum) (a b r : IRRef) (rty maty mbty : Type_.Enum)
    (inst : Z) (na nb : IR) :
  node st a = Some na -> node st b = Some nb ->
  EmitBinary left_first st o a b rty maty mbty inst = Done r st' ->
  exists ra rb nra nrb,
    node st' r
    = Some (mkIR o ra rb 0 rty (fst (MergeShapes st (out na) (out nb) inst))
                 (fst (MergeShapes st (out na) (out nb) inst)))
    /\ node st' ra = Some nra /\ type nra = maty
    /\ Shape_eqb (out nra) (fst (MergeShapes st (out na) (out nb) inst)) = true
    /\ node st' rb = Some nrb /\ type nrb = mbty
    /\ Shape_eqb (out nrb) (fst (MergeShapes st (out na) (out nb) inst)) = true.
Proof.
  intros Ha Hb. unfold EmitBinary. rewrite Ha, Hb.
  destruct (MergeShapes st (out na) (out nb) inst) as [shape st0]. cbn [fst].
  destruct left_first.
  - destruct (bindE (cast st0 a maty) (fun ca st1 => rep st1 ca shape))
      as [ra st2 | |] eqn:H1.
    2,3: destruct (cast st0 a maty) as [ca st1 | |]; cbn [bindE] in *;
         try discriminate; destruct (rep st1 ca shape); cbn [bindE];
         discriminate.
    destruct (operand_spec _ _ _ _ _ _ H1) as (P1 & nra & Hra & Tra & Sra).
    destruct (cast st0 a maty) as [ca st1 | |]; cbn [bindE] in H1 |- *;
      try discriminate H1.
    rewrite H1. cbn [bindE].
    destruct (bindE (cast st2 b mbty) (fun cb st3 => rep st3 cb shape))
      as [rb st4 | |] eqn:H2.
    2,3: destruct (cast st2 b mbty) as [cb st3 | |]; cbn [bindE] in *;
         try discriminate; destruct (rep st3 cb shape); cbn [bindE];
         discriminate.
    destruct (operand_spec _ _ _ _ _ _ H2) as (P2 & nrb & Hrb & Trb & Srb).
    destruct (cast st2 b mbty) as [cb st3 | |]; cbn [bindE] in H2 |- *;
      try discriminate H2.
    rewrite H2. cbn [bindE]. rewrite insertS_eq. intros H. injection H as <- <-.
    exists ra, rb, nra, nrb. split; [apply node_pushed |].
    assert (P3 : trace st4 `prefix_of` trace st4 ++
                   [mkIR o ra rb 0 rty shape shape])
      by (apply prefix_app_r; reflexivity).
    split; [apply (node_kept st2); [cbn [trace]; etrans; eassumption | exact Hra] |].
    split; [exact Tra |]. split; [exact Sra |].
    split; [apply (node_kept st4); [exact P3 | exact Hrb] |]. auto.
  - destruct (bindE (cast st0 b mbty) (fun cb st1 => rep st1 cb shape))
      as [rb st2 | |] eqn:H1.
    2,3: destruct (cast st0 b mbty) as [cb st1 | |]; cbn [bindE] in *;
         try discriminate; destruct (rep st1 cb shape); cbn [bindE];
         discriminate.
    destruct (operand_spec _ _ _ _ _ _ H1) as (P1 & nrb & Hrb & Trb & Srb).
    destruct (cast st0 b mbty) as [cb st1 | |]; cbn [bindE] in H1 |- *;
      try discriminate H1.
    rewrite H1. cbn [bindE].
    destruct (bindE (cast st2 a maty) (fun ca st3 => rep st3 ca shape))
      as [ra st4 | |] eqn:H2.
    2,3: destruct (cast st2 a maty) as [ca st3 | |]; cbn [bindE] in *;
         try discriminate; destruct (rep st3 ca shape); cbn [bindE];
         discriminate.
    destruct (operand_spec _ _ _ _ _ _ H2) as (P2 & nra & Hra & Tra & Sra).
    destruct (cast st2 a maty) as [ca st3 | |]; cbn [bindE] in H2 |- *;
      try discriminate H2.
    rewrite H2. cbn [bindE]. rewrite insertS_eq. intros H. injection H as <- <-.
    exists ra, rb, nra, nrb. split; [apply node_pushed |].
    assert (P3 : trace st4 `prefix_of` trace st4 ++
                   [mkIR o ra rb 0 rty shape shape])
      by (apply prefix_app_r; reflexivity).
    split; [apply (node_kept st4); [exact P3 | exact Hra] |].
    split; [exact Tra |]. split; [exact Sra |].
    split; [apply (node_kept st2); [cbn [trace]; etrans; eassumption | exact Hrb] |].
    auto.
Qed.

End Emitters.

(* ===================================================================== *)
(** ** Loads and stores of the recorder: forwarding through [slots] *)

Section Forwarding.
Import JIT Emit Recorder.
Context `{P : Params} `{L : Layout}.

Lemma SpecializeLength_appends (st : State) (n irlength inst : Z) :
  trace st `prefix_of` trace (snd (SpecializeLength st n irlength inst))
  /\ reenters (snd (SpecializeLength st n irlength inst)) = reenters st.
Proof.
  unfold SpecializeLength. destruct (n <=? SPECIALIZE_LENGTH).
  - rewrite constant_eq. simpl. split; [apply prefix_app_r |]; reflexivity.
  - simpl. split; reflexivity.
Qed.

Lemma SpecializeValue_appends (st : State) (v : Value) (ir : IR) (inst : Z) :
  trace st `prefix_of` trace (snd (SpecializeValue st v ir inst))
  /\ reenters (snd (SpecializeValue st v ir inst)) = reenters st.
Proof.
  unfold SpecializeValue. destruct (isNull v); [split; reflexivity |].
  destruct (isVector v); [| split; reflexivity].
  match goal with
  | |- context [SpecializeLength ?s ?n ?i ?k] =>
      destruct (SpecializeLength_appends s n i k) as [Hp Hr]
  end.
  split; [| exact Hr].
  etrans; [| exact Hp]. cbn [trace]. apply prefix_app_r. reflexivity.
Qed.

(** What [load] does on a register operand. *)
Lemma load_register (rec : Recorder) (th : Interpreter.Thread) (operand : Value)
    (a reenter_ : Z) :
  a <= 0 ->
  exists r st,
    load rec th operand a reenter_
    = Some (r, mkRecorder (set_reenter st r (mkReenter reenter_ true))
                          (<[(register_variable th a) := r]> (slots rec)))
    /\ trace (buffers rec) `prefix_of` trace st
    /\ match slots rec !! (register_variable th a) with
       | Some r0 => r = r0 /\ st = buffers rec
       | None =>
           exists s,
             node st r
             = Some (mkIR TraceOpCode.sload (-1) (register_slot th a) 0
                          (Value_type operand) Empty s)
             /\ r = len (trace st) - 1
             /\ (List.length (trace (buffers rec)) < List.length (trace st))%nat
       end.
Proof.
  intros Ha. unfold load. apply Z.leb_le in Ha. rewrite Ha. cbv zeta. cbn [snd fst register_variable].
  destruct (slots rec !! (register_variable th a)) as [r0 |] eqn:Hs.
  - exists r0, (buffers rec). simpl.
    rewrite (insert_id _ _ _ Hs). split; [reflexivity |].
    split; [reflexivity | auto].
  - pose proof (SpecializeValue_appends (buffers rec) operand
                  (mkIR TraceOpCode.slength (-1) (register_slot th a) 0
                        Type_.Integer Empty Scalar) reenter_) as [Hp _].
    destruct (SpecializeValue _ _ _ _) as [s st1]. cbn [snd] in Hp.
    rewrite insertS_eq. simpl.
    eexists _, _. split; [reflexivity |].
    cbn [trace]. split; [etrans; [exact Hp | apply prefix_app_r; reflexivity] |].
    exists s. split; [apply node_pushed |].
    split; [rewrite len_app_one; reflexivity |].
    apply prefix_length in Hp. rewrite length_app. simpl. lia.
Qed.

(** X5.  A value stored to a register is forwarded: the store pushes
    one [sstore] node for the value's node and files that node under
    the register's slot, and a load of the same register afterwards
    returns the stored node itself, whatever the register holds, and
    pushes nothing (it only notes where to reenter).  The slots of
    other registers are as before the store. *)
Theorem store_then_load_forwards (rec rec1 : Recorder) (th : Interpreter.Thread)
    (a a' c : Z) (operand : Value) (reenter_ : Z) :
  c <= 0 -> store rec th a c = Some (a', rec1) ->
  a' = a
  /\ (exists n,
        node (buffers rec) a = Some n
        /\ trace (buffers rec1)
           = trace (buffers rec)
             ++ [mkIR TraceOpCode.sstore (-1) (register_slot th c) a
                      (type n) (out n) Empty])
  /\ load rec1 th operand c reenter_
     = Some (a, mkRecorder (set_reenter (buffers rec1) a (mkReenter reenter_ true))
                           (slots rec1))
  /\ forall v, v <> (register_variable th c) -> slots rec1 !! v = slots rec !! v.
Proof.
  intros Hc. unfold store. pose proof Hc as Hc'. apply Z.leb_le in Hc'.
  rewrite Hc'. cbv zeta. cbn [snd fst register_variable].
  destruct (node (buffers rec) a) as [n |] eqn:Hn; [| discriminate].
  cbn [mbind option_bind]. rewrite insertS_eq. intros Hs. injection Hs as <- <-.
  split; [reflexivity |]. split; [exists n; auto |]. split.
  - unfold load. rewrite Hc'. cbv zeta. cbn [snd fst register_variable slots]. rewrite lookup_insert_eq.
    reflexivity.
  - intros v Hv. cbn [slots]. apply lookup_insert_ne. congruence.
Qed.

(** X6.  A load of a register always succeeds and is remembered: the
    node it returns is filed under the register's slot with a reenter
    record for the loading instruction, the trace only grows, a first
    load ends the trace with the [sload] node of the operand's type,
    and every later load of that register returns the same node and
    pushes nothing, whatever the register then holds. *)
Theorem load_register_is_remembered (rec : Recorder) (th : Interpreter.Thread)
    (operand : Value) (a reenter_ : Z) :
  a <= 0 ->
  exists r rec1,
    load rec th operand a reenter_ = Some (r, rec1)
    /\ slots rec1 !! (register_variable th a) = Some r
    /\ reenters (buffers rec1) !! r = Some (mkReenter reenter_ true)
    /\ trace (buffers rec) `prefix_of` trace (buffers rec1)
    /\ (slots rec !! (register_variable th a) = None ->
        exists s,
          last (trace (buffers rec1))
          = Some (mkIR TraceOpCode.sload (-1) (register_slot th a) 0
                       (Value_type operand) Empty s)
          /\ r = len (trace (buffers rec1)) - 1)
    /\ forall operand' reenter',
         load rec1 th operand' a reenter'
         = Some (r, mkRecorder
                      (set_reenter (buffers rec1) r (mkReenter reenter' true))
                      (slots rec1)).
Proof.
  intros Ha.
  destruct (load_register rec th operand a reenter_ Ha) as (r & st & Hl & Hp & Hc).
  eexists _, _. split; [exact Hl |]. cbn [slots buffers].
  split; [apply lookup_insert_eq |].
  split; [unfold set_reenter; cbn [reenters]; apply lookup_insert_eq |].
  split; [exact Hp |]. split.
  - intros Hnone. rewrite Hnone in Hc. destruct Hc as (s & Hn & Hr & Hlt).
    exists s. split; [| exact Hr].
    unfold node in Hn. destruct (r <? 0); [discriminate |].
    rewrite last_lookup. rewrite <- Hn. unfold set_reenter. cbn [trace].
    f_equal. unfold len in Hr. lia.
  - intros operand' reenter'. unfold load.
    pose proof Ha as Ha'. apply Z.leb_le in Ha'. rewrite Ha'. cbv zeta. cbn [snd fst register_variable slots].
    rewrite lookup_insert_eq. reflexivity.
Qed.

(** X7.  After a move between two registers is recorded, both
    registers forward to one and the same node: the recorder keeps no
    copy. *)
Theorem EmitIR_mov_shares_node (rec rec2 : Recorder) (th : Interpreter.Thread)
    (operand : Value) (inst : Z) (ins : Interpreter.Instruction) :
  Interpreter.a ins <= 0 -> Interpreter.c ins <= 0 ->
  EmitIR_mov rec th operand inst ins = Some rec2 ->
  exists r,
    slots rec2 !! (register_variable th (Interpreter.a ins)) = Some r
    /\ slots rec2 !! (register_variable th (Interpreter.c ins)) = Some r
    /\ exists n, last (trace (buffers rec2))
                 = Some (mkIR TraceOpCode.sstore (-1)
                              (register_slot th (Interpreter.c ins)) r
                              (type n) (out n) Empty).
Proof.
  intros Ha Hc. unfold EmitIR_mov.
  destruct (load_register rec th operand (Interpreter.a ins) inst Ha)
    as (r & st & Hl & _ & _).
  rewrite Hl. simpl. unfold store. pose proof Hc as Hc'. apply Z.leb_le in Hc'.
  rewrite Hc'. cbv zeta. cbn [snd fst register_variable buffers].
  destruct (node _ r) as [n |]; [| discriminate].
  cbn [mbind option_bind]. rewrite insertS_eq. intros Hs. injection Hs as <-. cbn [slots buffers].
  exists r. split; [| split].
  - destruct (decide (register_variable th (Interpreter.c ins)
                      = register_variable th (Interpreter.a ins))) as [E | E].
    + rewrite E. apply lookup_insert_eq.
    + rewrite lookup_insert_ne by exact E. apply lookup_insert_eq.
  - apply lookup_insert_eq.
  - exists n. cbn [trace]. apply last_snoc.
Qed.

Lemma climb_appends (fuel : nat) (h : gmap Z Interpreter.Environment) :
  forall st env r aa name re env' r' st',
    climb fuel h st env r aa name re = Some (env', r', st') ->
    trace st `prefix_of` trace st'
    /\ exists E, h !! env' = Some E /\ has E name = true.
Proof.
  induction fuel as [| fuel IH]; intros st env r aa name re env' r' st';
    cbn [climb]; [discriminate |].
  destruct (h !! env) as [E |] eqn:HE; [| discriminate].
  cbn [mbind option_bind].
  destruct (has E name) eqn:Hh.
  - intros Hc. injection Hc as <- <- <-. split; [reflexivity | eauto].
  - rewrite insertS_eq. cbn beta iota zeta. rewrite insertS_eq.
    cbn beta iota zeta. intros Hc.
    destruct (IH _ _ _ _ _ _ _ _ _ Hc) as [Hp Hfound].
    split; [| exact Hfound].
    etrans; [| exact Hp]. unfold set_reenter. cbn [trace].
    rewrite <- app_assoc. apply prefix_app_r. reflexivity.
Qed.

(** X26.  Names are never forwarded.  A store to a name pushes the
    name constant, the current environment and a [store] node and
    leaves the table of slots alone; a load of a name leaves the table
    alone as well and always ends the trace with a fresh [load] node
    for the name constant it pushed first, with a reenter record for
    the loading instruction.  So a name that was just stored or loaded
    is read from its environment again by the next load. *)
Theorem names_are_never_forwarded (rec : Recorder) (th : Interpreter.Thread) :
  (forall a c a' rec1,
     0 < c -> store rec th a c = Some (a', rec1) ->
     a' = a /\ slots rec1 = slots rec
     /\ exists n,
          trace (buffers rec1)
          = trace (buffers rec)
            ++ [makeConstant (VCharacter [c]);
                mkIR TraceOpCode.curenv 0 0 0 Type_.Environment Empty Scalar;
                mkIR TraceOpCode.store (len (trace (buffers rec)) + 1)
                     (len (trace (buffers rec))) a Type_.Nil (out n) Empty])
  /\ (forall operand a re r rec1,
        0 < a -> load rec th operand a re = Some (r, rec1) ->
        slots rec1 = slots rec
        /\ trace (buffers rec) ++ [makeConstant (VCharacter [a])]
           `prefix_of` trace (buffers rec1)
        /\ r = len (trace (buffers rec1)) - 1
        /\ reenters (buffers rec1) !! r = Some (mkReenter re true)
        /\ exists n,
             last (trace (buffers rec1)) = Some n
             /\ op n = TraceOpCode.load
             /\ JIT.b n = len (trace (buffers rec))
             /\ in_ n = Empty).
Proof.
  split.
  - intros a c a' rec1 Hc. unfold store.
    assert (E : (c <=? 0) = false) by (apply Z.leb_gt; exact Hc).
    rewrite E, constant_eq. cbn beta iota zeta. rewrite insertS_eq.
    cbn beta iota zeta. cbn [fst snd trace reenters].
    destruct (node _ a) as [n |]; [| discriminate].
    cbn [mbind option_bind]. rewrite insertS_eq.
    intros Hs. injection Hs as <- <-. cbn [slots buffers trace].
    split; [reflexivity |]. split; [reflexivity |]. exists n.
    rewrite <- !app_assoc. cbn [app].
    replace (len (trace (buffers rec) ++ [makeConstant (VCharacter [c])]))
      with (len (trace (buffers rec)) + 1)
      by (unfold len; rewrite length_app; simpl; lia).
    reflexivity.
  - intros operand a re r rec1 Ha. unfold load.
    assert (E : (a <=? 0) = false) by (apply Z.leb_gt; exact Ha).
    rewrite E, constant_eq. cbn beta iota zeta. rewrite insertS_eq.
    cbn beta iota zeta. cbn [trace reenters].
    destruct (climb _ _ _ _ _ _ _ _) as [[[env' r0] st3] |] eqn:Hc;
      [| discriminate].
    cbn [mbind option_bind].
    destruct (Interpreter.heap th !! env') as [E' |]; [| discriminate].
    cbn [mbind option_bind fst snd].
    destruct (climb_appends _ _ _ _ _ _ _ _ _ _ _ Hc) as [Hp _].
    cbn [trace] in Hp.
    match goal with
    | |- context [SpecializeValue st3 ?v ?ir ?i] =>
        pose proof (SpecializeValue_appends st3 v ir i) as [Hp2 _];
        destruct (SpecializeValue st3 v ir i) as [s st4]
    end.
    cbn [snd] in Hp2. rewrite insertS_eq. cbn [mbind option_bind].
    intros Hl. injection Hl as <- <-. cbn [slots buffers].
    unfold set_reenter. cbn [trace reenters].
    split; [reflexivity |]. split.
    { apply prefix_app_r. etrans; [| exact Hp2]. etrans; [| exact Hp].
      apply prefix_app_r. reflexivity. }
    split; [rewrite len_app_one; reflexivity |].
    split; [apply lookup_insert_eq |].
    eexists. split; [apply last_snoc |]. cbn [op JIT.b in_]. auto.
Qed.

End Forwarding.

(* ===================================================================== *)
(** ** Side exits keep the live stores *)

Section Exits.
Import JIT Recorder.

(** The fold of [BuildExit] keeps exactly the stores that pass the
    test. *)
Lemma livestores_spec (code : list IR) (lv : list IRRef)
    (stores m : gmap Variable_ IRRef) :
  map_fold (fun v r acc =>
              m ← acc;
              keep ← store_is_live code lv v;
              Some (if keep : bool then <[v := r]> m else m))
           (Some ∅) stores = Some m ->
  forall v,
    (forall r, stores !! v = Some r -> exists k, store_is_live code lv v = Some k)
    /\ m !! v = match store_is_live code lv v with
                | Some true => stores !! v
                | _ => None
                end.
Proof.
  revert m.
  apply (map_fold_weak_ind
           (fun acc stores => forall m, acc = Some m -> forall v,
              (forall r, stores !! v = Some r ->
                 exists k, store_is_live code lv v = Some k)
              /\ m !! v = match store_is_live code lv v with
                          | Some true => stores !! v
                          | _ => None
                          end)).
  - intros m Hm v. injection Hm as <-. split.
    + intros r Hr. rewrite lookup_empty in Hr. discriminate.
    + rewrite !lookup_empty. destruct (store_is_live code lv v) as [[|] |];
        reflexivity.
  - intros v0 r0 st acc Hfresh IH m Hm v.
    destruct acc as [m0 |]; [| discriminate].
    simpl in Hm.
    destruct (store_is_live code lv v0) as [k0 |] eqn:Hk0; [| discriminate].
    simpl in Hm. injection Hm as <-.
    destruct (IH m0 eq_refl v) as [IH1 IH2].
    destruct (decide (v = v0)) as [-> | Hne].
    + split.
      * intros _ _. exists k0. exact Hk0.
      * rewrite Hk0, lookup_insert_eq. rewrite Hk0, Hfresh in IH2.
        destruct k0; [apply lookup_insert_eq |].
        rewrite IH2. reflexivity.
    + split.
      * intros r Hr. rewrite lookup_insert_ne in Hr by congruence. eauto.
      * rewrite (lookup_insert_ne st) by congruence.
        destruct k0; [rewrite lookup_insert_ne by congruence |]; exact IH2.
Qed.

Lemma live_environments_length (fs : list StackFrame) :
  List.length (live_environments fs) = (2 * List.length fs)%nat.
Proof.
  unfold live_environments. induction fs as [| f fs IH]; [reflexivity |].
  cbn [flat_map]. rewrite length_app, IH. simpl. lia.
Qed.

(** X8.  The exit that [BuildExit] returns lists two live environments
    per frame and keeps exactly the stores that go to a register, to
    the current environment ([curenv]) or to one of those live
    environments, each with the node it had; every other store is
    dropped. *)
Theorem BuildExit_keeps_live_stores (code : list IR) (environments : list IRRef)
    (fs : list StackFrame) (stores : gmap Variable_ IRRef) (re : Reenter)
    (idx : Z) (e : Exit) :
  BuildExit code environments fs stores re idx = Some e ->
  live e = live_environments fs
  /\ List.length (live e) = (2 * List.length fs)%nat
  /\ frames e = fs /\ reenter e = re /\ index e = idx
  /\ o e ⊆ stores
  /\ forall (v : Variable_) r,
       o e !! v = Some r
       <-> stores !! v = Some r
           /\ (fst v = -1
               \/ (exists n, 0 <= fst v /\ code !! Z.to_nat (fst v) = Some n
                             /\ op n = TraceOpCode.curenv)
               \/ fst v ∈ live_environments fs).
Proof.
  unfold BuildExit. cbn zeta.
  destruct (map_fold _ _ stores) as [m |] eqn:Hfold; [| discriminate].
  simpl. intros He. injection He as <-. cbn [live frames reenter index o].
  pose proof (livestores_spec code (live_environments fs) stores m Hfold) as Hm.
  split; [reflexivity |]. split.
  { apply live_environments_length. }
  split; [reflexivity |]. split; [reflexivity |]. split; [reflexivity |].
  split.
  { apply map_subseteq_spec. intros v r Hv. destruct (Hm v) as [_ H2].
    rewrite H2 in Hv.
    destruct (store_is_live code (live_environments fs) v) as [[|] |];
      [exact Hv | discriminate | discriminate]. }
  intros [env_ i_] r. destruct (Hm (env_, i_)) as [H1 H2]. rewrite H2.
  unfold store_is_live in *. cbn [fst] in *.
  destruct (env_ =? -1) eqn:E1.
  { apply Z.eqb_eq in E1. split; [intros Hs; split; auto | intros [Hs _]; exact Hs]. }
  apply Z.eqb_neq in E1.
  destruct (env_ <? 0) eqn:E2.
  { simpl. split; [discriminate |]. intros [Hs _].
    destruct (H1 r Hs) as [k Hk]. discriminate Hk. }
  apply Z.ltb_ge in E2.
  destruct (code !! Z.to_nat env_) as [n |] eqn:Hn; simpl.
  2:{ split; [discriminate |]. intros [Hs _].
      destruct (H1 r Hs) as [k Hk]. discriminate Hk. }
  unfold is_opb. destruct (bool_decide (op n = TraceOpCode.curenv)) eqn:Eop.
  { apply bool_decide_eq_true in Eop.
    split; [intros Hs; split; [exact Hs |]; right; left; exists n; auto
           | intros [Hs _]; exact Hs]. }
  apply bool_decide_eq_false in Eop.
  destruct (existsb (fun e => e =? env_) (live_environments fs)) eqn:Ex.
  - apply existsb_exists in Ex. destruct Ex as (x & Hin & Hx).
    apply Z.eqb_eq in Hx. subst x.
    split; [intros Hs; split; [exact Hs |]; right; right;
            apply list_elem_of_In; exact Hin
           | intros [Hs _]; exact Hs].
  - split; [discriminate |]. intros [_ [Hc | [Hc | Hc]]].
    + contradiction.
    + destruct Hc as (n' & _ & Hn' & Hop). congruence.
    + exfalso. apply list_elem_of_In in Hc.
      assert (Ht : existsb (fun e => e =? env_) (live_environments fs) = true).
      { apply existsb_exists. exists env_. split; [exact Hc | apply Z.eqb_refl]. }
      congruence.
Qed.

End Exits.

(* ===================================================================== *)
(** ** What merging and specializing leave in the trace *)

Section ShapesInTrace.
Import JIT Emit TraceProps.
Context `{P : Params}.

Lemma forward_shape_traceLength (o n : IRRef) (s : Shape) :
  traceLength (forward_shape o n s) = traceLength s.
Proof. unfold forward_shape. destruct (length s =? o); reflexivity. Qed.

Lemma forward_shape_length (o n : IRRef) (s : Shape) :
  n <> o -> length (forward_shape o n s) <> o.
Proof.
  intros Hne. unfold forward_shape. destruct (length s =? o) eqn:E; simpl.
  - exact Hne.
  - apply Z.eqb_neq in E. exact E.
Qed.

Lemma forward_shape_other (o n : IRRef) (s : Shape) :
  length s <> o -> forward_shape o n s = s.
Proof.
  intros Hne. unfold forward_shape. apply Z.eqb_neq in Hne. rewrite Hne.
  reflexivity.
Qed.

Lemma emit_length_guard_eq (st : State) (s l : IRRef) (inst : Z) :
  emit_length_guard st s l inst
  = mkState
      (trace st
       ++ [mkIR TraceOpCode.le s l 0 Type_.Logical Scalar Scalar;
           mkIR TraceOpCode.gt s 0 0 Type_.Logical Scalar Scalar;
           mkIR TraceOpCode.land (len (trace st)) (len (trace st) + 1) 0
                Type_.Logical Scalar Scalar;
           mkIR TraceOpCode.gtrue (len (trace st) + 2) 0 0 Type_.Nil Scalar Empty])
      (<[len (trace st) + 3 := mkReenter inst true]> (reenters st)).
Proof.
  unfold emit_length_guard.
  do 4 (rewrite insertS_eq; cbn beta iota zeta; cbn [trace reenters]).
  unfold set_reenter. cbn [trace reenters]. rewrite <- !app_assoc. cbn [app].
  replace (len (trace st ++ [mkIR TraceOpCode.le s l 0 Type_.Logical Scalar Scalar]))
    with (len (trace st) + 1) by (unfold len; rewrite length_app; simpl; lia).
  replace (len (trace st ++ [_; _])) with (len (trace st) + 2)
    by (unfold len; rewrite length_app; simpl; lia).
  replace (len (trace st ++ [_; _; _])) with (len (trace st) + 3)
    by (unfold len; rewrite length_app; simpl; lia).
  reflexivity.
Qed.

Lemma same_but_references_refl (n : IR) : same_but_references n n.
Proof. repeat split. Qed.

Lemma same_but_references_forward (o k : IRRef) (n : IR) :
  same_but_references n (forward_ir o k n).
Proof.
  unfold same_but_references, forward_ir. cbn [op a b c type in_ out].
  rewrite !forward_shape_traceLength. repeat split.
Qed.

(** X9.  [MergeShapes] returns one of its two arguments or the empty
    shape; when the two have different, non-empty length references
    the one observed longer wins.  It removes no node: the trace
    either keeps its length or grows by the four nodes of a guard;
    every older node keeps its opcode, operands, type and observed
    lengths (only length references are forwarded); and the reenter
    records of older nodes are untouched. *)
Theorem MergeShapes_keeps_nodes (st : State) (x y : Shape) (inst : Z) :
  (fst (MergeShapes st x y inst) = x \/ fst (MergeShapes st x y inst) = y
   \/ fst (MergeShapes st x y inst) = Empty)
  /\ (length x <> length y -> length x <> 0 -> length y <> 0 ->
      traceLength (fst (MergeShapes st x y inst))
      = Z.max (traceLength x) (traceLength y))
  /\ (List.length (trace (snd (MergeShapes st x y inst)))
      = List.length (trace st)
      \/ List.length (trace (snd (MergeShapes st x y inst)))
         = (List.length (trace st) + 4)%nat)
  /\ (forall i n, trace st !! i = Some n ->
        exists n', trace (snd (MergeShapes st x y inst)) !! i = Some n'
                   /\ same_but_references n n')
  /\ (forall g, g < len (trace st) ->
        reenters (snd (MergeShapes st x y inst)) !! g = reenters st !! g).
Proof.
  unfold MergeShapes, Shape_eqb. cbn [length Empty].
  destruct (length x =? length y) eqn:E1.
  { cbn [fst snd]. apply Z.eqb_eq in E1.
    split; [auto |]. split; [intros Hne; contradiction |].
    split; [auto |]. split; [| reflexivity].
    intros i n Hn. exists n. split; [exact Hn | apply same_but_references_refl]. }
  apply Z.eqb_neq in E1.
  destruct ((length x =? 0) || (length y =? 0)) eqn:E2.
  { cbn [fst snd]. apply orb_true_iff in E2.
    split; [auto |].
    split; [intros _ Hx Hy; destruct E2 as [E | E]; apply Z.eqb_eq in E;
            contradiction |].
    split; [auto |]. split; [| reflexivity].
    intros i n Hn. exists n. split; [exact Hn | apply same_but_references_refl]. }
  destruct (traceLength x =? traceLength y) eqn:E3.
  { cbn [fst snd trace reenters]. apply Z.eqb_eq in E3.
    split; [destruct (length x <? length y); auto |].
    split; [intros _ _ _; destruct (length x <? length y); lia |].
    split; [left; apply length_map |]. split; [| reflexivity].
    intros i n Hn. eexists. rewrite list_lookup_fmap, Hn. simpl.
    split; [reflexivity | apply same_but_references_forward]. }
  apply Z.eqb_neq in E3.
  destruct (traceLength x <? traceLength y) eqn:E4.
  { rewrite emit_length_guard_eq. cbn [fst snd trace reenters].
    apply Z.ltb_lt in E4.
    split; [auto |]. split; [intros _ _ _; lia |].
    split; [right; rewrite length_app; reflexivity |]. split.
    - intros i n Hn. exists n.
      split; [apply lookup_app_l_Some; exact Hn | apply same_but_references_refl].
    - intros g Hg. apply lookup_insert_ne. lia. }
  apply Z.ltb_ge in E4.
  assert (E5 : (traceLength y <? traceLength x) = true) by (apply Z.ltb_lt; lia).
  rewrite E5, emit_length_guard_eq. cbn [fst snd trace reenters].
  split; [auto |]. split; [intros _ _ _; lia |].
  split; [right; rewrite length_app; reflexivity |]. split.
  - intros i n Hn. exists n.
    split; [apply lookup_app_l_Some; exact Hn | apply same_but_references_refl].
  - intros g Hg. apply lookup_insert_ne. lia.
Qed.

(** X10.  When two shapes of the same observed length carry different
    non-empty length references, [MergeShapes] settles on the older
    (smaller) reference and forwards it through the whole trace:
    afterwards no node's input or output shape carries the younger
    reference, the trace has not grown, no guard was recorded, and a
    node that never carried the younger reference is exactly as it
    was. *)
Theorem MergeShapes_forwards_younger_reference (st : State) (x y : Shape)
    (inst : Z) :
  length x <> length y -> length x <> 0 -> length y <> 0 ->
  traceLength x = traceLength y ->
  length (fst (MergeShapes st x y inst)) = Z.min (length x) (length y)
  /\ traceLength (fst (MergeShapes st x y inst)) = traceLength x
  /\ List.length (trace (snd (MergeShapes st x y inst))) = List.length (trace st)
  /\ reenters (snd (MergeShapes st x y inst)) = reenters st
  /\ (forall i n, trace (snd (MergeShapes st x y inst)) !! i = Some n ->
        length (in_ n) <> Z.max (length x) (length y)
        /\ length (out n) <> Z.max (length x) (length y))
  /\ (forall i n, trace st !! i = Some n ->
        length (in_ n) <> Z.max (length x) (length y) ->
        length (out n) <> Z.max (length x) (length y) ->
        trace (snd (MergeShapes st x y inst)) !! i = Some n).
Proof.
  intros Hne Hx Hy Ht. unfold MergeShapes, Shape_eqb. cbn [length Empty].
  apply Z.eqb_neq in Hne, Hx, Hy. rewrite Hne, Hx, Hy. cbn [orb].
  apply Z.eqb_eq in Ht. rewrite Ht. cbn [fst snd trace reenters].
  apply Z.eqb_neq in Hne, Hx, Hy. apply Z.eqb_eq in Ht.
  split; [destruct (length x <? length y) eqn:E;
          [apply Z.ltb_lt in E | apply Z.ltb_ge in E]; lia |].
  split; [destruct (length x <? length y); congruence |].
  split; [apply length_map |]. split; [reflexivity |]. split.
  - intros i n Hn. rewrite list_lookup_fmap in Hn.
    destruct (trace st !! i) as [n0 |]; [| discriminate].
    simpl in Hn. injection Hn as <-. unfold forward_ir. cbn [in_ out].
    split; apply forward_shape_length; lia.
  - intros i n Hn Hi Ho. rewrite list_lookup_fmap, Hn. simpl. f_equal.
    unfold forward_ir. rewrite !forward_shape_other by assumption.
    destruct n; reflexivity.
Qed.

(** X11.  The shape [SpecializeValue] returns describes the value: a
    null gives the empty shape and any other non-vector the scalar
    shape, with nothing recorded; a vector gets its observed length,
    the given length node is pushed right after the old trace, and the
    length reference of the shape names a node of the new trace: a
    constant of that length when the length is at most
    SPECIALIZE_LENGTH and the pushed length node otherwise.  Older
    nodes and reenter records are untouched. *)
Theorem SpecializeValue_shape_describes_value (st : State) (v : Value) (ir : IR)
    (inst : Z) :
  trace st `prefix_of` trace (snd (SpecializeValue st v ir inst))
  /\ reenters (snd (SpecializeValue st v ir inst)) = reenters st
  /\ (isNull v = true -> SpecializeValue st v ir inst = (Empty, st))
  /\ (isNull v = false -> isVector v = false ->
      SpecializeValue st v ir inst = (Scalar, st))
  /\ (isVector v = true ->
      traceLength (fst (SpecializeValue st v ir inst)) = Value_length v
      /\ node (snd (SpecializeValue st v ir inst)) (len (trace st)) = Some ir
      /\ node (snd (SpecializeValue st v ir inst))
              (length (fst (SpecializeValue st v ir inst)))
         = Some (if Value_length v <=? SPECIALIZE_LENGTH
                 then makeConstant (VInteger [Value_length v]) else ir)).
Proof.
  unfold SpecializeValue.
  destruct (isNull v) eqn:En.
  { cbn [fst snd]. split; [reflexivity |]. split; [reflexivity |].
    split; [reflexivity |]. split; [discriminate |].
    intros Hv. destruct v; discriminate. }
  destruct (isVector v) eqn:Ev.
  2:{ cbn [fst snd]. split; [reflexivity |]. split; [reflexivity |].
      split; [discriminate |]. split; [reflexivity | discriminate]. }
  cbn [trace]. unfold SpecializeLength.
  destruct (Value_length v <=? SPECIALIZE_LENGTH).
  - rewrite constant_eq. cbn [fst snd trace reenters length traceLength].
    split; [rewrite <- app_assoc; apply prefix_app_r; reflexivity |].
    split; [reflexivity |]. split; [discriminate |]. split; [discriminate |].
    intros _. split; [reflexivity |]. split.
    + apply (node_kept (mkState (trace st ++ [ir]) (reenters st)));
        [cbn [trace]; apply prefix_app_r; reflexivity | apply node_pushed].
    + apply node_pushed.
  - cbn [fst snd trace reenters length traceLength].
    split; [apply prefix_app_r; reflexivity |].
    split; [reflexivity |]. split; [discriminate |]. split; [discriminate |].
    intros _. split; [reflexivity |]. rewrite len_app_one.
    split; apply node_pushed.
Qed.

End ShapesInTrace.

(* ===================================================================== *)
(** ** Fusion groups of the scheduler *)

Section FusionGroups.
Import JIT.

Lemma schedule_before_S (code : list IR) (i : nat) (ir : IR) :
  code !! i = Some ir ->
  schedule_before code (S i)
  = schedule_step (schedule_before code i) (Z.of_nat i) ir.
Proof.
  intros Hi. unfold schedule_before.
  rewrite (take_S_r code i ir Hi), schedule_loop_app. simpl. f_equal.
  unfold len. rewrite length_take. apply lookup_lt_Some in Hi. lia.
Qed.

Lemma gSize_schedule_step (g : Groups) (k : Z) (ir : IR) :
  gSize (schedule_step g k ir) = if boundary g ir then in_ ir else gSize g.
Proof. unfold schedule_step. destruct (boundary g ir); reflexivity. Qed.

Lemma boundary_false_shape (g : Groups) (ir : IR) :
  boundary g ir = false -> Shape_eqb (in_ ir) (gSize g) = true.
Proof.
  unfold boundary. intros Hb.
  repeat (apply orb_false_iff in Hb; destruct Hb as [Hb _]).
  apply negb_false_iff in Hb. exact Hb.
Qed.

(** Once node [i] is passed, the running group has the input shape of
    node [i]. *)
Lemma group_has_shape_of_last (code : list IR) (i : nat) (ir : IR) :
  code !! i = Some ir ->
  Shape_eqb (in_ ir) (gSize (schedule_before code (S i))) = true.
Proof.
  intros Hi. rewrite (schedule_before_S code i ir Hi), gSize_schedule_step.
  destruct (boundary (schedule_before code i) ir) eqn:Hb.
  - unfold Shape_eqb. apply Z.eqb_refl.
  - apply boundary_false_shape. exact Hb.
Qed.

Lemma boundary_of_guard_or_load (g : Groups) (ir : IR) :
  op ir = TraceOpCode.gtrue \/ op ir = TraceOpCode.gfalse
  \/ op ir = TraceOpCode.load \/ op ir = TraceOpCode.sload ->
  boundary g ir = true.
Proof.
  unfold boundary, is_opb. intros [H | [H | [H | H]]]; rewrite H;
    destruct (negb (Shape_eqb (in_ ir) (gSize g))); reflexivity.
Qed.

Lemma boundary_of_shape (g : Groups) (ir : IR) :
  length (in_ ir) <> length (gSize g) -> boundary g ir = true.
Proof.
  unfold boundary, Shape_eqb. intros H. apply Z.eqb_neq in H. rewrite H.
  reflexivity.
Qed.

(** A node that stays fusable has the input shape of the node before
    it. *)
Lemma fusable_shares_shape_with_previous (code : list IR) (j : nat) (p ir : IR) :
  code !! j = Some p -> code !! S j = Some ir ->
  schedule code !! S j = Some true ->
  length (in_ ir) = length (in_ p).
Proof.
  intros Hp Hi Hf. rewrite (schedule_marks code (S j) ir Hi) in Hf.
  injection Hf as Hf. apply negb_true_iff in Hf.
  apply boundary_false_shape in Hf.
  pose proof (group_has_shape_of_last code j p Hp) as Hg.
  unfold Shape_eqb in *. apply Z.eqb_eq in Hf, Hg. congruence.
Qed.

(** X12.  The scheduler never fuses a guard, a load or an sload into
    the group before it, nor a node whose input shape differs from
    that of the node before it, nor a first node (its input shape
    would have to carry the reference -1): each of them is marked as
    the start of a group. *)
Theorem schedule_starts_group_at_guards_loads_and_shape_changes
    (code : list IR) (i : nat) (ir : IR) :
  code !! i = Some ir ->
  (op ir = TraceOpCode.gtrue \/ op ir = TraceOpCode.gfalse
   \/ op ir = TraceOpCode.load \/ op ir = TraceOpCode.sload)
  \/ (i = 0%nat /\ length (in_ ir) <> -1)
  \/ (exists j p, i = S j /\ code !! j = Some p
                  /\ length (in_ ir) <> length (in_ p)) ->
  schedule code !! i = Some false.
Proof.
  intros Hi Hcase. rewrite (schedule_marks code i ir Hi). f_equal.
  apply negb_false_iff.
  destruct Hcase as [Hop | [[-> Hsh] | (j & p & -> & Hp & Hsh)]].
  - apply boundary_of_guard_or_load. exact Hop.
  - apply boundary_of_shape. exact Hsh.
  - apply boundary_of_shape.
    pose proof (group_has_shape_of_last code j p Hp) as Hg.
    unfold Shape_eqb in Hg. apply Z.eqb_eq in Hg. congruence.
Qed.

(** X13.  A fusion group has one input shape: if the nodes after
    [head] up to [j] are all left fusable, node [j] has the same input
    length reference as node [head], and none of the nodes after
    [head] is a guard, a load or an sload. *)
Theorem fusion_group_shares_input_shape (code : list IR) (head j : nat)
    (h ir : IR) :
  (head <= j)%nat ->
  code !! head = Some h -> code !! j = Some ir ->
  (forall k, (head < k <= j)%nat -> schedule code !! k = Some true) ->
  Shape_eqb (in_ ir) (in_ h) = true
  /\ forall k n, (head < k <= j)%nat -> code !! k = Some n ->
       op n <> TraceOpCode.gtrue /\ op n <> TraceOpCode.gfalse
       /\ op n <> TraceOpCode.load /\ op n <> TraceOpCode.sload.
Proof.
  intros Hle Hh Hj Hall. split.
  - revert ir Hj Hall. induction Hle as [| j Hle IH]; intros ir Hj Hall.
    + assert (ir = h) by congruence. subst ir. unfold Shape_eqb.
      apply Z.eqb_refl.
    + destruct (code !! j) as [p |] eqn:Hp.
      2:{ apply lookup_ge_None in Hp. apply lookup_lt_Some in Hj. lia. }
      assert (Hprev : Shape_eqb (in_ p) (in_ h) = true).
      { apply IH; [reflexivity |]. intros k Hk. apply Hall. lia. }
      assert (Hf : schedule code !! S j = Some true) by (apply Hall; lia).
      pose proof (fusable_shares_shape_with_previous code j p ir Hp Hj Hf) as E.
      unfold Shape_eqb in *. rewrite E. exact Hprev.
  - intros k n Hk Hn.
    assert (Hf : schedule code !! k = Some true) by (apply Hall; exact Hk).
    rewrite (schedule_marks code k n Hn) in Hf. injection Hf as Hf.
    apply negb_true_iff in Hf.
    repeat split; intros Hop;
      rewrite boundary_of_guard_or_load in Hf by auto; discriminate Hf.
Qed.

End FusionGroups.

(* ===================================================================== *)
(** ** Instruction selection hands well-formed instructions to the
       allocation pass *)

Section SelectionPass.
Import TraceInterpret Selection Allocation SelectionProps.

Lemma flags_binary (ra rb : bool) :
  has_flag (Z.lor (Z.lor REG_R (flag_if ra REG_A)) (flag_if rb REG_B)) REG_A = ra
  /\ has_flag (Z.lor (Z.lor REG_R (flag_if ra REG_A)) (flag_if rb REG_B)) REG_B = rb
  /\ has_flag (Z.lor (Z.lor REG_R (flag_if ra REG_A)) (flag_if rb REG_B)) REG_R
     = true.
Proof. destruct ra, rb; repeat split. Qed.

Lemma flags_unary (ra : bool) :
  has_flag (Z.lor REG_R (flag_if ra REG_A)) REG_A = ra
  /\ has_flag (Z.lor REG_R (flag_if ra REG_A)) REG_B = false
  /\ has_flag (Z.lor REG_R (flag_if ra REG_A)) REG_R = true.
Proof. destruct ra; repeat split. Qed.

Lemma flags_cleared (f : Z) :
  has_flag (Z.land f (Z.lnot REG_R)) REG_A = has_flag f REG_A
  /\ has_flag (Z.land f (Z.lnot REG_R)) REG_B = has_flag f REG_B
  /\ has_flag (Z.land f (Z.lnot REG_R)) REG_R = false.
Proof.
  unfold has_flag. rewrite <- !Z.land_assoc.
  change (Z.land (Z.lnot REG_R) REG_A) with REG_A.
  change (Z.land (Z.lnot REG_R) REG_B) with REG_B.
  change (Z.land (Z.lnot REG_R) REG_R) with 0.
  rewrite Z.land_0_r. repeat split.
Qed.

Lemma pointer_not_register (addr x : Z) : pointer addr <> Reg x.
Proof. unfold pointer. destruct (addr =? 0); discriminate. Qed.

(** A register operand of [GetOperand] is the result cell of the
    instruction filed for the node. *)
Lemma GetOperand_register (nodes : list IRNode) (tb : Tables) (r : Z)
    (o : Operand) (is_const : bool) :
  GetOperand nodes tb r = Some (o, is_const, true) ->
  exists k, o = PP (ResultOf k)
            /\ reference_to_instruction tb !! Z.to_nat r = Some k.
Proof.
  unfold GetOperand. destruct (node nodes r) as [n |]; [| discriminate].
  simpl. destruct (op n); try discriminate;
    destruct (reference_to_instruction tb !! Z.to_nat r) as [k |];
    try discriminate; simpl; intros E; injection E as <- <-; eauto.
Qed.

Lemma selected_ok_emit (tb : Tables) (node_ref : nat) (ins : TraceInst) :
  selected_ok tb ->
  (has_flag (flags ins) REG_A = true ->
   exists j, TraceInterpret.a ins = PP (ResultOf j)
             /\ (j < List.length (insts tb))%nat) ->
  (has_flag (flags ins) REG_B = true ->
   exists j, TraceInterpret.b ins = PP (ResultOf j)
             /\ (j < List.length (insts tb))%nat) ->
  (forall x, r ins <> Reg x) ->
  selected_ok (emit tb node_ref ins).
Proof.
  intros (Hr & Hw & Hn) HA HB HR. unfold emit, selected_ok. cbn [insts
    reference_to_instruction]. split; [| split].
  - intros q k Hq. rewrite length_app. simpl.
    destruct (decide (q = node_ref)) as [-> | Hne].
    + rewrite lookup_insert_eq in Hq. injection Hq as <-. lia.
    + rewrite lookup_insert_ne in Hq by congruence. specialize (Hr q k Hq). lia.
  - intros k i0 Hk. apply lookup_app_Some in Hk.
    destruct Hk as [Hk | [Hge Hk]]; [exact (Hw k i0 Hk) |].
    apply list_lookup_singleton_Some in Hk. destruct Hk as [Hk <-].
    assert (k = List.length (insts tb)) by lia. subst k. split; assumption.
  - intros k i0 x Hk. apply lookup_app_Some in Hk.
    destruct Hk as [Hk | [Hge Hk]]; [exact (Hn k i0 x Hk) |].
    apply list_lookup_singleton_Some in Hk. destruct Hk as [_ <-]. apply HR.
Qed.

Lemma selected_ok_pointers (tb : Tables) (t : Type_.Enum) (cl : Cell) :
  selected_ok tb -> selected_ok (AddIncrementingPointer tb t cl).
Proof.
  unfold AddIncrementingPointer, selected_ok.
  destruct (size_for_type t =? 1); cbn [insts reference_to_instruction]; auto.
Qed.

Lemma selected_ok_update (tb tb' : Tables) (q : Z) (k : nat)
    (f : TraceInst -> TraceInst) :
  selected_ok tb ->
  (forall ins, TraceInterpret.a (f ins) = TraceInterpret.a ins
               /\ TraceInterpret.b (f ins) = TraceInterpret.b ins
               /\ has_flag (flags (f ins)) REG_A = has_flag (flags ins) REG_A
               /\ has_flag (flags (f ins)) REG_B = has_flag (flags ins) REG_B
               /\ forall x, r (f ins) <> Reg x) ->
  update_referenced tb q f = Some (k, tb') ->
  selected_ok tb'.
Proof.
  intros (Hr & Hw & Hn) Hf. unfold update_referenced.
  destruct (q <? 0); [discriminate |].
  destruct (reference_to_instruction tb !! Z.to_nat q) as [j |]; [| discriminate].
  simpl. destruct (insts tb !! j) as [ins |] eqn:Hj; [| discriminate].
  simpl. intros E. injection E as <- <-.
  unfold selected_ok. cbn [insts reference_to_instruction].
  destruct (Hf ins) as (Fa & Fb & FA & FB & FR).
  split; [| split].
  - intros q' k' Hq. rewrite length_insert. exact (Hr q' k' Hq).
  - intros m i0 Hm. destruct (decide (m = j)) as [-> | Hne].
    + rewrite list_lookup_insert_eq in Hm by (apply lookup_lt_Some in Hj; exact Hj).
      injection Hm as <-. rewrite Fa, Fb, FA, FB. exact (Hw j ins Hj).
    + rewrite list_lookup_insert_ne in Hm by congruence. exact (Hw m i0 Hm).
  - intros m i0 x Hm. destruct (decide (m = j)) as [-> | Hne].
    + rewrite list_lookup_insert_eq in Hm by (apply lookup_lt_Some in Hj; exact Hj).
      injection Hm as <-. apply FR.
    + rewrite list_lookup_insert_ne in Hm by congruence. exact (Hn m i0 x Hm).
Qed.

Lemma operand_in_range (nodes : list IRNode) (tb : Tables) (q : Z)
    (o : Operand) (is_const is_reg : bool) :
  selected_ok tb ->
  GetOperand nodes tb q = Some (o, is_const, is_reg) ->
  is_reg = true ->
  exists j, o = PP (ResultOf j) /\ (j < List.length (insts tb))%nat.
Proof.
  intros (Hr & _ & _) Hg ->.
  destruct (GetOperand_register _ _ _ _ _ Hg) as (j & -> & Hj).
  exists j. split; [reflexivity | exact (Hr _ _ Hj)].
Qed.

Lemma EmitBinary3_ok (nodes : list IRNode) (tb tb' : Tables)
    (osv ovs ovv : TraceBC.Enum) (k : nat) :
  selected_ok tb -> EmitBinary3 nodes tb osv ovs ovv k = Sel tb' ->
  selected_ok tb'.
Proof.
  intros Hok. unfold EmitBinary3.
  destruct (nodes !! k) as [n |]; [| discriminate]. cbn [of_option bindS].
  destruct (GetOperand nodes tb (a n)) as [[[oa ca] ra] |] eqn:Ga;
    [| discriminate]. cbn [of_option bindS].
  destruct (GetOperand nodes tb (b n)) as [[[ob cb] rb] |] eqn:Gb;
    [| discriminate]. cbn [of_option bindS].
  intros E. injection E as <-.
  destruct (flags_binary ra rb) as (FA & FB & _).
  apply selected_ok_emit; [exact Hok | | | discriminate]; cbn [flags
    TraceInterpret.a TraceInterpret.b].
  - rewrite FA. exact (operand_in_range _ _ _ _ _ _ Hok Ga).
  - rewrite FB. exact (operand_in_range _ _ _ _ _ _ Hok Gb).
Qed.

Lemma EmitUnary1_ok (nodes : list IRNode) (tb tb' : Tables)
    (code : TraceBC.Enum) (k : nat) :
  selected_ok tb -> EmitUnary1 nodes tb code k = Sel tb' -> selected_ok tb'.
Proof.
  intros Hok. unfold EmitUnary1.
  destruct (nodes !! k) as [n |]; [| discriminate]. cbn [of_option bindS].
  destruct (GetOperand nodes tb (a n)) as [[[oa ca] ra] |] eqn:Ga;
    [| discriminate]. cbn [of_option bindS].
  destruct ca; [discriminate |]. intros E. injection E as <-.
  destruct (flags_unary ra) as (FA & FB & _).
  apply selected_ok_emit; [exact Hok | | | discriminate]; cbn [flags
    TraceInterpret.a TraceInterpret.b].
  - rewrite FA. exact (operand_in_range _ _ _ _ _ _ Hok Ga).
  - rewrite FB. discriminate.
Qed.

Lemma EmitFold_ok (nodes : list IRNode) (tb tb' : Tables)
    (oi od : TraceBC.Enum) (basei based : Z) (k : nat) :
  selected_ok tb -> EmitFold nodes tb oi od basei based k = Sel tb' ->
  selected_ok tb'.
Proof.
  intros Hok. unfold EmitFold.
  destruct (nodes !! k) as [n |]; [| discriminate]. cbn [of_option bindS].
  destruct (GetOperand nodes tb (a n)) as [[[oa ca] ra] |] eqn:Ga;
    [| discriminate]. cbn [of_option bindS].
  destruct ca; [discriminate |].
  destruct (flags_unary ra) as (FA & FB & _).
  destruct (type n); try discriminate; intros E; injection E as <-;
    (apply selected_ok_emit; [exact Hok | | | discriminate]; cbn [flags
       TraceInterpret.a TraceInterpret.b];
     [rewrite FA; exact (operand_in_range _ _ _ _ _ _ Hok Ga)
     | rewrite FB; discriminate]).
Qed.

Lemma select_ok (nodes : list IRNode) (tb tb' : Tables) (k : nat) :
  selected_ok tb -> select nodes tb k = Sel tb' -> selected_ok tb'.
Proof.
  intros Hok. unfold select.
  destruct (nodes !! k) as [n |]; [| discriminate]. cbn [of_option bindS].
  destruct (op n).
  - unfold EmitBinary6. destruct (nodes !! k); [| discriminate].
    cbn [of_option bindS].
    destruct (node nodes (a i0)) as [na |]; [| discriminate].
    cbn [of_option bindS].
    destruct (type na); try discriminate; apply EmitBinary3_ok; exact Hok.
  - apply EmitBinary3_ok. exact Hok.
  - unfold EmitUnary2. destruct (nodes !! k); [| discriminate].
    cbn [of_option bindS].
    destruct (type i0); try discriminate; apply EmitUnary1_ok; exact Hok.
  - apply EmitFold_ok. exact Hok.
  - apply EmitUnary1_ok. exact Hok.
  - destruct (node nodes (a n)) as [na |]; [| discriminate].
    cbn [of_option bindS].
    destruct (select_cast (type na) (type n)) as [code | |]; try discriminate.
    cbn [bindS]. apply EmitUnary1_ok. exact Hok.
  - unfold EmitSpecial. destruct (nodes !! k); [| discriminate].
    cbn [of_option bindS]. intros E. injection E as <-.
    apply selected_ok_emit; [exact Hok | | | discriminate]; cbn [flags];
      intros Hf; vm_compute in Hf; discriminate Hf.
  - intros E. injection E as <-. exact Hok.
  - intros E. injection E as <-. apply selected_ok_pointers. exact Hok.
  - destruct (update_referenced tb (a n) _) as [[j tb1] |] eqn:Hu;
      [| discriminate].
    cbn [of_option bindS]. intros E. injection E as <-.
    apply selected_ok_pointers.
    refine (selected_ok_update tb tb1 (a n) j _ Hok _ Hu).
    intros ins. cbn [TraceInterpret.a TraceInterpret.b flags r].
    destruct (flags_cleared (flags ins)) as (FA & FB & _).
    repeat split; try assumption. intros x. apply pointer_not_register.
  - destruct (update_referenced tb (a n) _) as [[j tb1] |] eqn:Hu;
      [| discriminate].
    cbn [of_option bindS]. intros E. injection E as <-.
    refine (selected_ok_update tb tb1 (a n) j _ Hok _ Hu).
    intros ins. unfold set_r. cbn [TraceInterpret.a TraceInterpret.b flags r].
    repeat split. intros x. apply pointer_not_register.
  - discriminate.
Qed.

Lemma selection_loop_ok (nodes : list IRNode) (todo : nat) :
  forall tb k tb',
    selected_ok tb -> selection_loop nodes tb k todo = Sel tb' ->
    selected_ok tb'.
Proof.
  induction todo as [| todo IH]; intros tb k tb' Hok; simpl.
  - intros E. injection E as <-. exact Hok.
  - destruct (select nodes tb k) as [tb1 | |] eqn:Hs; try discriminate.
    cbn [bindS]. apply IH. exact (select_ok _ _ _ _ Hok Hs).
Qed.

Lemma selected_ok_init : selected_ok Tables_init.
Proof.
  unfold selected_ok, Tables_init. cbn [insts reference_to_instruction].
  split; [| split].
  - intros r k Hr. rewrite lookup_empty in Hr. discriminate.
  - intros k ins Hk. rewrite lookup_nil in Hk. discriminate.
  - intros k ins x Hk. rewrite lookup_nil in Hk. discriminate.
Qed.

(** X14.  Whatever the trace, the instructions that pass 1 selects are
    what the allocation pass expects: an operand flagged as a register
    points at the result of an earlier instruction, no result pointer
    is a register yet, and every entry of [reference_to_instruction]
    names an emitted instruction. *)
Theorem instruction_selection_well_formed (nodes : list IRNode) (tb : Tables) :
  instruction_selection nodes = Sel tb ->
  operands_precede (insts tb) /\ no_register_yet (insts tb)
  /\ forall r k, reference_to_instruction tb !! r = Some k ->
       (k < List.length (insts tb))%nat.
Proof.
  intros Hs.
  destruct (selection_loop_ok nodes _ _ _ _ selected_ok_init Hs) as (H1 & H2 & H3).
  auto.
Qed.


(** X16.  The cast bytecode that pass 1 selects is a widening cast
    exactly when the elements of the target type are larger than those
    of the source type; a bytecode is selected exactly for two
    different types among Logical, Integer and Double, and every other
    pair is refused with "unexpected type". *)
Theorem select_cast_widens_iff_elements_grow (src dst : Type_.Enum) :
  match select_cast src dst with
  | Sel code =>
      (is_widening_cast code = true <-> size_for_type src < size_for_type dst)
      /\ src <> dst
      /\ (src = Type_.Logical \/ src = Type_.Integer \/ src = Type_.Double)
      /\ (dst = Type_.Logical \/ dst = Type_.Integer \/ dst = Type_.Double)
  | Err msg =>
      msg = "unexpected type"%string
      /\ (src = dst
          \/ ~ (src = Type_.Logical \/ src = Type_.Integer \/ src = Type_.Double)
          \/ ~ (dst = Type_.Logical \/ dst = Type_.Integer \/ dst = Type_.Double))
  | Lost => False
  end.
Proof.
  destruct src, dst; cbn [select_cast];
    try (split; [reflexivity |];
         first [ left; reflexivity
               | right; left; intros [H | [H | H]]; discriminate H
               | right; right; intros [H | [H | H]]; discriminate H ]);
    (split; [vm_compute; split; intros H; try discriminate H; reflexivity |]);
    (split; [discriminate |]); split; auto.
Qed.

(** *** Pass 2 is defined on what pass 1 selects *)

Lemma EmitBinary3_emits (nodes : list IRNode) (tb tb' : Tables)
    (osv ovs ovv : TraceBC.Enum) (k : nat) :
  EmitBinary3 nodes tb osv ovs ovv k = Sel tb' -> emits_one tb tb'.
Proof.
  unfold EmitBinary3.
  destruct (nodes !! k) as [n |]; [| discriminate]. cbn [of_option bindS].
  destruct (GetOperand nodes tb (a n)) as [[[oa ca] ra] |]; [| discriminate].
  cbn [of_option bindS].
  destruct (GetOperand nodes tb (b n)) as [[[ob cb] rb] |]; [| discriminate].
  cbn [of_option bindS]. intros E. injection E as <-.
  eexists _, _. split; [reflexivity |]. cbn [flags r].
  destruct (flags_binary ra rb) as (_ & _ & FR). auto.
Qed.

Lemma EmitUnary1_emits (nodes : list IRNode) (tb tb' : Tables)
    (code : TraceBC.Enum) (k : nat) :
  EmitUnary1 nodes tb code k = Sel tb' -> emits_one tb tb'.
Proof.
  unfold EmitUnary1.
  destruct (nodes !! k) as [n |]; [| discriminate]. cbn [of_option bindS].
  destruct (GetOperand nodes tb (a n)) as [[[oa ca] ra] |]; [| discriminate].
  cbn [of_option bindS]. destruct ca; [discriminate |].
  intros E. injection E as <-.
  eexists _, _. split; [reflexivity |]. cbn [flags r].
  destruct (flags_unary ra) as (_ & _ & FR). auto.
Qed.

Lemma EmitFold_emits (nodes : list IRNode) (tb tb' : Tables)
    (oi od : TraceBC.Enum) (basei based : Z) (k : nat) :
  EmitFold nodes tb oi od basei based k = Sel tb' -> emits_one tb tb'.
Proof.
  unfold EmitFold.
  destruct (nodes !! k) as [n |]; [| discriminate]. cbn [of_option bindS].
  destruct (GetOperand nodes tb (a n)) as [[[oa ca] ra] |]; [| discriminate].
  cbn [of_option bindS]. destruct ca; [discriminate |].
  destruct (flags_unary ra) as (_ & _ & FR).
  destruct (type n); try discriminate; intros E; injection E as <-;
    eexists _, _; (split; [reflexivity |]); cbn [flags r]; auto.
Qed.

Lemma selected_results_emit (tb tb' : Tables) :
  selected_results tb -> emits_one tb tb' ->
  selected_results tb'
  /\ (List.length (insts tb') <= S (List.length (insts tb)))%nat.
Proof.
  intros (Hr & Hu) (node_ref & ins & -> & HF & HN). unfold emit, selected_results.
  cbn [insts reference_to_instruction]. split; [split |].
  - intros q k Hq. rewrite length_app. simpl.
    destruct (decide (q = node_ref)) as [-> | Hne].
    + rewrite lookup_insert_eq in Hq. injection Hq as <-. lia.
    + rewrite lookup_insert_ne in Hq by congruence. specialize (Hr q k Hq). lia.
  - intros k i0 Hk. apply lookup_app_Some in Hk.
    destruct Hk as [Hk | [Hge Hk]]; [exact (Hu k i0 Hk) |].
    apply list_lookup_singleton_Some in Hk. destruct Hk as [_ <-].
    rewrite HF. exact HN.
  - rewrite length_app. simpl. lia.
Qed.

Lemma selected_results_pointers (tb : Tables) (t : Type_.Enum) (cl : Cell) :
  selected_results tb ->
  selected_results (AddIncrementingPointer tb t cl)
  /\ List.length (insts (AddIncrementingPointer tb t cl)) = List.length (insts tb).
Proof.
  unfold AddIncrementingPointer, selected_results.
  destruct (size_for_type t =? 1); cbn [insts reference_to_instruction]; auto.
Qed.

Lemma select_results (nodes : list IRNode) (tb tb' : Tables) (k : nat) :
  stores_to_buffers nodes ->
  selected_results tb -> select nodes tb k = Sel tb' ->
  selected_results tb'
  /\ (List.length (insts tb') <= S (List.length (insts tb)))%nat.
Proof.
  intros Hst Hok. unfold select.
  destruct (nodes !! k) as [n |] eqn:Hn; [| discriminate].
  cbn [of_option bindS].
  destruct (Hst k n Hn) as [Hnc Hsv].
  destruct (op n) eqn:Hop.
  - unfold EmitBinary6. rewrite Hn. cbn [of_option bindS].
    destruct (node nodes (a n)) as [na |]; [| discriminate].
    cbn [of_option bindS].
    destruct (type na); try discriminate; intros E;
      apply (selected_results_emit _ _ Hok (EmitBinary3_emits _ _ _ _ _ _ _ E)).
  - intros E.
    apply (selected_results_emit _ _ Hok (EmitBinary3_emits _ _ _ _ _ _ _ E)).
  - unfold EmitUnary2. rewrite Hn. cbn [of_option bindS].
    destruct (type n); try discriminate; intros E;
      apply (selected_results_emit _ _ Hok (EmitUnary1_emits _ _ _ _ _ E)).
  - intros E.
    apply (selected_results_emit _ _ Hok (EmitFold_emits _ _ _ _ _ _ _ _ E)).
  - intros E.
    apply (selected_results_emit _ _ Hok (EmitUnary1_emits _ _ _ _ _ E)).
  - destruct (node nodes (a n)) as [na |]; [| discriminate].
    cbn [of_option bindS].
    destruct (select_cast (type na) (type n)) as [code | |]; try discriminate.
    cbn [bindS]. intros E.
    apply (selected_results_emit _ _ Hok (EmitUnary1_emits _ _ _ _ _ E)).
  - unfold EmitSpecial. rewrite Hn. cbn [of_option bindS].
    intros E. injection E as <-.
    apply (selected_results_emit _ _ Hok).
    eexists _, _. split; [reflexivity |]. cbn [flags r]. auto.
  - intros E. injection E as <-. split; [exact Hok | lia].
  - intros E. injection E as <-.
    destruct (selected_results_pointers tb (type n) (LoadOf k) Hok) as [H1 H2].
    split; [exact H1 | lia].
  - unfold update_referenced.
    destruct (a n <? 0); [discriminate |].
    destruct (reference_to_instruction tb !! Z.to_nat (a n)) as [j |];
      [| discriminate].
    cbn [mbind option_bind].
    destruct (insts tb !! j) as [ins |] eqn:Hj; [| discriminate].
    cbn [mbind option_bind of_option bindS]. intros E. injection E as <-.
    match goal with
    | |- context [AddIncrementingPointer ?t _ _] => set (tb1 := t)
    end.
    assert (H1 : selected_results tb1).
    { destruct Hok as (Hr & Hu). unfold tb1, selected_results.
      cbn [insts reference_to_instruction]. split.
      - intros q k' Hq. rewrite length_insert. exact (Hr q k' Hq).
      - intros m i0 Hm. destruct (decide (m = j)) as [-> | Hne].
        + rewrite list_lookup_insert_eq in Hm
            by (apply lookup_lt_Some in Hj; exact Hj).
          injection Hm as <-. cbn [flags r].
          destruct (flags_cleared (flags ins)) as (_ & _ & FR). rewrite FR.
          unfold pointer. specialize (Hsv eq_refl). apply Z.eqb_neq in Hsv.
          rewrite Hsv. eauto.
        + rewrite list_lookup_insert_ne in Hm by congruence. exact (Hu m i0 Hm). }
    destruct (selected_results_pointers tb1 (type n) (ResultOf j) H1) as [H2 H3].
    split; [exact H2 |]. rewrite H3. unfold tb1. cbn [insts].
    rewrite length_insert. lia.
  - contradiction.
  - discriminate.
Qed.

Lemma selection_loop_results (nodes : list IRNode) (todo : nat) :
  stores_to_buffers nodes ->
  forall tb k tb',
    selected_results tb -> selection_loop nodes tb k todo = Sel tb' ->
    selected_results tb'
    /\ (List.length (insts tb') <= List.length (insts tb) + todo)%nat.
Proof.
  intros Hst. induction todo as [| todo IH]; intros tb k tb' Hok; simpl.
  - intros E. injection E as <-. split; [exact Hok | lia].
  - destruct (select nodes tb k) as [tb1 | |] eqn:Hs; try discriminate.
    cbn [bindS]. intros Hl.
    destruct (select_results _ _ _ _ Hst Hok Hs) as [H1 H2].
    destruct (IH tb1 (S k) tb' H1 Hl) as [H3 H4]. split; [exact H3 | lia].
Qed.

(** X17.  On a trace of at most 32 nodes that stores no constant and
    whose stored vectors all have an output buffer, pass 2 runs to its
    end on whatever pass 1 selected: the bit string never runs out of
    registers and no pointer outside the register file is taken for a
    register, so [compile] yields the allocated instructions. *)
Theorem compile_defined_with_enough_registers (nodes : list IRNode) (tb : Tables) :
  stores_to_buffers nodes -> (List.length nodes <= 32)%nat ->
  instruction_selection nodes = Sel tb ->
  exists st', compile nodes = Sel st'.
Proof.
  intros Hst Hlen Hs. unfold compile. rewrite Hs. cbn [bindS].
  destruct (selection_loop_ok nodes _ _ _ _ selected_ok_init Hs) as (_ & Hwf & _).
  assert (Hinit : selected_results Tables_init).
  { unfold selected_results, Tables_init. cbn [insts reference_to_instruction].
    split.
    - intros q k Hq. rewrite lookup_empty in Hq. discriminate.
    - intros k ins Hk. rewrite lookup_nil in Hk. discriminate. }
  destruct (selection_loop_results nodes _ Hst _ _ _ Hinit Hs) as [[_ Hun] Hl].
  cbn [insts Tables_init List.length] in Hl.
  destruct (register_allocation_defined (insts tb) (load_cells nodes) Hwf Hun)
    as [st' Hrun]; [lia |].
  rewrite Hrun. cbn [of_option]. exists st'. reflexivity.
Qed.

End SelectionPass.

(* ===================================================================== *)
(** ** The bit-string allocator hands out the lowest free register *)

Section AllocatorRoundTrip.
Import TraceInterpret.

Lemma ffs_from_lowest (n : nat) (k x : Z) :
  0 <= k -> ffs_from n k x <> 0 ->
  forall j, k <= j < ffs_from n k x - 1 -> Z.testbit x j = false.
Proof.
  revert k. induction n as [| n IH]; intros k Hk Hnz j Hj; simpl in *.
  - congruence.
  - destruct (Z.testbit x k) eqn:E; [lia |].
    destruct (decide (j = k)) as [-> | Hne]; [exact E |].
    apply (IH (k + 1)); [lia | exact Hnz | lia].
Qed.

Lemma wrap32_range (x : Z) : 0 <= wrap32 x < 2 ^ 32.
Proof. unfold wrap32. apply Z.mod_pos_bound. lia. Qed.

Lemma testbit_high (al y : Z) :
  0 <= al < 2 ^ 32 -> 32 <= y -> Z.testbit al y = false.
Proof.
  intros Hal Hy. rewrite <- (Z.mod_small al (2 ^ 32)) by exact Hal.
  apply Z.mod_pow2_bits_high. lia.
Qed.

(** X25.  [allocate] hands out the lowest register whose bit is set
    and clears that bit; freeing the register again restores the bit
    string exactly; and a second allocation before that gets a higher
    register. *)
Theorem allocate_lowest_and_free_restores (al reg al' : Z) :
  0 <= al < 2 ^ 32 ->
  allocate al = Some (reg, al') ->
  0 <= reg < 32
  /\ Z.testbit al reg = true
  /\ (forall j, 0 <= j < reg -> Z.testbit al j = false)
  /\ Z.testbit al' reg = false
  /\ 0 <= al' < 2 ^ 32
  /\ free al' reg = Some al
  /\ forall reg2 al2, allocate al' = Some (reg2, al2) -> reg < reg2.
Proof.
  intros Hal Halloc.
  destruct (allocate_spec al reg al' Halloc) as (Hreg & Hset & Hbits).
  assert (Hlow : forall j, 0 <= j < reg -> Z.testbit al j = false).
  { unfold allocate in Halloc.
    destruct (ffs al - 1 <? 0) eqn:E; [discriminate |].
    injection Halloc as <- _. apply Z.ltb_ge in E.
    intros j Hj. apply (ffs_from_lowest 32 0 al); [lia | | exact Hj].
    unfold ffs in E. lia. }
  assert (Hclr : Z.testbit al' reg = false).
  { rewrite Hbits by exact Hreg. rewrite Hset, Z.eqb_refl. reflexivity. }
  assert (Hal' : 0 <= al' < 2 ^ 32).
  { unfold allocate in Halloc.
    destruct (ffs al - 1 <? 0); [discriminate |].
    injection Halloc as _ <-. apply wrap32_range. }
  split; [exact Hreg |]. split; [exact Hset |]. split; [exact Hlow |].
  split; [exact Hclr |]. split; [exact Hal' |]. split.
  - unfold free.
    assert (E : (0 <=? reg) && (reg <? 32) = true)
      by (apply andb_true_iff; split; [apply Z.leb_le | apply Z.ltb_lt]; lia).
    rewrite E. f_equal. apply Z.bits_inj'. intros y Hy.
    destruct (Z.lt_ge_cases y 32) as [Hlt | Hge].
    + rewrite testbit_wrap32 by lia.
      rewrite Z.lor_spec, testbit_one_shifted by lia.
      rewrite Hbits by lia.
      destruct (y =? reg) eqn:Ey.
      * apply Z.eqb_eq in Ey. subst y. rewrite Hset. reflexivity.
      * rewrite andb_true_r, orb_false_r. reflexivity.
    + rewrite (testbit_high al y Hal Hge).
      apply testbit_high; [apply wrap32_range | exact Hge].
  - intros reg2 al2 H2.
    destruct (allocate_spec al' reg2 al2 H2) as (Hreg2 & Hset2 & _).
    destruct (Z.lt_trichotomy reg2 reg) as [Hlt | [Heq | Hgt]]; [| | exact Hgt].
    + rewrite Hbits, (Hlow reg2) in Hset2 by lia. discriminate Hset2.
    + subst reg2. congruence.
Qed.

End AllocatorRoundTrip.

(* ===================================================================== *)
(** ** The multiway branch *)

Section Branch.
Import Interpreter Control.
Context `{P : Params} `{C : Conversions}.

(** What the search loop returns: the first entry named [s] if there
    is one; otherwise the choice made before, if any; otherwise the
    first entry with the empty name; otherwise the negative index it
    started with. *)
Lemma branch_search_spec (cd : gmap Z Instruction) (inst s : Z) (todo : nat) :
  forall index i r,
    0 <= i ->
    branch_search cd inst s index i todo = Some r ->
    (i <= r < i + Z.of_nat todo
     /\ (exists e, cd !! (inst + r) = Some e /\ a e = s)
     /\ forall j e, i <= j < r -> cd !! (inst + j) = Some e -> a e <> s)
    \/ ((forall j e, i <= j < i + Z.of_nat todo ->
           cd !! (inst + j) = Some e -> a e <> s)
        /\ ((0 <= index /\ r = index)
            \/ (index < 0
                /\ ((i <= r < i + Z.of_nat todo
                     /\ (exists e, cd !! (inst + r) = Some e
                                   /\ a e = Strings_empty)
                     /\ forall j e, i <= j < r ->
                          cd !! (inst + j) = Some e -> a e <> Strings_empty)
                    \/ (r = index
                        /\ forall j e, i <= j < i + Z.of_nat todo ->
                             cd !! (inst + j) = Some e ->
                             a e <> Strings_empty))))).
Proof.
  induction todo as [| todo IH]; intros index i r Hi; cbn [branch_search].
  - intros E. injection E as <-. right. split; [intros j e Hj; lia |].
    destruct (Z.lt_ge_cases index 0) as [Hneg | Hpos].
    + right. split; [exact Hneg |]. right. split; [reflexivity |].
      intros j e Hj. lia.
    + left. split; [exact Hpos | reflexivity].
  - destruct (cd !! (inst + i)) as [e |] eqn:He; [| discriminate].
    cbn [mbind option_bind].
    destruct (a e =? s) eqn:Es.
    + intros E. injection E as <-. apply Z.eqb_eq in Es. left.
      split; [lia |]. split; [eauto |]. intros j e' Hj. lia.
    + apply Z.eqb_neq in Es. intros Hrec.
      assert (Hstep : forall (Q : Z -> Prop) j,
                 Q i -> (i + 1 <= j -> Q j) -> i <= j -> Q j).
      { intros Q j Q0 Q1 Hj. destruct (decide (j = i)) as [-> | Hne];
          [exact Q0 | apply Q1; lia]. }
      destruct (IH _ (i + 1) r ltac:(lia) Hrec)
        as [(Hr & Hm & Hfirst) | (Hnone & Hrest)].
      * left. split; [lia |]. split; [exact Hm |].
        intros j e' Hj Hje.
        destruct (decide (j = i)) as [-> | Hne]; [congruence |].
        apply (Hfirst j e'); [lia | exact Hje].
      * right. split.
        { intros j e' Hj Hje.
          destruct (decide (j = i)) as [-> | Hne]; [congruence |].
          apply (Hnone j e'); [lia | exact Hje]. }
        destruct (index <? 0) eqn:Eneg; cbn [andb] in Hrest.
        -- apply Z.ltb_lt in Eneg.
           destruct (a e =? Strings_empty) eqn:Ee.
           ++ apply Z.eqb_eq in Ee.
              destruct Hrest as [[_ ->] | [Hlt _]]; [| lia].
              right. split; [exact Eneg |]. left.
              split; [lia |]. split; [eauto |]. intros j e' Hj. lia.
           ++ apply Z.eqb_neq in Ee.
              destruct Hrest as [[Hpos _] | [_ Hsub]]; [lia |].
              right. split; [exact Eneg |].
              destruct Hsub as [(Hr & Hm & Hfirst) | [-> Hnoe]].
              ** left. split; [lia |]. split; [exact Hm |].
                 intros j e' Hj Hje.
                 destruct (decide (j = i)) as [-> | Hne]; [congruence |].
                 apply (Hfirst j e'); [lia | exact Hje].
              ** right. split; [reflexivity |]. intros j e' Hj Hje.
                 destruct (decide (j = i)) as [-> | Hne]; [congruence |].
                 apply (Hnoe j e'); [lia | exact Hje].
        -- apply Z.ltb_ge in Eneg.
           destruct Hrest as [[_ ->] | [Hlt _]]; [| lia].
           left. split; [exact Eneg | reflexivity].
Qed.

Lemma branch_search_defined (cd : gmap Z Instruction) (inst s : Z) (todo : nat) :
  forall index i,
    (forall j, i <= j < i + Z.of_nat todo -> is_Some (cd !! (inst + j))) ->
    exists r, branch_search cd inst s index i todo = Some r.
Proof.
  induction todo as [| todo IH]; intros index i Hall; cbn [branch_search].
  - eauto.
  - destruct (Hall i ltac:(lia)) as [e He]. rewrite He. cbn [mbind option_bind].
    destruct (a e =? s); [eauto |].
    apply IH. intros j Hj. apply Hall. lia.
Qed.

(** X18.  [branch_op] on a number takes the entry with that index when
    the index lies in the table, and otherwise falls through to the
    instruction after the table.  On a string it takes the first entry
    with that name; if there is none, the first entry with the empty
    name; if there is none either, it falls through.  The thread is
    left as it is. *)
Theorem branch_op_selects_entry (th : Thread) (inst : Z) (ins : Instruction) :
  (forall x, UNCHECKED_OPERAND th (c ins) = Some (VInteger [x]) ->
     (forall e, 1 <= x <= b ins -> code th !! (inst + x) = Some e ->
        branch_op th inst ins = Ok (inst + c e) th)
     /\ (~ 1 <= x <= b ins -> branch_op th inst ins = Ok (inst + 1 + b ins) th))
  /\ (forall s, UNCHECKED_OPERAND th (c ins) = Some (VCharacter [s]) ->
        (forall j, 1 <= j <= b ins -> is_Some (code th !! (inst + j))) ->
        exists target,
          branch_op th inst ins = Ok target th
          /\ ((exists k e, 1 <= k <= b ins /\ code th !! (inst + k) = Some e
                           /\ a e = s /\ target = inst + c e
                           /\ forall j e', 1 <= j < k ->
                                code th !! (inst + j) = Some e' -> a e' <> s)
              \/ ((forall j e', 1 <= j <= b ins ->
                     code th !! (inst + j) = Some e' -> a e' <> s)
                  /\ ((exists k e, 1 <= k <= b ins
                         /\ code th !! (inst + k) = Some e
                         /\ a e = Strings_empty /\ target = inst + c e
                         /\ forall j e', 1 <= j < k ->
                              code th !! (inst + j) = Some e' ->
                              a e' <> Strings_empty)
                      \/ ((forall j e', 1 <= j <= b ins ->
                             code th !! (inst + j) = Some e' ->
                             a e' <> Strings_empty)
                          /\ target = inst + 1 + b ins))))).
Proof.
  split.
  - intros x Hx. unfold branch_op. rewrite Hx. cbn [branch_index]. split.
    + intros e Hr He.
      assert (E : (1 <=? x) && (x <=? b ins) = true)
        by (apply andb_true_iff; split; apply Z.leb_le; lia).
      rewrite E, He. reflexivity.
    + intros Hr.
      assert (E : (1 <=? x) && (x <=? b ins) = false).
      { apply andb_false_iff.
        destruct (Z.lt_ge_cases x 1);
          [left; apply Z.leb_gt; lia | right; apply Z.leb_gt; lia]. }
      rewrite E. unfold CHECK_OPERAND. cbn [isConcrete negb].
      rewrite andb_false_r. reflexivity.
  - intros s Hs Hall. unfold branch_op. rewrite Hs. cbn [branch_index].
    destruct (branch_search_defined (code th) inst s (Z.to_nat (b ins)) (-1) 1)
      as [r Hr].
    { intros j Hj. apply Hall. lia. }
    rewrite Hr.
    assert (Hfall : CHECK_OPERAND th inst (VCharacter [s]) (a ins) = None).
    { unfold CHECK_OPERAND. cbn [isConcrete negb]. rewrite andb_false_r.
      reflexivity. }
    destruct (branch_search_spec (code th) inst s (Z.to_nat (b ins)) (-1) 1 r
                ltac:(lia) Hr)
      as [(Hk & (e & He & Hes) & Hfirst) | (Hnone & [[Hpos _] | (_ & Hsub)])];
      [| lia |].
    + assert (E : (1 <=? r) && (r <=? b ins) = true)
        by (apply andb_true_iff; split; apply Z.leb_le; lia).
      rewrite E, He. eexists. split; [reflexivity |]. left.
      exists r, e. split; [lia |]. repeat split; auto.
    + assert (Hnone' : forall j e', 1 <= j <= b ins ->
                code th !! (inst + j) = Some e' -> a e' <> s).
      { intros j e' Hj. apply Hnone. lia. }
      destruct Hsub as [(Hk & (e & He & Hee) & Hfirst) | [-> Hnoe]].
      * assert (E : (1 <=? r) && (r <=? b ins) = true)
          by (apply andb_true_iff; split; apply Z.leb_le; lia).
        rewrite E, He. eexists. split; [reflexivity |]. right.
        split; [exact Hnone' |]. left.
        exists r, e. split; [lia |]. repeat split; auto.
      * cbn [Z.leb andb]. rewrite Hfall. eexists. split; [reflexivity |].
        right. split; [exact Hnone' |]. right. split; [| reflexivity].
        intros j e' Hj. apply Hnoe. lia.
Qed.

(** X19.  [branch_op] checks its operand under the name in operand
    [a], not under the name in [c] it was read from: when the operand
    is an unevaluated promise or default and selects no entry, it is
    forced into the binding named by [a] if [a] is a name, and with a
    register in [a] the promise is not forced at all and the branch
    falls through. *)
Theorem branch_op_checks_operand_a (th : Thread) (inst : Z) (ins : Instruction)
    (cv : Value) :
  UNCHECKED_OPERAND th (c ins) = Some cv -> isConcrete cv = false ->
  (0 < a ins -> branch_op th inst ins = forceReg th inst cv (a ins))
  /\ (a ins <= 0 -> branch_op th inst ins = Ok (inst + 1 + b ins) th).
Proof.
  intros Hc Hn. unfold branch_op. rewrite Hc.
  assert (Hi : branch_index th inst ins cv = Some (-1))
    by (destruct cv; try discriminate Hn; reflexivity).
  rewrite Hi. cbn [Z.leb andb]. unfold CHECK_OPERAND. rewrite Hn. cbn [negb].
  rewrite andb_true_r. split; intros Ha.
  - apply Z.ltb_lt in Ha. rewrite Ha. reflexivity.
  - apply Z.ltb_ge in Ha. rewrite Ha. reflexivity.
Qed.

End Branch.

(* ===================================================================== *)
(** ** Round trips through the interpreter's frames and bindings *)

Section Rounds.
Import Interpreter.
Context `{P : Params}.

Lemma isConcrete_not_Nil (v : Value) : isConcrete v = true -> isNil v = false.
Proof. destruct v; simpl; congruence. Qed.

(** A binding of the current environment that holds a value is what a
    lookup from that environment finds. *)
Lemma getRecursive_local (th : Thread) (e name : Z) (E : Environment) (v : Value) :
  heap th !! e = Some E -> vars E !! name = Some v -> isNil v = false ->
  getRecursive th e name = Some v.
Proof.
  intros He Hv Hn. unfold getRecursive. cbn [getRecursive_fuel].
  rewrite He, Hv, Hn. reflexivity.
Qed.

Lemma OPERAND_local (th : Thread) (inst name : Z) (E : Environment) (v : Value) :
  0 < name ->
  heap th !! environment (frame th) = Some E -> vars E !! name = Some v ->
  isConcrete v = true ->
  OPERAND th inst name = Fetched v.
Proof.
  intros Hn He Hv Hc. unfold OPERAND.
  assert (E0 : (name <=? 0) = false) by (apply Z.leb_gt; exact Hn).
  rewrite E0, (getRecursive_local th _ name E v He Hv (isConcrete_not_Nil v Hc)), Hc.
  reflexivity.
Qed.

(** X20.  What a handler writes is what the next fetch reads.  After
    [assign] of a concrete value to a name, fetching that name in the
    same frame yields the value; nothing but that binding of the
    current environment has changed.  After [mov] to a register,
    fetching that register yields the value; no other register and no
    environment has changed. *)
Theorem written_value_is_fetched (th : Thread) (inst : Z) (ins : Instruction)
    (v : Value) (E : Environment) :
  heap th !! environment (frame th) = Some E ->
  (OPERAND th inst (c ins) = Fetched v -> isConcrete v = true -> 0 < a ins ->
   exists th1,
     assign_op th inst ins = Ok (inst + 1) th1
     /\ (forall inst', OPERAND th1 inst' (a ins) = Fetched v)
     /\ registers th1 = registers th /\ base th1 = base th
     /\ frame th1 = frame th /\ stack th1 = stack th
     /\ heap th1
        = <[environment (frame th)
            := mkEnvironment (<[a ins := v]> (vars E)) (lexical E) (dynamic E)]>
            (heap th))
  /\ (OPERAND th inst (a ins) = Fetched v -> c ins <= 0 ->
      exists th1,
        mov_op th inst ins = Ok (inst + 1) th1
        /\ (forall inst', OPERAND th1 inst' (c ins) = Fetched v)
        /\ (forall k, k <> c ins -> REGISTER th1 k = REGISTER th k)
        /\ heap th1 = heap th /\ base th1 = base th
        /\ frame th1 = frame th /\ stack th1 = stack th).
Proof.
  intros He. split.
  - intros Hf Hc Ha. unfold assign_op, env_insert. rewrite Hf, He.
    eexists. split; [reflexivity |]. split; [| repeat split].
    intros inst'.
    apply (OPERAND_local _ inst' (a ins)
             (mkEnvironment (<[a ins := v]> (vars E)) (lexical E) (dynamic E)) v Ha);
      [| | exact Hc].
    + unfold set_heap. cbn [heap frame]. apply lookup_insert_eq.
    + cbn [vars]. apply lookup_insert_eq.
  - intros Hf Hc. unfold mov_op. rewrite Hf.
    eexists. split; [reflexivity |]. split; [| split; [| repeat split]].
    + intros inst'. unfold OPERAND. apply Z.leb_le in Hc. rewrite Hc.
      unfold REGISTER, set_REGISTER, set_registers. cbn [registers base].
      rewrite lookup_insert_eq. reflexivity.
    + intros k Hk. unfold REGISTER, set_REGISTER, set_registers.
      cbn [registers base]. rewrite lookup_insert_ne by lia. reflexivity.
Qed.

(** X21.  A conditional jump on anything but a logical, integer or
    double of length one never jumps: a value that is at hand raises
    "Need single element logical in conditional jump" and leaves the
    thread as it is; a promise or default read through a name is
    forced first. *)
Theorem jc_op_needs_scalar_condition (th : Thread) (inst : Z) (ins : Instruction)
    (v : Value) :
  UNCHECKED_OPERAND th (c ins) = Some v -> is1 v = false ->
  (c ins <= 0 \/ isConcrete v = true ->
   jc_op th inst ins
   = Error "Need single element logical in conditional jump" th)
  /\ (0 < c ins -> isConcrete v = false ->
      jc_op th inst ins = forceReg th inst v (c ins)).
Proof.
  intros Hv H1. unfold jc_op. rewrite Hv.
  assert (Hjc : match CHECK_OPERAND th inst v (c ins) with
                | Some r => r
                | None => Error "Need single element logical in conditional jump" th
                end
                = jc_op th inst ins).
  { unfold jc_op. rewrite Hv.
    destruct v as [| | l | l | l | l | l | | | | |];
      try reflexivity;
      destruct l as [| x [| y l]]; try reflexivity; discriminate H1. }
  unfold jc_op in Hjc. rewrite Hv in Hjc. rewrite <- Hjc.
  unfold CHECK_OPERAND. split.
  - intros [Hc | Hc].
    + assert (E : (0 <? c ins) = false) by (apply Z.ltb_ge; exact Hc).
      rewrite E. reflexivity.
    + rewrite Hc. cbn [negb]. rewrite andb_false_r. reflexivity.
  - intros Hc Hn. apply Z.ltb_lt in Hc. rewrite Hc, Hn. reflexivity.
Qed.

(** X22.  When the JIT is compiled out or switched off for the thread,
    no arithmetic handler ever hands its instruction to the
    recorder. *)
Theorem recorder_unreachable_without_jit (th : Thread) (inst : Z)
    (ins : Instruction) (r : Z) :
  ENABLE_JIT = false \/ jitEnabled th = false ->
  unary_op th inst ins <> Recorder r
  /\ binary_op th inst ins <> Recorder r
  /\ ifelse_op th inst ins <> Recorder r
  /\ split_op th inst ins <> Recorder r
  /\ seq_op th inst ins <> Recorder r.
Proof.
  intros Hoff.
  assert (T1 : forall t n, trace th inst t n = Null).
  { intros t n. unfold trace.
    destruct Hoff as [-> | ->]; [reflexivity |].
    destruct ENABLE_JIT; reflexivity. }
  assert (T2 : forall x y, trace2 th inst x y = Null).
  { intros x y. unfold trace2.
    destruct Hoff as [-> | ->]; [reflexivity |].
    destruct ENABLE_JIT; reflexivity. }
  repeat split.
  - unfold unary_op. destruct (UNCHECKED_OPERAND th (a ins)) as [x |];
      [| discriminate].
    destruct (is1 x); [discriminate |]. destruct (isObject x); [discriminate |].
    destruct (CHECK_OPERAND th inst x (a ins)); [discriminate |].
    unfold trace1. rewrite T1. discriminate.
  - unfold binary_op.
    destruct (UNCHECKED_OPERAND th (a ins)) as [x |]; [| discriminate].
    destruct (UNCHECKED_OPERAND th (b ins)) as [y |]; [| discriminate].
    destruct (is1 x && is1 y); [discriminate |].
    destruct (CHECK_OPERAND th inst x (a ins)); [discriminate |].
    destruct (CHECK_OPERAND th inst y (b ins)); [discriminate |].
    destruct (isObject x || isObject y); [discriminate |].
    rewrite T2. discriminate.
  - unfold ifelse_op. destruct (OPERAND th inst (a ins)); [| discriminate].
    unfold trace1. rewrite T1. discriminate.
  - unfold split_op. destruct (OPERAND th inst (c ins)); [| discriminate].
    unfold trace1. rewrite T1. discriminate.
  - unfold seq_op. destruct (OPERAND th inst (a ins)) as [Len |]; [| discriminate].
    destruct (OPERAND th inst (b ins)) as [Step |]; [| discriminate].
    destruct (As_Integer Len); [discriminate |].
    destruct (As_Integer Step); [discriminate |].
    rewrite T1. discriminate.
Qed.

(** X23.  [eval] of a prototype whose code returns one of its
    registers yields the value of that register and restores the
    thread: the base pointer, the current frame and the frame stack
    are those on entry, and the only register written is the result
    slot below the caller's base. *)
Theorem eval_returns_register (th : Thread) (prototype_ environment_ done_ : Z)
    (Pr : Prototype) (ret_ins done_ins : Instruction) (fuel : nat) :
  prototypes th !! prototype_ = Some Pr ->
  code th !! entry Pr = Some ret_ins -> bc ret_ins = ByteCode.ret ->
  a ret_ins <= 0 ->
  code th !! done_ = Some done_ins -> bc done_ins = ByteCode.done ->
  exists th',
    eval (interpret (2 + fuel)) th prototype_ environment_ done_
    = Ok (REGISTER (set_base th (base th - 1 - registers_needed Pr)) (a ret_ins))
         th'
    /\ base th' = base th /\ frame th' = frame th /\ stack th' = stack th
    /\ registers th'
       = <[base th - 1
           := REGISTER (set_base th (base th - 1 - registers_needed Pr))
                       (a ret_ins)]> (registers th)
    /\ heap th' = heap th /\ environments th' = environments th.
Proof.
  intros Hp Hentry Hret Ha Hdone Hd.
  destruct th as [bs rg fr stk envs hp ps cd je].
  cbn [prototypes code base frame stack registers heap environments] in *.
  unfold eval, buildStackFrame, buildStackFrame_common, eval_result_frame, push,
    set_frame, set_base, set_stack.
  cbn [prototypes code base frame stack registers heap environments jitEnabled].
  rewrite Hp.
  cbn [interpret plus Nat.add prototypes code base frame stack registers heap
       environments jitEnabled].
  rewrite Hentry.
  rewrite bool_decide_eq_false_2 by (rewrite Hret; discriminate).
  unfold dispatch. rewrite Hret. unfold ret_op, OPERAND.
  pose proof Ha as Ha'. apply Z.leb_le in Ha'. rewrite Ha'.
  cbn [prototypes code base frame stack registers heap environments jitEnabled
       ownEnvironment andb].
  unfold set_base.
  cbn [prototypes code base frame stack registers heap environments jitEnabled
       ownEnvironment andb returnbase i].
  change (0 <=? 0) with true. cbn iota.
  unfold set_REGISTER, set_registers, pop, set_frame, set_stack, REGISTER.
  cbn [prototypes code base frame stack registers heap environments jitEnabled
       returnpc].
  rewrite last_snoc, removelast_last.
  cbn [interpret prototypes code base frame stack registers heap environments
       jitEnabled].
  rewrite Hdone.
  rewrite bool_decide_eq_true_2 by exact Hd.
  cbn [prototypes code base frame stack registers heap environments jitEnabled].
  rewrite last_snoc, removelast_last.
  rewrite Z.sub_0_r. cbn [registers]. rewrite lookup_insert_eq. cbn [default].
  eexists. split; [reflexivity |].
  cbn [prototypes code base frame stack registers heap environments jitEnabled].
  repeat split.
Qed.

(** X24.  A promise is forced once.  When a move reads a name that the
    current environment binds to a promise made for that environment,
    the move first builds a frame for the promise; the promise's code
    returns its register into the binding and control comes back to
    the move; run again, the move copies the value.  Afterwards the
    destination register and the binding hold the value, and the
    base, the frame and the frame stack are as before the first
    step. *)
Theorem promise_is_forced_once (th : Thread) (inst name dst p e : Z)
    (E : Environment) (Pr : Prototype) (ret_ins : Instruction) (v : Value) :
  0 < name -> dst <= 0 ->
  environment (frame th) = e ->
  heap th !! e = Some E -> vars E !! name = Some (VPromise p e) ->
  prototypes th !! p = Some Pr ->
  code th !! entry Pr = Some ret_ins -> bc ret_ins = ByteCode.ret ->
  a ret_ins <= 0 ->
  registers th !! (base th - registers_needed Pr - a ret_ins) = Some v ->
  isConcrete v = true ->
  exists th1 th2 th3,
    dispatch th inst (mkInstruction ByteCode.mov name 0 dst) = Ok (entry Pr) th1
    /\ dispatch th1 (entry Pr) ret_ins = Ok inst th2
    /\ dispatch th2 inst (mkInstruction ByteCode.mov name 0 dst)
       = Ok (inst + 1) th3
    /\ REGISTER th3 dst = v
    /\ getRecursive th3 e name = Some v
    /\ base th3 = base th /\ frame th3 = frame th /\ stack th3 = stack th.
Proof.
  intros Hname Hdst He HE Hv Hp Hentry Hret Ha Hreg Hc.
  assert (N0 : (name <=? 0) = false) by (apply Z.leb_gt; exact Hname).
  pose proof Ha as Ha'. apply Z.leb_le in Ha'.
  assert (Hnil : isNil v = false) by (apply isConcrete_not_Nil; exact Hc).
  destruct th as [bs rg fr stk envs hp ps cd je].
  cbn [prototypes code base frame stack registers heap environments] in *.
  eexists _, _, _. split.
  { unfold dispatch. cbn [bc]. unfold mov_op. cbn [a]. unfold OPERAND.
    rewrite N0. cbn [frame]. rewrite He.
    rewrite (getRecursive_local (mkThread bs rg fr stk envs hp ps cd je) e name E
               (VPromise p e) HE Hv eq_refl).
    cbn [isConcrete forceReg heap]. rewrite HE.
    unfold buildStackFrame_named, buildStackFrame_common. cbn [prototypes].
    rewrite Hp. unfold push, set_frame, set_base, set_stack.
    cbn [prototypes code base frame stack registers heap environments
         jitEnabled].
    reflexivity. }
  split.
  { unfold dispatch. rewrite Hret. unfold ret_op, OPERAND. rewrite Ha'.
    unfold REGISTER.
    cbn [prototypes code base frame stack registers heap environments
         jitEnabled ownEnvironment andb].
    rewrite Hreg. cbn [default]. unfold set_base.
    cbn [prototypes code base frame stack registers heap environments
         jitEnabled returnbase i env s].
    rewrite N0. unfold env_insert. cbn [heap]. rewrite HE.
    unfold set_heap, pop, set_frame, set_stack.
    cbn [prototypes code base frame stack registers heap environments
         jitEnabled returnpc].
    rewrite last_snoc, removelast_last. reflexivity. }
  assert (O2 : forall th2,
             environment (frame th2) = e ->
             heap th2 = <[e := mkEnvironment (<[name := v]> (vars E))
                                             (lexical E) (dynamic E)]> hp ->
             OPERAND th2 inst name = Fetched v).
  { intros th2 F2 H2.
    apply (OPERAND_local th2 inst name
             (mkEnvironment (<[name := v]> (vars E)) (lexical E) (dynamic E))
             v Hname); [| | exact Hc].
    - rewrite F2, H2. apply lookup_insert_eq.
    - cbn [vars]. apply lookup_insert_eq. }
  split.
  { unfold dispatch. cbn [bc]. unfold mov_op. cbn [a c].
    rewrite O2 by (cbn [frame heap]; auto). reflexivity. }
  unfold REGISTER, set_REGISTER, set_registers.
  cbn [prototypes code base frame stack registers heap environments jitEnabled].
  split; [rewrite lookup_insert_eq; reflexivity |].
  split; [| auto].
  match goal with
  | |- getRecursive ?t _ _ = _ =>
      apply (getRecursive_local t e name
               (mkEnvironment (<[name := v]> (vars E)) (lexical E) (dynamic E)) v)
  end;
    [cbn [heap]; apply lookup_insert_eq | cbn [vars]; apply lookup_insert_eq
    | exact Hnil].
Qed.

End Rounds.

(* ===================================================================== *)
(** ** Instances *)

(** The integer load (node 5) is cast to double by a new node 6. *)
Lemma cast_types_once_witness :
  Emit.cast (JIT.mkState Examples.two_loads ∅) 5 Type_.Double
  = Emit.Done 6
      (JIT.mkState
         (Examples.two_loads
          ++ [JIT.mkIR TraceOpCode.asdouble 5 0 0 Type_.Double
                       (JIT.mkShape 4 200) (JIT.mkShape 4 200)]) ∅)
  /\ Emit.cast
       (JIT.mkState
          (Examples.two_loads
           ++ [JIT.mkIR TraceOpCode.asdouble 5 0 0 Type_.Double
                        (JIT.mkShape 4 200) (JIT.mkShape 4 200)]) ∅)
       6 Type_.Double
     = Emit.Done 6
         (JIT.mkState
            (Examples.two_loads
             ++ [JIT.mkIR TraceOpCode.asdouble 5 0 0 Type_.Double
                          (JIT.mkShape 4 200) (JIT.mkShape 4 200)]) ∅).
Proof.
  pose proof (cast_types_once (JIT.mkState Examples.two_loads ∅) 5 Type_.Double
                _ eq_refl) as H.
  change (Emit.cast (JIT.mkState Examples.two_loads ∅) 5 Type_.Double)
    with (Emit.Done 6
            (JIT.mkState
               (Examples.two_loads
                ++ [JIT.mkIR TraceOpCode.asdouble 5 0 0 Type_.Double
                             (JIT.mkShape 4 200) (JIT.mkShape 4 200)]) ∅)) in H.
  destruct H as (_ & _ & _ & _ & H). split; [reflexivity | exact H].
Defined.

(** The scalar constant (node 1) is recycled to the shape of the first
    load: three nodes are pushed. *)
Lemma rep_reaches_target_once_witness :
  exists r st',
    @Emit.rep Examples.jit_params (JIT.mkState Examples.two_loads ∅) 1
       (JIT.mkShape 2 200) = Emit.Done r st'
    /\ List.length (JIT.trace st') = 9%nat.
Proof.
  destruct (@rep_reaches_target_once Examples.jit_params
              (JIT.mkState Examples.two_loads ∅) 1 (JIT.mkShape 2 200) _ eq_refl)
    as (r & st' & Hr & _ & _ & _ & Hl & _).
  exists r, st'. split; [exact Hr | exact Hl].
Defined.

(** A unary operation on the integer load with double operand type
    takes the cast (node 6) as operand. *)
Lemma EmitUnary_EmitFold_typed_operand_witness :
  exists ca nca,
    Emit.node
      (JIT.mkState
         (Examples.two_loads
          ++ [JIT.mkIR TraceOpCode.asdouble 5 0 0 Type_.Double
                       (JIT.mkShape 4 200) (JIT.mkShape 4 200);
              JIT.mkIR TraceOpCode.sub 6 0 0 Type_.Double
                       (JIT.mkShape 4 200) (JIT.mkShape 4 200)]) ∅) 7
    = Some (JIT.mkIR TraceOpCode.sub ca 0 0 Type_.Double
                     (JIT.mkShape 4 200) (JIT.mkShape 4 200))
    /\ Emit.node
         (JIT.mkState
            (Examples.two_loads
             ++ [JIT.mkIR TraceOpCode.asdouble 5 0 0 Type_.Double
                          (JIT.mkShape 4 200) (JIT.mkShape 4 200);
                 JIT.mkIR TraceOpCode.sub 6 0 0 Type_.Double
                          (JIT.mkShape 4 200) (JIT.mkShape 4 200)]) ∅) ca
       = Some nca
    /\ JIT.type nca = Type_.Double.
Proof.
  destruct (EmitUnary_EmitFold_typed_operand
              (JIT.mkState Examples.two_loads ∅)
              (JIT.mkState
                 (Examples.two_loads
                  ++ [JIT.mkIR TraceOpCode.asdouble 5 0 0 Type_.Double
                               (JIT.mkShape 4 200) (JIT.mkShape 4 200);
                      JIT.mkIR TraceOpCode.sub 6 0 0 Type_.Double
                               (JIT.mkShape 4 200) (JIT.mkShape 4 200)]) ∅)
              TraceOpCode.sub 5 7 Type_.Double Type_.Double _ eq_refl)
    as [HU _].
  destruct (HU eq_refl) as (ca & nca & H1 & H2 & H3 & _).
  exists ca, nca. auto.
Defined.

(** Adding the double load and the integer load as doubles: the two
    length references are merged to the older one, the integer load is
    cast, and the sum has the merged shape. *)
Lemma EmitBinary_operands_typed_and_shaped_witness :
  exists r st' ra rb,
    @Emit.EmitBinary Examples.jit_params true (JIT.mkState Examples.two_loads ∅)
       TraceOpCode.add 3 5 Type_.Double Type_.Double Type_.Double 9
    = Emit.Done r st'
    /\ Emit.node st' r
       = Some (JIT.mkIR TraceOpCode.add ra rb 0 Type_.Double
                        (JIT.mkShape 2 200) (JIT.mkShape 2 200)).
Proof.
  destruct (@Emit.EmitBinary Examples.jit_params true
              (JIT.mkState Examples.two_loads ∅)
              TraceOpCode.add 3 5 Type_.Double Type_.Double Type_.Double 9)
    as [r st' | |] eqn:He; try (vm_compute in He; discriminate He).
  destruct (@EmitBinary_operands_typed_and_shaped Examples.jit_params true
              (JIT.mkState Examples.two_loads ∅) st' TraceOpCode.add 3 5 r
              Type_.Double Type_.Double Type_.Double 9 _ _ eq_refl eq_refl He)
    as (ra & rb & nra & nrb & H1 & _).
  exists r, st', ra, rb. split; [reflexivity | exact H1].
Defined.

(** The double load (node 3) stored to register -2 is what a load of
    register -2 returns. *)
Lemma store_then_load_forwards_witness :
  exists rec1,
    @Recorder.store Examples.jit_params Scenarios.layout Scenarios.recorder0 Examples.thread0 3 (-2)
    = Some (3, rec1)
    /\ @Recorder.load Examples.jit_params Scenarios.layout rec1 Examples.thread0
         (VInteger [1]) (-2) 10
       = Some (3, Recorder.mkRecorder
                    (JIT.set_reenter (Recorder.buffers rec1) 3
                                     (JIT.mkReenter 10 true))
                    (Recorder.slots rec1)).
Proof.
  destruct (@Recorder.store Examples.jit_params Scenarios.layout Scenarios.recorder0
              Examples.thread0 3 (-2)) as [[a' rec1] |] eqn:Hs;
    [| vm_compute in Hs; discriminate Hs].
  destruct (@store_then_load_forwards Examples.jit_params Scenarios.layout
              Scenarios.recorder0 rec1 Examples.thread0 3 a' (-2)
              (VInteger [1]) 10 ltac:(lia) Hs) as (-> & _ & Hl & _).
  exists rec1. split; [reflexivity | exact Hl].
Defined.

(** The first load of register -1 ends the trace with an sload of an
    integer. *)
Lemma load_register_is_remembered_witness :
  exists r rec1,
    @Recorder.load Examples.jit_params Scenarios.layout Scenarios.recorder0
       Examples.thread0 (VInteger [1]) (-1) 10 = Some (r, rec1)
    /\ Recorder.slots rec1 !! @Recorder.register_variable Scenarios.layout Examples.thread0 (-1)
       = Some r
    /\ JIT.reenters (Recorder.buffers rec1) !! r = Some (JIT.mkReenter 10 true).
Proof.
  destruct (@load_register_is_remembered Examples.jit_params Scenarios.layout
              Scenarios.recorder0 Examples.thread0 (VInteger [1]) (-1) 10
              ltac:(lia)) as (r & rec1 & Hl & Hs & Hr & _).
  exists r, rec1. auto.
Defined.

(** A recorded move of register -1 to register -2. *)
Lemma EmitIR_mov_shares_node_witness :
  exists rec2 r,
    @Recorder.EmitIR_mov Examples.jit_params Scenarios.layout Scenarios.recorder0
       Examples.thread0 (VInteger [1]) 10
       (Interpreter.mkInstruction ByteCode.mov (-1) 0 (-2)) = Some rec2
    /\ Recorder.slots rec2 !! @Recorder.register_variable Scenarios.layout Examples.thread0 (-1)
       = Some r
    /\ Recorder.slots rec2 !! @Recorder.register_variable Scenarios.layout Examples.thread0 (-2)
       = Some r.
Proof.
  destruct (@Recorder.EmitIR_mov Examples.jit_params Scenarios.layout
              Scenarios.recorder0 Examples.thread0 (VInteger [1]) 10
              (Interpreter.mkInstruction ByteCode.mov (-1) 0 (-2)))
    as [rec2 |] eqn:He; [| vm_compute in He; discriminate He].
  destruct (@EmitIR_mov_shares_node Examples.jit_params Scenarios.layout
              Scenarios.recorder0 rec2 Examples.thread0 (VInteger [1]) 10
              (Interpreter.mkInstruction ByteCode.mov (-1) 0 (-2))
              ltac:(simpl; lia) ltac:(simpl; lia) He) as (r & H1 & H2 & _).
  exists rec2, r. auto.
Defined.

(** Of the four stores, the one into node 2 is dropped at the exit. *)
Lemma BuildExit_keeps_live_stores_witness :
  exists e,
    Recorder.BuildExit Scenarios.exit_code [] Scenarios.exit_frames
      Scenarios.exit_stores (JIT.mkReenter 10 true) 0 = Some e
    /\ Recorder.live e = [7; 7]
    /\ Recorder.o e ⊆ Scenarios.exit_stores.
Proof.
  destruct (Recorder.BuildExit Scenarios.exit_code [] Scenarios.exit_frames
              Scenarios.exit_stores (JIT.mkReenter 10 true) 0)
    as [e |] eqn:He; [| vm_compute in He; discriminate He].
  destruct (BuildExit_keeps_live_stores _ _ _ _ _ _ e He)
    as (Hl & _ & _ & _ & _ & Hsub & _).
  exists e. split; [reflexivity |]. split; [exact Hl | exact Hsub].
Defined.

(** Merging the shapes of the two loads forwards reference 2 in place
    of reference 4. *)
Lemma MergeShapes_forwards_younger_reference_witness :
  JIT.length (fst (JIT.MergeShapes (JIT.mkState Examples.two_loads ∅)
                     (JIT.mkShape 2 200) (JIT.mkShape 4 200) 7))
  = Z.min 2 4
  /\ List.length (JIT.trace (snd (JIT.MergeShapes (JIT.mkState Examples.two_loads ∅)
                                    (JIT.mkShape 2 200) (JIT.mkShape 4 200) 7)))
     = 6%nat.
Proof.
  destruct (MergeShapes_forwards_younger_reference
              (JIT.mkState Examples.two_loads ∅)
              (JIT.mkShape 2 200) (JIT.mkShape 4 200) 7
              ltac:(simpl; lia) ltac:(simpl; lia) ltac:(simpl; lia) eq_refl)
    as (H1 & _ & H2 & _).
  split; [exact H1 | exact H2].
Defined.

(** The sload at node 3 of the example starts a group. *)
Lemma schedule_starts_group_witness :
  JIT.schedule Examples.gather_from_group !! 3%nat = Some false.
Proof.
  apply (schedule_starts_group_at_guards_loads_and_shape_changes
           Examples.gather_from_group 3 _ eq_refl).
  left. right. right. right. reflexivity.
Defined.

(** Node 4 of the example is fused behind node 3 and shares its input
    shape. *)
Lemma fusion_group_shares_input_shape_witness :
  JIT.Shape_eqb
    (JIT.in_ (JIT.mkIR TraceOpCode.slength (-1) 4 0 Type_.Integer JIT.Empty
                       JIT.Scalar))
    (JIT.in_ (JIT.mkIR TraceOpCode.sload (-1) 3 0 Type_.Double JIT.Empty
                       (JIT.mkShape 2 200)))
  = true.
Proof.
  apply (fusion_group_shares_input_shape Examples.gather_from_group 3 4 _ _
           ltac:(lia) eq_refl eq_refl).
  intros k Hk. assert (k = 4%nat) by lia. subst k. reflexivity.
Defined.

(** Pass 1 on the example trace selects two instructions. *)
Lemma instruction_selection_well_formed_witness :
  exists tb,
    Selection.instruction_selection Scenarios.cast_trace = Selection.Sel tb
    /\ Allocation.operands_precede (Selection.insts tb)
    /\ Allocation.no_register_yet (Selection.insts tb).
Proof.
  destruct (Selection.instruction_selection Scenarios.cast_trace)
    as [tb | |] eqn:Hs; try (vm_compute in Hs; discriminate Hs).
  destruct (instruction_selection_well_formed _ tb Hs) as (H1 & H2 & _).
  exists tb. auto.
Defined.


(** The example trace has four nodes and stores to a buffer. *)
Lemma compile_defined_with_enough_registers_witness :
  exists st', Selection.compile Scenarios.cast_trace = Selection.Sel st'.
Proof.
  destruct (Selection.instruction_selection Scenarios.cast_trace)
    as [tb | |] eqn:Hs; try (vm_compute in Hs; discriminate Hs).
  apply (compile_defined_with_enough_registers Scenarios.cast_trace tb);
    [| simpl; lia | exact Hs].
  intros k n Hk.
  destruct k as [| [| [| [| k]]]]; simpl in Hk; try discriminate Hk;
    injection Hk as <-; (split; [discriminate |]); intros E;
    try discriminate E; simpl; lia.
Defined.

(** With a promise as operand and a register in [a], the branch falls
    through behind its table without forcing the promise. *)
Lemma branch_op_checks_operand_a_witness :
  @Control.branch_op Examples.interp_params Scenarios.conversions
     Scenarios.branch_thread 20 (Interpreter.mkInstruction ByteCode.jmp (-1) 3 5)
  = Interpreter.Ok 24 Scenarios.branch_thread.
Proof.
  apply (@branch_op_checks_operand_a Examples.interp_params Scenarios.conversions
           Scenarios.branch_thread 20
           (Interpreter.mkInstruction ByteCode.jmp (-1) 3 5) (VPromise 7 2));
    [vm_compute; reflexivity | reflexivity | simpl; lia].
Defined.

(** Moving the integer of register 0 to register -2 and reading it
    back. *)
Lemma written_value_is_fetched_witness :
  exists th1,
    @Interpreter.mov_op Examples.interp_params Examples.thread0 10
       (Interpreter.mkInstruction ByteCode.mov 0 0 (-2))
    = Interpreter.Ok 11 th1
    /\ @Interpreter.OPERAND Examples.interp_params th1 11 (-2)
       = Interpreter.Fetched (VInteger [200]).
Proof.
  destruct (@written_value_is_fetched Examples.interp_params Examples.thread0 10
              (Interpreter.mkInstruction ByteCode.mov 0 0 (-2)) (VInteger [200])
              (Interpreter.mkEnvironment
                 {[ 5 := VPromise 7 2; 6 := VDefault 8 2 ]} 1 3))
    as [_ Hmov]; [vm_compute; reflexivity |].
  destruct Hmov as (th1 & H1 & H2 & _); [vm_compute; reflexivity | simpl; lia |].
  exists th1. split; [exact H1 | apply H2].
Defined.

(** A conditional jump on the string of the branch example raises. *)
Lemma jc_op_needs_scalar_condition_witness :
  @Interpreter.jc_op Examples.interp_params Scenarios.branch_thread 20
     (Interpreter.mkInstruction ByteCode.jc 1 2 (-1))
  = Interpreter.Error "Need single element logical in conditional jump"
                      Scenarios.branch_thread.
Proof.
  apply (@jc_op_needs_scalar_condition Examples.interp_params
           Scenarios.branch_thread 20
           (Interpreter.mkInstruction ByteCode.jc 1 2 (-1)) (VCharacter [13]));
    [vm_compute; reflexivity | reflexivity | left; simpl; lia].
Defined.

(** With the flag of the thread off, the [seq] of the example is not
    handed to the recorder. *)
Lemma recorder_unreachable_without_jit_witness :
  @Interpreter.seq_op Examples.interp_params
     (Interpreter.mkThread 100 (Interpreter.registers Examples.thread0)
        (Interpreter.frame Examples.thread0) (Interpreter.stack Examples.thread0)
        [] Examples.heap0 Examples.prototypes0 Examples.code0 false) 10
     (Interpreter.mkInstruction ByteCode.seq 0 (-1) (-2))
  <> Interpreter.Recorder 10.
Proof.
  apply (@recorder_unreachable_without_jit Examples.interp_params).
  right. reflexivity.
Defined.

(** [eval] of prototype 7, whose code returns register 0, yields the 7
    held there and leaves the base at 100. *)
Lemma eval_returns_register_witness :
  exists th',
    Interpreter.eval (@Interpreter.interpret Examples.interp_params 2)
      Scenarios.eval_thread 7 2 50
    = Interpreter.Ok (VInteger [7]) th'
    /\ Interpreter.base th' = 100
    /\ Interpreter.stack th' = Interpreter.stack Scenarios.eval_thread.
Proof.
  destruct (@eval_returns_register Examples.interp_params Scenarios.eval_thread
              7 2 50 (Interpreter.mkPrototype 2 700)
              (Interpreter.mkInstruction ByteCode.ret 0 0 0)
              (Interpreter.mkInstruction ByteCode.done 0 0 0) 0
              eq_refl eq_refl eq_refl ltac:(simpl; lia) eq_refl eq_refl)
    as (th' & He & Hb & _ & Hs & _).
  exists th'. split; [exact He |]. split; [exact Hb | exact Hs].
Defined.

(** The promise bound to x in the thread of the examples is forced by
    the move at 10 and replaced by the 42 its code returns. *)
Lemma promise_is_forced_once_witness :
  exists th3,
    Interpreter.REGISTER th3 (-1) = VInteger [42]
    /\ Interpreter.getRecursive th3 2 5 = Some (VInteger [42])
    /\ Interpreter.stack th3 = Interpreter.stack Examples.thread0.
Proof.
  destruct (@promise_is_forced_once Examples.interp_params Examples.thread0
              10 5 (-1) 7 2
              (Interpreter.mkEnvironment
                 {[ 5 := VPromise 7 2; 6 := VDefault 8 2 ]} 1 3)
              (Interpreter.mkPrototype 2 700)
              (Interpreter.mkInstruction ByteCode.ret 0 0 0) (VInteger [42])
              ltac:(lia) ltac:(lia) eq_refl eq_refl eq_refl eq_refl eq_refl
              eq_refl ltac:(simpl; lia) eq_refl eq_refl)
    as (th1 & th2 & th3 & _ & _ & _ & H1 & H2 & _ & _ & H3).
  exists th3. auto.
Defined.

(** The fresh allocator hands out register 0, and freeing it gives the
    full bit string back. *)
Lemma allocate_lowest_and_free_restores_witness :
  exists al',
    TraceInterpret.allocate TraceInterpret.Allocator_init = Some (0, al')
    /\ TraceInterpret.free al' 0 = Some TraceInterpret.Allocator_init.
Proof.
  destruct (TraceInterpret.allocate TraceInterpret.Allocator_init)
    as [[reg al'] |] eqn:Ha; [| vm_compute in Ha; discriminate Ha].
  destruct (allocate_lowest_and_free_restores TraceInterpret.Allocator_init
              reg al' ltac:(vm_compute; split; [discriminate | reflexivity]) Ha)
    as (_ & _ & _ & _ & _ & Hf & _).
  assert (reg = 0) by (vm_compute in Ha; injection Ha as <- _; reflexivity).
  subst reg. exists al'. split; [reflexivity | exact Hf].
Defined.
